(** * OpenSlide, Leica SCN reader: level synthesis, manifest parsing,
      region and tile painting, and the file functions

    A shallow embedding of [src/openslide-vendor-leica.c] and of the
    stdio wrappers of [src/openslide-file.c], with the properties the
    specification states about them and further properties read off the
    code.

    Conventions of the embedding
    - [int64_t] values are [Z]; but for [read_tile] the code only
      compares them, copies them and converts them to [double], so no
      wrap-around can occur on them; the products of [read_tile] are
      checked against the range of [int64_t].
      [uint32_t] counters are [Z] with the wrap-around written out.
    - [double] is IEEE 754 binary64, given by the standard library's
      [spec_float] at precision 53 and maximal exponent 1024.
    - A [GPtrArray] is a [list]; its [len] field is a [guint], so every
      array the code can hold has fewer than [2^32] elements.
    - Where the code passes an [int64_t] for a narrower parameter whose
      effect is recorded (a [tdir_t] directory, the [int] sizes of a
      cairo surface), the conversion is written out.
    - A [char *] that may be [NULL] is an [option string].
    - A pointer to an image is the index of the image in
      [collection->images]: two images with equal fields are still two
      different pointers.
    - Functions of libtiff, libxml2, GLib, libc and of the other files of
      OpenSlide are taken as variables of the section that uses them. *)

From Stdlib Require Import ZArith String SpecFloat Lia.
From Stdlib Require Import Sorted Permutation.
From Stdlib Require QArith Qabs.
From stdpp Require Import base list strings gmap pretty.

Local Open Scope string_scope.
Local Open Scope list_scope.
Local Open Scope Z_scope.

(** ** IEEE 754 binary64 *)

Module Double.

Definition prec : Z := 53.
Definition emax : Z := 1024.

Definition double : Type := spec_float.

(** [(double) z] for an integer [z]: round to nearest, ties to even. *)
Definition of_int64 (z : Z) : double := binary_normalize prec emax z 0 false.

Definition div : double -> double -> double := SFdiv prec emax.
Definition sub : double -> double -> double := SFsub prec emax.
Definition fabs : double -> double := SFabs.
Definition ltb : double -> double -> bool := SFltb.
Definition leb : double -> double -> bool := SFleb.

Definition is_nan (x : double) : bool :=
  match x with S754_nan => true | _ => false end.

(** GLib's [MIN(a, b)] is [(((a) < (b)) ? (a) : (b))]. *)
Definition MIN (a b : double) : double := if ltb a b then a else b.

(** The literals [1] and [0.98]. *)
Definition one : double := of_int64 1.
Definition c0_98 : double := S754_finite false 8827055269646172 (-53).

(** [ceil]: the least integral value not below the argument; zeros,
    infinities and NaN are returned unchanged, and a negative argument
    above [-1] gives [-0.0]. *)
Definition ceil (x : double) : double :=
  match x with
  | S754_finite s m e =>
      if 0 <=? e then x
      else
        let q := Z.shiftr (Z.pos m) (- e) in
        let exact := Z.pos m =? Z.shiftl q (- e) in
        if s then binary_normalize prec emax (- q) 0 true
        else binary_normalize prec emax (if exact then q else q + 1) 0 false
  | _ => x
  end.

(** The integral part of a finite value (truncation toward zero). *)
Definition trunc (x : double) : option Z :=
  match x with
  | S754_zero _ => Some 0
  | S754_finite s m e =>
      let a := if 0 <=? e then Z.shiftl (Z.pos m) e
               else Z.shiftr (Z.pos m) (- e) in
      Some (if s then - a else a)
  | _ => None
  end.

Definition in_int64 (z : Z) : bool := (- 2 ^ 63 <=? z) && (z <? 2 ^ 63).

(** [(int64_t) x].  When the integral part is not representable (or [x]
    is infinite or NaN) C with IEC 60559 arithmetic raises "invalid" and
    leaves the value unspecified; [unspecified] is that value. *)
Definition to_int64 (unspecified : double -> Z) (x : double) : Z :=
  match trunc x with
  | Some z => if in_int64 z then z else unspecified x
  | None => unspecified x
  end.

End Double.

Abbreviation double := Double.double.

(** ** Errors and outcomes *)

Inductive error_code : Type :=
| OPENSLIDE_ERROR_FAILED
| OPENSLIDE_ERROR_FORMAT_NOT_SUPPORTED
| OPENSLIDE_ERROR_BAD_DATA
| G_FILE_ERROR.

Record GError : Type := mkGError { code : error_code; message : string }.

Definition BadData (msg : string) : GError :=
  mkGError OPENSLIDE_ERROR_BAD_DATA msg.

(** What a call does: it returns normally with a value, it returns with an
    error set, it ends the program on a failed [g_assert], or its
    behaviour is not defined by C (a [NULL] passed to [strcmp], an element
    read outside an array). *)
Inductive outcome (A : Type) : Type :=
| Done (a : A)
| Failed (e : GError)
| Aborted
| Undefined.

Arguments Done {A} a.
Arguments Failed {A} e.
Arguments Aborted {A}.
Arguments Undefined {A}.

(** ** Data parsed from the ImageDescription XML *)

Record dimension : Type := mkDimension {
  dir : Z;
  width : Z;
  height : Z;
  dim_clicks_per_pixel : double
}.

Record image : Type := mkImage {
  creation_date : option string;
  device_model : option string;
  device_version : option string;
  illumination_source : option string;
  objective : option string;
  aperture : option string;
  is_macro : bool;
  img_clicks_across : Z;
  img_clicks_down : Z;
  img_clicks_offset_x : Z;
  img_clicks_offset_y : Z;
  dimensions : list dimension
}.

Record collection : Type := mkCollection {
  barcode : option string;
  clicks_across : Z;
  clicks_down : Z;
  images : list image
}.

Definition LEICA_XMLNS : string :=
  "http://www.leica-microsystems.com/scn/2010/10/01".
Definition LEICA_VALUE_BRIGHTFIELD : string := "brightfield".

(** [strcmp(a, b)] as a condition: [Some true] when the strings differ,
    [Some false] when they are equal, [None] when a pointer is [NULL]. *)
Definition strcmp (a b : option string) : option bool :=
  match a, b with
  | Some s, Some t => Some (negb (String.eqb s t))
  | _, _ => None
  end.

(** [!image->illumination_source ||
     strcmp(image->illumination_source, LEICA_VALUE_BRIGHTFIELD)] *)
Definition not_brightfield (img : image) : bool :=
  match illumination_source img with
  | None => true
  | Some s => negb (String.eqb s LEICA_VALUE_BRIGHTFIELD)
  end.

(** A [guint] length. *)
Definition fits_guint {A : Type} (l : list A) : Prop :=
  Z.of_nat (length l) < 2 ^ 32.

(** [n++] on a [uint32_t]. *)
Definition incr32 (n : Z) : Z := (n + 1) mod 2 ^ 32.

(** ** should_use_legacy_quickhash *)

(** The loop of [should_use_legacy_quickhash] from the image at hand on,
    with the two counters; the early [return false] ends it. *)
Fixpoint legacy_quickhash_loop (imgs : list image)
    (brightfield_main_images macro_images : Z) : bool :=
  match imgs with
  | [] => (brightfield_main_images =? 1) && (macro_images <=? 1)
  | img :: rest =>
      if is_macro img then
        legacy_quickhash_loop rest brightfield_main_images (incr32 macro_images)
      else if not_brightfield img then false
      else legacy_quickhash_loop rest (incr32 brightfield_main_images) macro_images
  end.

Definition should_use_legacy_quickhash (c : collection) : bool :=
  legacy_quickhash_loop (images c) 0 0.

(** The images the level synthesis keeps: not macro, and brightfield. *)
Definition main_brightfield (img : image) : bool :=
  negb (is_macro img) && negb (not_brightfield img).

Definition macro_brightfield (img : image) : bool :=
  is_macro img && negb (not_brightfield img).

Definition count (f : image -> bool) (imgs : list image) : Z :=
  Z.of_nat (length (List.filter f imgs)).

(** Every image that is not a macro image is brightfield. *)
Definition mains_all_brightfield (imgs : list image) : Prop :=
  Forall (fun img => is_macro img = false -> not_brightfield img = false) imgs.

(** ** Levels and areas *)

(** [struct _openslide_tiff_level], as the TIFF decoder fills it in. *)
Record _openslide_tiff_level : Type := mkTiffLevel {
  tiffl_dir : Z;
  image_w : Z;
  image_h : Z;
  tile_w : Z;
  tile_h : Z;
  tiles_across : Z;
  tiles_down : Z
}.

(** The grid [_openslide_grid_create_simple] builds from its arguments
    (the tile callback is always [read_tile]). *)
Record _openslide_grid : Type := mkGrid {
  grid_tiles_across : Z;
  grid_tiles_down : Z;
  grid_tile_w : Z;
  grid_tile_h : Z
}.

(** A TIFF directory within a level. *)
Record area : Type := mkArea {
  tiffl : _openslide_tiff_level;
  grid : option _openslide_grid;
  clicks_offset_x : Z;
  clicks_offset_y : Z
}.

(** The fields of [struct _openslide_level] this file reads or writes. *)
Record _openslide_level : Type := mkBase {
  downsample : double;
  w : Z;
  h : Z
}.

Record level : Type := mkLevel {
  base : _openslide_level;
  clicks_per_pixel : double;
  areas : list area
}.

(** What [g_slice_new0] returns. *)
Definition zero_tiffl : _openslide_tiff_level := mkTiffLevel 0 0 0 0 0 0 0.
Definition zero_area : area := mkArea zero_tiffl None 0 0.
Definition zero_base : _openslide_level := mkBase (S754_zero false) 0 0.

(** ** The state of level synthesis *)

(** What [create_levels_from_collection] writes: the [levels] array, the
    out-parameter [quickhash_dir], the property table of [osr] ([None]
    when [osr] is [NULL]) and the associated images registered so far. *)
Record synth : Type := mkSynth {
  levels : list level;
  quickhash_dir : Z;
  properties : option (gmap string string);
  associated_images : list (string * Z)
}.

Definition with_levels (f : list level -> list level) (st : synth) : synth :=
  mkSynth (f (levels st)) (quickhash_dir st) (properties st)
          (associated_images st).

Definition with_quickhash_dir (q : Z) (st : synth) : synth :=
  mkSynth (levels st) q (properties st) (associated_images st).

Definition with_properties
    (f : option (gmap string string) -> option (gmap string string))
    (st : synth) : synth :=
  mkSynth (levels st) (quickhash_dir st) (f (properties st))
          (associated_images st).

Definition with_associated_image (name : string) (d : Z) (st : synth) : synth :=
  mkSynth (levels st) (quickhash_dir st) (properties st)
          (associated_images st ++ [(name, d)]).

(** A computation on the synthesis state.  A failure keeps the state
    reached: the caller frees the levels built so far. *)
Definition Synth (A : Type) : Type := synth -> synth * outcome A.

Definition ret {A : Type} (a : A) : Synth A := fun st => (st, Done a).

Definition bind {A B : Type} (m : Synth A) (k : A -> Synth B) : Synth B :=
  fun st =>
    match m st with
    | (st', Done a) => k a st'
    | (st', Failed e) => (st', Failed e)
    | (st', Aborted) => (st', Aborted)
    | (st', Undefined) => (st', Undefined)
    end.

Definition fail {A : Type} (e : GError) : Synth A := fun st => (st, Failed e).

Definition undefined {A : Type} : Synth A := fun st => (st, Undefined).

Definition modify (f : synth -> synth) : Synth unit :=
  fun st => (f st, Done tt).

Declare Scope synth_scope.
Delimit Scope synth_scope with synth.
Notation "x <- m ;; k" := (bind m (fun x => k))
  (at level 100, m at next level, right associativity) : synth_scope.
Notation "m ;;; k" := (bind m (fun _ => k))
  (at level 100, right associativity) : synth_scope.
Local Open Scope synth_scope.

(** ** Collaborators of the level synthesis *)

(** The functions of libtiff and of the TIFF decoder the synthesis calls.
    - [tiff_level_init d]: [_openslide_tiff_level_init(tiff, d, NULL,
      tiffl, err)], which selects directory [d] and reads its geometry;
    - [tiff_get_compression d]: [TIFFGetField(tiff, TIFFTAG_COMPRESSION,
      &compression)] while [d] is the current directory;
    - [tiff_codec_configured]: [TIFFIsCODECConfigured];
    - [tiff_add_associated_image d]:
      [_openslide_tiff_add_associated_image(osr, "macro", tc, d, err)],
      [None] when it succeeds;
    - [duplicate_int_prop]: [_openslide_duplicate_int_prop];
    - [unspecified_int64]: the value of an out-of-range conversion of a
      [double] to [int64_t];
    - [tdir_t_bits]: the width of libtiff's [tdir_t], an unsigned type
      ([uint16_t] before libtiff 4.5, [uint32_t] from it on).
    The functions that take a directory are given the [int64_t] the code
    passes; the callee receives it converted to [tdir_t]. *)
Record collaborators : Type := mkCollaborators {
  tiff_level_init : Z -> _openslide_tiff_level + GError;
  tiff_get_compression : Z -> option Z;
  tiff_codec_configured : Z -> bool;
  tiff_add_associated_image : Z -> option GError;
  duplicate_int_prop :
    gmap string string -> string -> string -> gmap string string;
  unspecified_int64 : double -> Z;
  tdir_t_bits : Z
}.

(** [(tdir_t) d]: the conversion of an [int64_t] to the unsigned type
    [tdir_t]. *)
Definition to_tdir_t (T : collaborators) (d : Z) : Z :=
  d mod 2 ^ tdir_t_bits T.

(** ** create_levels_from_collection *)

Definition set_prop (name : string) (value : option string)
    (osr : option (gmap string string)) : option (gmap string string) :=
  match osr, value with
  | Some props, Some v => Some (<[name := v]> props)
  | _, _ => osr
  end.

(** The properties written when the first main image is found. *)
Definition first_main_image_props (T : collaborators) (img : image)
    (osr : option (gmap string string)) : option (gmap string string) :=
  let osr := set_prop "leica.aperture" (aperture img) osr in
  let osr := set_prop "leica.creation-date" (creation_date img) osr in
  let osr := set_prop "leica.device-model" (device_model img) osr in
  let osr := set_prop "leica.device-version" (device_version img) osr in
  let osr :=
    set_prop "leica.illumination-source" (illumination_source img) osr in
  let osr := set_prop "leica.objective" (objective img) osr in
  match osr with
  | Some props =>
      Some (duplicate_int_prop T props "leica.objective"
                               "openslide.objective-power")
  | None => None
  end.

(** [1 - fabs(dimension->clicks_per_pixel -
              first_image_dimension->clicks_per_pixel) /
         first_image_dimension->clicks_per_pixel] *)
Definition resolution_similarity (d first_image_dimension : dimension)
    : double :=
  Double.sub Double.one
    (Double.div
       (Double.fabs (Double.sub (dim_clicks_per_pixel d)
                       (dim_clicks_per_pixel first_image_dimension)))
       (dim_clicks_per_pixel first_image_dimension)).

Definition minimize_click_density (d : dimension) (l : level) : level :=
  mkLevel (base l)
          (Double.MIN (clicks_per_pixel l) (dim_clicks_per_pixel d))
          (areas l).

(** The level of a dimension (lines 580-608).  For the first main image a
    new level is appended; for a later image the level at
    [dimension_num] has its click density minimized and is then checked
    against the first image's dimension.  The result is the position of
    the level in [levels]. *)
Definition level_of_dimension (is_first : bool) (first_main_image : image)
    (dimension_num : nat) (d : dimension) : Synth nat :=
  fun st =>
    if is_first then
      (with_levels
         (fun ls => ls ++ [mkLevel zero_base (dim_clicks_per_pixel d) []]) st,
       Done (length (levels st)))
    else
      match levels st !! dimension_num with
      | None => (st, Aborted)   (* g_assert(dimension_num < levels->len) *)
      | Some _ =>
          let st' :=
            with_levels (alter (minimize_click_density d) dimension_num) st in
          match dimensions first_main_image !! dimension_num with
          | None => (st', Undefined)   (* a read outside the array *)
          | Some first_image_dimension =>
              if Double.ltb (resolution_similarity d first_image_dimension)
                            Double.c0_98
              then (st',
                    Failed (BadData "Inconsistent main image resolutions"))
              else (st', Done dimension_num)
          end
      end.

Definition add_area (l : nat) (a : area) : synth -> synth :=
  with_levels (alter (fun lv => mkLevel (base lv) (clicks_per_pixel lv)
                                        (areas lv ++ [a])) l).

Definition _openslide_grid_create_simple (t : _openslide_tiff_level)
    : _openslide_grid :=
  mkGrid (tiles_across t) (tiles_down t) (tile_w t) (tile_h t).

(** The area of a dimension (lines 610-646).  The area is in the level
    from its allocation on, so a failure leaves it there as far as it
    was filled in. *)
Definition create_area (T : collaborators) (l : nat) (img : image)
    (d : dimension) : Synth unit :=
  fun st =>
    match tiff_level_init T (dir d) with
    | inr e => (add_area l zero_area st, Failed e)
    | inl t =>
        let a := mkArea t None (img_clicks_offset_x img)
                        (img_clicks_offset_y img) in
        match tiff_get_compression T (dir d) with
        | None =>
            (add_area l a st, Failed (BadData "Can't read compression scheme"))
        | Some compression =>
            if tiff_codec_configured T compression then
              (add_area l
                 (mkArea t (Some (_openslide_grid_create_simple t))
                         (img_clicks_offset_x img) (img_clicks_offset_y img))
                 st,
               Done tt)
            else
              (add_area l a st,
               Failed (BadData (String.append "Unsupported TIFF compression: "
                                              (pretty compression))))
        end
    end.

(** The loop over the dimensions of one main image, from [dimension_num]
    on. *)
Fixpoint dimensions_loop (T : collaborators) (is_first : bool)
    (first_main_image img : image) (dims : list dimension)
    (dimension_num : nat) : Synth unit :=
  match dims with
  | [] => ret tt
  | d :: rest =>
      l <- level_of_dimension is_first first_main_image dimension_num d ;;
      create_area T l img d ;;;
      dimensions_loop T is_first first_main_image img rest (S dimension_num)
  end.

(** The last element of an array, [pdata[len - 1]]; reading it from an
    empty array is outside the array. *)
Definition last_dimension (dims : list dimension) : option dimension :=
  last dims.

(** The check that a main image can be composited with the first one
    (lines 565-573); [||] evaluates its right operand only when the left
    one is zero. *)
Definition check_similar (img first_main_image : image) : Synth unit :=
  match strcmp (illumination_source img)
               (illumination_source first_main_image) with
  | None => undefined
  | Some true =>
      fail (BadData "Slides with dissimilar main images are not supported")
  | Some false =>
      match strcmp (objective img) (objective first_main_image) with
      | None => undefined
      | Some true =>
          fail (BadData "Slides with dissimilar main images are not supported")
      | Some false =>
          if Nat.eqb (length (dimensions img))
                     (length (dimensions first_main_image))
          then ret tt
          else fail (BadData
                       "Slides with dissimilar main images are not supported")
      end
  end.

(** One turn of the loop over the images that builds the levels (lines
    534-655).  [first_main_image] is the pointer of that name: the index
    of the image and the image. *)
Definition main_image_step (T : collaborators) (legacy_quickhash : bool)
    (image_num : nat) (img : image) (first_main_image : option (nat * image))
    : Synth (option (nat * image)) :=
  if is_macro img then ret first_main_image
  else if not_brightfield img then ret first_main_image
  else
    first <- match first_main_image with
             | None =>
                 modify (with_properties (first_main_image_props T img)) ;;;
                 ret (image_num, img)
             | Some f => ret f
             end ;;
    check_similar img (snd first) ;;;
    dimensions_loop T (Nat.eqb image_num (fst first)) (snd first) img
                    (dimensions img) 0 ;;;
    (if legacy_quickhash && Nat.eqb image_num (fst first) then
       match last_dimension (dimensions img) with
       | None => undefined
       | Some d => modify (with_quickhash_dir (dir d))
       end
     else ret tt) ;;;
    ret (Some first).

Fixpoint main_images_loop (T : collaborators) (legacy_quickhash : bool)
    (imgs : list image) (image_num : nat)
    (first_main_image : option (nat * image))
    : Synth (option (nat * image)) :=
  match imgs with
  | [] => ret first_main_image
  | img :: rest =>
      first <- main_image_step T legacy_quickhash image_num img
                               first_main_image ;;
      main_images_loop T legacy_quickhash rest (S image_num) first
  end.

(** Lines 663-669: the level sizes, from the minimized click densities. *)
Definition set_level_size (T : collaborators) (c : collection) (l : level)
    : level :=
  mkLevel
    (mkBase (downsample (base l))
       (Double.to_int64 (unspecified_int64 T)
          (Double.ceil (Double.div (Double.of_int64 (clicks_across c))
                                   (clicks_per_pixel l))))
       (Double.to_int64 (unspecified_int64 T)
          (Double.ceil (Double.div (Double.of_int64 (clicks_down c))
                                   (clicks_per_pixel l)))))
    (clicks_per_pixel l)
    (areas l).

(** One turn of the loop over the images that handles the macro image
    (lines 673-707). *)
Definition macro_image_step (T : collaborators) (legacy_quickhash : bool)
    (img : image) (have_macro_image : bool) : Synth bool :=
  if negb (is_macro img) then ret have_macro_image
  else if not_brightfield img then ret have_macro_image
  else if have_macro_image then fail (BadData "Found multiple macro images")
  else
    match dimensions img !! 0%nat with
    | None => undefined
    | Some largest =>
        match tiff_add_associated_image T (dir largest) with
        | Some e => fail e
        | None =>
            modify (with_associated_image "macro"
                      (to_tdir_t T (dir largest))) ;;;
            (if negb legacy_quickhash then
               match last_dimension (dimensions img) with
               | None => undefined
               | Some d => modify (with_quickhash_dir (dir d))
               end
             else ret tt) ;;;
            ret true
        end
    end.

Fixpoint macro_images_loop (T : collaborators) (legacy_quickhash : bool)
    (imgs : list image) (have_macro_image : bool) : Synth bool :=
  match imgs with
  | [] => ret have_macro_image
  | img :: rest =>
      have <- macro_image_step T legacy_quickhash img have_macro_image ;;
      macro_images_loop T legacy_quickhash rest have
  end.

Definition check_quickhash_dir : Synth unit :=
  fun st =>
    if quickhash_dir st =? -1 then
      (st, Failed (BadData "Couldn't locate TIFF directory for quickhash"))
    else (st, Done tt).

(** [create_levels_from_collection(osr, tc, tiff, collection, levels,
    &quickhash_dir, err)].  [osr] is the property table of the reader, or
    [None] for a [NULL] reader; [levels0] is the array the caller passes
    in.  The result is the state written and whether the call returned
    [true]. *)
Definition create_levels_from_collection (T : collaborators)
    (osr : option (gmap string string)) (c : collection)
    (levels0 : list level) : synth * outcome unit :=
  let legacy_quickhash := should_use_legacy_quickhash c in
  (first <- main_images_loop T legacy_quickhash (images c) 0 None ;;
   match first with
   | None => fail (BadData "Can't find main image")
   | Some _ =>
       modify (with_levels (map (set_level_size T c))) ;;;
       macro_images_loop T legacy_quickhash (images c) false ;;;
       check_quickhash_dir
   end)
    (mkSynth levels0 (-1) (set_prop "leica.barcode" (barcode c) osr) []).

(** ** The ImageDescription XML, as libxml2 and the XML helpers present it *)

(** What [_openslide_xml_parse_int_attr(node, name, &tmp_err)] gives for
    one attribute of one node: the integer, or the error it sets. *)
Inductive int_attr : Type :=
| IntAttr (v : Z)
| IntAttrError (e : GError).

(** A [d:dimension] element: its [z] attribute, if it has one, and its
    [ifd], [sizeX] and [sizeY] attributes. *)
Record dimension_node : Type := mkDimensionNode {
  dn_z : option string;
  dn_ifd : int_attr;
  dn_sizeX : int_attr;
  dn_sizeY : int_attr
}.

Record view_node : Type := mkViewNode {
  vn_sizeX : int_attr;
  vn_sizeY : int_attr;
  vn_offsetX : int_attr;
  vn_offsetY : int_attr
}.

(** A [d:image] element.  [in_dimensions] is the result of evaluating
    [d:pixels/d:dimension], [None] when the evaluation returns [NULL]. *)
Record image_node : Type := mkImageNode {
  in_view : option view_node;
  in_creationDate : option string;
  in_device_model : option string;
  in_device_version : option string;
  in_illuminationSource : option string;
  in_objective : option string;
  in_numericalAperture : option string;
  in_dimensions : option (list dimension_node)
}.

Record collection_node : Type := mkCollectionNode {
  cn_barcode : option string;
  cn_sizeX : int_attr;
  cn_sizeY : int_attr;
  cn_images : option (list image_node)
}.

Record xmlDoc : Type := mkXmlDoc {
  has_default_namespace_leica : bool;
  doc_collection : option collection_node
}.

(** ** g_ptr_array_sort and dimension_compare *)

Definition dimension_compare (da db : dimension) : Z :=
  if width da >? width db then -1
  else if width da =? width db then 0
  else 1.

Fixpoint sort_insert {A : Type} (compare : A -> A -> Z) (x : A) (l : list A)
    : list A :=
  match l with
  | [] => [x]
  | y :: l' =>
      if compare x y <=? 0 then x :: y :: l'
      else y :: sort_insert compare x l'
  end.

(** [g_ptr_array_sort] is GLib's.  GLib documents it as a stable sort
    since GLib 2.32 (a merge sort): elements the comparison function
    calls equal keep their order; the code base uses [g_autoptr] and
    [g_steal_pointer], so it builds against GLib 2.44 or later.  For a
    comparison that orders by a key the result of a stable sort does not
    depend on the algorithm, and it is written here as a straight
    insertion. *)
Definition g_ptr_array_sort {A : Type} (compare : A -> A -> Z) (l : list A)
    : list A :=
  foldr (sort_insert compare) [] l.

(** ** parse_xml_description *)

(** [PARSE_INT_ATTRIBUTE_OR_FAIL]: the value, or [goto FAIL] with the
    error. *)
Definition parse_int_attribute_or_fail {A : Type} (a : int_attr)
    (k : Z -> A + GError) : A + GError :=
  match a with
  | IntAttr v => k v
  | IntAttrError e => inr e
  end.

(** The loop that creates the dimension structs of one image (lines
    428-453); only the dimensions of z-plane 0 are taken. *)
Fixpoint parse_dimensions (image_clicks_across : Z)
    (nodes : list dimension_node) : list dimension + GError :=
  match nodes with
  | [] => inl []
  | node :: rest =>
      let skip :=
        match dn_z node with
        | Some z => negb (String.eqb z "0")
        | None => false
        end in
      if skip then parse_dimensions image_clicks_across rest
      else
        parse_int_attribute_or_fail (dn_ifd node) (fun d =>
        parse_int_attribute_or_fail (dn_sizeX node) (fun wd =>
        parse_int_attribute_or_fail (dn_sizeY node) (fun ht =>
          match parse_dimensions image_clicks_across rest with
          | inl dims =>
              inl (mkDimension d wd ht
                     (Double.div (Double.of_int64 image_clicks_across)
                                 (Double.of_int64 wd))
                   :: dims)
          | inr e => inr e
          end)))
  end.

(** One turn of the loop that creates the image structs (lines
    381-462). *)
Definition parse_image (collection_clicks_across collection_clicks_down : Z)
    (node : image_node) : image + GError :=
  match in_view node with
  | None => inr (BadData "Can't find view node")
  | Some view =>
      parse_int_attribute_or_fail (vn_sizeX view) (fun across =>
      parse_int_attribute_or_fail (vn_sizeY view) (fun down =>
      parse_int_attribute_or_fail (vn_offsetX view) (fun offset_x =>
      parse_int_attribute_or_fail (vn_offsetY view) (fun offset_y =>
        let macro :=
          (offset_x =? 0) && (offset_y =? 0) &&
          (across =? collection_clicks_across) &&
          (down =? collection_clicks_down) in
        match in_dimensions node with
        | None => inr (BadData "Can't find any dimensions in image")
        | Some nodes =>
            match parse_dimensions across nodes with
            | inr e => inr e
            | inl dims =>
                inl (mkImage (in_creationDate node) (in_device_model node)
                       (in_device_version node) (in_illuminationSource node)
                       (in_objective node) (in_numericalAperture node)
                       macro across down offset_x offset_y
                       (g_ptr_array_sort dimension_compare dims))
            end
        end))))
  end.

Fixpoint parse_images (collection_clicks_across collection_clicks_down : Z)
    (nodes : list image_node) : list image + GError :=
  match nodes with
  | [] => inl []
  | node :: rest =>
      match parse_image collection_clicks_across collection_clicks_down
                        node with
      | inr e => inr e
      | inl img =>
          match parse_images collection_clicks_across collection_clicks_down
                             rest with
          | inr e => inr e
          | inl imgs => inl (img :: imgs)
          end
      end
  end.

(** [parse_xml_description(xml, err)]; [xml_parse] is
    [_openslide_xml_parse].  The result is the collection, or the error
    set when the function returns [NULL]. *)
Definition parse_xml_description (xml_parse : string -> xmlDoc + GError)
    (xml : string) : collection + GError :=
  match xml_parse xml with
  | inr tmp_err =>
      inr (mkGError OPENSLIDE_ERROR_FORMAT_NOT_SUPPORTED (message tmp_err))
  | inl doc =>
      if negb (has_default_namespace_leica doc) then
        inr (mkGError OPENSLIDE_ERROR_FORMAT_NOT_SUPPORTED
                      "Unexpected XML namespace")
      else
        match doc_collection doc with
        | None => inr (BadData "Can't find collection element")
        | Some node =>
            parse_int_attribute_or_fail (cn_sizeX node) (fun across =>
            parse_int_attribute_or_fail (cn_sizeY node) (fun down =>
              match cn_images node with
              | None => inr (BadData "Can't find any images")
              | Some nodes =>
                  match parse_images across down nodes with
                  | inr e => inr e
                  | inl imgs =>
                      inl (mkCollection (cn_barcode node) across down imgs)
                  end
              end))
        end
  end.

(** ** paint_region *)

(** What a call of [paint_region] does to the world outside it, in the
    order in which it does it. *)
Inductive event : Type :=
| TiffcacheGet                              (* a handle leaves the pool *)
| TiffcachePut                              (* the handle goes back *)
| SetDirectory (d : Z)                      (* TIFFSetDirectory, tried *)
| GridPaintRegion (a : area) (ax ay : Z).   (* the grid paints, or tries *)

(** The collaborators of [paint_region].
    - [tiffcache_get]: [_openslide_tiffcache_get(data->tc, err)]; [Some e]
      when it returns [NULL] with error [e];
    - [tiff_set_directory]: [TIFFSetDirectory(tiff, dir)];
    - [grid_paint_region a ax ay w h]:
      [_openslide_grid_paint_region(area->grid, cr, &args, ax, ay, level,
      w, h, err)], [None] when it returns [true];
    - [paint_unspecified_int64]: the value of an out-of-range conversion
      of a [double] to [int64_t]. *)
Record paint_collaborators : Type := mkPaintCollaborators {
  tiffcache_get : option GError;
  tiff_set_directory : Z -> bool;
  grid_paint_region : area -> Z -> Z -> Z -> Z -> option GError;
  paint_unspecified_int64 : double -> Z
}.

(** [x / l->base.downsample - area->clicks_offset_x / l->clicks_per_pixel],
    computed in [double] and converted to [int64_t]. *)
Definition area_coordinate (P : paint_collaborators) (l : level)
    (x offset : Z) : Z :=
  Double.to_int64 (paint_unspecified_int64 P)
    (Double.sub
       (Double.div (Double.of_int64 x) (downsample (base l)))
       (Double.div (Double.of_int64 offset) (clicks_per_pixel l))).

(** The loop over the areas of the level (lines 220-244) from the area at
    hand on: the events of the loop and the value of [success] (with the
    error set) when it ends. *)
Fixpoint paint_areas (P : paint_collaborators) (l : level) (x y w h : Z)
    (todo : list area) : list event * outcome unit :=
  match todo with
  | [] => ([], Done tt)
  | a :: rest =>
      if tiff_set_directory P (tiffl_dir (tiffl a)) then
        let ax := area_coordinate P l x (clicks_offset_x a) in
        let ay := area_coordinate P l y (clicks_offset_y a) in
        match grid_paint_region P a ax ay w h with
        | Some e =>
            ([SetDirectory (tiffl_dir (tiffl a)); GridPaintRegion a ax ay],
             Failed e)
        | None =>
            let '(events, r) := paint_areas P l x y w h rest in
            (SetDirectory (tiffl_dir (tiffl a)) :: GridPaintRegion a ax ay
               :: events, r)
        end
      else
        ([SetDirectory (tiffl_dir (tiffl a))],
         Failed (BadData "Cannot set TIFF directory"))
  end.

(** [paint_region(osr, cr, x, y, level, w, h, err)]. *)
Definition paint_region (P : paint_collaborators) (x y : Z) (l : level)
    (w h : Z) : list event * outcome unit :=
  match tiffcache_get P with
  | Some e => ([], Failed e)
  | None =>
      let '(events, success) := paint_areas P l x y w h (areas l) in
      (TiffcacheGet :: events ++ [TiffcachePut], success)
  end.

(** The handles a sequence of events leaves outside the pool. *)
Fixpoint handles_out (events : list event) : Z :=
  match events with
  | [] => 0
  | TiffcacheGet :: rest => 1 + handles_out rest
  | TiffcachePut :: rest => handles_out rest - 1
  | _ :: rest => handles_out rest
  end.

(** The areas a sequence of events touches, in order: those whose
    directory was selected, and those handed to the grid. *)
Fixpoint directories_set (events : list event) : list Z :=
  match events with
  | [] => []
  | SetDirectory d :: rest => d :: directories_set rest
  | _ :: rest => directories_set rest
  end.

Fixpoint areas_painted (events : list event) : list area :=
  match events with
  | [] => []
  | GridPaintRegion a _ _ :: rest => a :: areas_painted rest
  | _ :: rest => areas_painted rest
  end.

(** What processing one area alone gives: [None] when its directory can
    be set and its grid paints. *)
Definition area_failure (P : paint_collaborators) (l : level) (x y w h : Z)
    (a : area) : option GError :=
  if tiff_set_directory P (tiffl_dir (tiffl a)) then
    grid_paint_region P a (area_coordinate P l x (clicks_offset_x a))
                      (area_coordinate P l y (clicks_offset_y a)) w h
  else Some (BadData "Cannot set TIFF directory").

(** ** _openslide_fsize *)

(** An open stdio stream on a file: the size of the file, the position
    of the stream, and what the operating system will answer to the
    calls to come: [None] lets a call succeed, [Some s] makes it fail
    with the [strerror] text [s]. *)
Record FILE : Type := mkFILE {
  file_size : Z;
  file_pos : Z;
  faults : list (option string)
}.

Record _openslide_file : Type := mkFile {
  fp : FILE;
  path : string
}.

Definition next_fault (f : FILE) : option string * FILE :=
  match faults f with
  | [] => (None, f)
  | o :: rest => (o, mkFILE (file_size f) (file_pos f) rest)
  end.

(** [ftello]: the position, or [-1]. *)
Definition ftello (f : FILE) : Z * option string * FILE :=
  match next_fault f with
  | (Some s, f') => (-1, Some s, f')
  | (None, f') => (file_pos f', None, f')
  end.

Inductive whence : Type := SEEK_SET | SEEK_END.

(** [fseeko]: zero when the position was set; the new position may not be
    negative.  A position beyond what an [off_t] holds is for the C
    library to refuse: the statements about seeks keep to files and
    targets an [off_t] can hold. *)
Definition fseeko (f : FILE) (offset : Z) (wh : whence)
    : Z * option string * FILE :=
  match next_fault f with
  | (Some s, f') => (-1, Some s, f')
  | (None, f') =>
      let target := match wh with
                    | SEEK_SET => offset
                    | SEEK_END => file_size f' + offset
                    end in
      if target <? 0 then (-1, Some "Invalid argument", f')
      else (0, None, mkFILE (file_size f') target (faults f'))
  end.

(** [io_error]: a [G_FILE_ERROR] whose message is the formatted text,
    a colon and the [strerror] text. *)
Definition io_error (msg errno_text : string) : GError :=
  mkGError G_FILE_ERROR (String.append msg (String.append ": " errno_text)).

Definition g_prefix_error (prefix : string) (err : option GError)
    : option GError :=
  match err with
  | Some e => Some (mkGError (code e) (String.append prefix (message e)))
  | None => None
  end.

Definition with_fp (file : _openslide_file) (f : FILE) : _openslide_file :=
  mkFile f (path file).

Definition _openslide_fseek (file : _openslide_file) (offset : Z)
    (wh : whence) : bool * option GError * _openslide_file :=
  match fseeko (fp file) offset wh with
  | (0, _, f') => (true, None, with_fp file f')
  | (_, s, f') =>
      (false,
       Some (io_error (String.append "Couldn't seek file " (path file))
                      (default EmptyString s)),
       with_fp file f')
  end.

Definition _openslide_ftell (file : _openslide_file)
    : Z * option GError * _openslide_file :=
  match ftello (fp file) with
  | (-1, s, f') =>
      (-1,
       Some (io_error (String.append "Couldn't get offset of " (path file))
                      (default EmptyString s)),
       with_fp file f')
  | (ret, _, f') => (ret, None, with_fp file f')
  end.

(** [_openslide_fsize(file, err)]: what it returns, the error it sets
    and the file it leaves. *)
Definition _openslide_fsize (file : _openslide_file)
    : Z * option GError * _openslide_file :=
  let '(orig, err, file1) := _openslide_ftell file in
  if orig =? -1 then
    (-1, g_prefix_error "Couldn't get size: " err, file1)
  else
    let '(ok, err, file2) := _openslide_fseek file1 0 SEEK_END in
    if negb ok then
      (-1, g_prefix_error "Couldn't get size: " err, file2)
    else
      let '(ret, err, file3) := _openslide_ftell file2 in
      if ret =? -1 then
        (-1, g_prefix_error "Couldn't get size: " err, file3)
      else
        let '(ok, err, file4) := _openslide_fseek file3 orig SEEK_SET in
        if negb ok then
          (-1, g_prefix_error "Couldn't get size: " err, file4)
        else (ret, None, file4).

(** An open stream is at a position that is not negative, in a file
    whose size is not negative. *)
Definition valid_file (file : _openslide_file) : Prop :=
  0 <= file_size (fp file) /\ 0 <= file_pos (fp file).

(** The answers of the operating system to the four calls
    [_openslide_fsize] makes. *)
Definition first_four_succeed (file : _openslide_file) : Prop :=
  Forall (fun o => o = None) (take 4 (faults (fp file))).

(** ** leica_open *)

(** The reader [leica_open] fills in: the fields of [openslide_t] it
    writes. *)
Record openslide_t : Type := mkOpenslide {
  osr_properties : gmap string string;
  osr_levels : list level;
  osr_level_count : Z;
  osr_associated_images : list (string * Z)
}.

Inductive resolution_tag : Type := TIFFTAG_XRESOLUTION | TIFFTAG_YRESOLUTION.

Definition RESUNIT_CENTIMETER : Z := 3.
Definition OPENSLIDE_PROPERTY_NAME_COMMENT : string := "openslide.comment".
Definition OPENSLIDE_PROPERTY_NAME_MPP_X : string := "openslide.mpp-x".
Definition OPENSLIDE_PROPERTY_NAME_MPP_Y : string := "openslide.mpp-y".

(** The collaborators of [leica_open], besides those of the synthesis.
    - [tiff_is_tiled]: [TIFFIsTiled(tiff)];
    - [tiff_image_description]: [TIFFGetField(tiff,
      TIFFTAG_IMAGEDESCRIPTION, &image_desc)], [None] when it returns 0;
    - [xml_parse]: [_openslide_xml_parse];
    - [init_properties_and_hash props quickhash_dir property_dir]:
      [_openslide_tiff_init_properties_and_hash], which gives the
      property table it has filled in, or an error;
    - [open_set_directory]: [TIFFSetDirectory];
    - [resolution_unit d]: [TIFFGetFieldDefaulted(tiff,
      TIFFTAG_RESOLUTIONUNIT, &unit)] in directory [d];
    - [resolution d tag]: [TIFFGetField(tiff, tag, &f)] in directory [d],
      the [float] widened to [double];
    - [format_double]: [_openslide_format_double]. *)
Record open_collaborators : Type := mkOpenCollaborators {
  synthesis : collaborators;
  tiff_is_tiled : bool;
  tiff_image_description : option string;
  xml_parse : string -> xmlDoc + GError;
  init_properties_and_hash :
    gmap string string -> Z -> Z -> gmap string string + GError;
  open_set_directory : Z -> bool;
  resolution_unit : Z -> option Z;
  resolution : Z -> resolution_tag -> option double;
  format_double : double -> string
}.

(** [set_resolution_prop(osr, tiff, property_name, tag)] for a reader
    that is not [NULL], the current directory being [d]. *)
Definition set_resolution_prop (O : open_collaborators) (d : Z)
    (property_name : string) (tag : resolution_tag)
    (props : gmap string string) : gmap string string :=
  match resolution_unit O d, resolution O d tag with
  | Some unit, Some f =>
      if unit =? RESUNIT_CENTIMETER then
        <[property_name :=
            format_double O (Double.div (Double.of_int64 10000) f)]> props
      else props
  | _, _ => props
  end.

(** [strstr(image_desc, LEICA_XMLNS)] as a condition. *)
Definition contains_leica_xmlns (image_desc : string) : bool :=
  match String.index 0 LEICA_XMLNS image_desc with
  | Some _ => true
  | None => false
  end.

(** [leica_open(osr, tc, tiff, quickhash1, err)].  [osr] is the property
    table of the reader, [None] for a [NULL] reader.  The result is the
    reader as the function leaves it ([None] for a [NULL] reader, of
    which nothing is kept), or the error. *)
Definition leica_open (O : open_collaborators)
    (osr : option (gmap string string)) : outcome (option openslide_t) :=
  if negb (tiff_is_tiled O) then
    Failed (mkGError OPENSLIDE_ERROR_FORMAT_NOT_SUPPORTED "TIFF is not tiled")
  else
    match tiff_image_description O with
    | None =>
        Failed (mkGError OPENSLIDE_ERROR_FORMAT_NOT_SUPPORTED
                         "Not a Leica slide")
    | Some image_desc =>
        if negb (contains_leica_xmlns image_desc) then
          Failed (mkGError OPENSLIDE_ERROR_FORMAT_NOT_SUPPORTED
                           "Not a Leica slide")
        else
          match parse_xml_description (xml_parse O) image_desc with
          | inr e => Failed e
          | inl c =>
              match create_levels_from_collection (synthesis O) osr c [] with
              | (_, Failed e) => Failed e
              | (_, Aborted) => Aborted
              | (_, Undefined) => Undefined
              | (st, Done _) =>
                  (* g_assert(level_count > 0) *)
                  match levels st with
                  | [] => Aborted
                  | level0 :: _ =>
                      match properties st with
                      | None => Done None
                      | Some props =>
                          match areas level0 with
                          | [] => Undefined
                          | property_area :: _ =>
                              let property_dir :=
                                tiffl_dir (tiffl property_area) in
                              match init_properties_and_hash O props
                                      (quickhash_dir st) property_dir with
                              | inr e => Failed e
                              | inl props =>
                                  let props :=
                                    delete "tiff.ImageDescription"
                                      (delete OPENSLIDE_PROPERTY_NAME_COMMENT
                                              props) in
                                  if open_set_directory O property_dir then
                                    Done (Some (mkOpenslide
                                      (set_resolution_prop O property_dir
                                         OPENSLIDE_PROPERTY_NAME_MPP_Y
                                         TIFFTAG_YRESOLUTION
                                         (set_resolution_prop O property_dir
                                            OPENSLIDE_PROPERTY_NAME_MPP_X
                                            TIFFTAG_XRESOLUTION props))
                                      (levels st)
                                      (Z.of_nat (length (levels st)))
                                      (associated_images st)))
                                  else Failed (BadData "Can't read directory")
                              end
                          end
                      end
                  end
              end
          end
    end.

(** The collection [leica_open] parses, when it gets that far. *)
Definition opened_collection (O : open_collaborators) : option collection :=
  match tiff_image_description O with
  | Some image_desc =>
      match parse_xml_description (xml_parse O) image_desc with
      | inl c => Some c
      | inr _ => None
      end
  | None => None
  end.

(** ** Vocabulary of the statements about parsing *)

(** Wider first: every dimension is at least as wide as those after it. *)
Definition descending_width (dims : list dimension) : Prop :=
  StronglySorted (fun a b => width a >= width b) dims.

Definition of_width (wd : Z) (d : dimension) : bool := width d =? wd.

(** [sorted] holds the elements of [manifest], wider first, and the
    dimensions of any one width are in it in the order they have in
    [manifest]. *)
Definition stably_sorted (manifest sorted : list dimension) : Prop :=
  Permutation manifest sorted /\
  descending_width sorted /\
  forall wd, List.filter (of_width wd) sorted
             = List.filter (of_width wd) manifest.

(** The [d:dimension] elements of z-plane 0. *)
Definition z_plane_0 (node : dimension_node) : bool :=
  match dn_z node with
  | Some z => String.eqb z "0"
  | None => true
  end.

(** [manifest] has one dimension for each element of z-plane 0, in the
    order of the elements, with the element's attributes. *)
Definition in_manifest_order (nodes : list dimension_node)
    (manifest : list dimension) : Prop :=
  Forall2 (fun node d => dn_ifd node = IntAttr (dir d) /\
                         dn_sizeX node = IntAttr (width d) /\
                         dn_sizeY node = IntAttr (height d))
          (List.filter z_plane_0 nodes) manifest.

(** The image nodes the parser walks, when it gets that far. *)
Definition image_nodes (xml_parse : string -> xmlDoc + GError) (xml : string)
    : list image_node :=
  match xml_parse xml with
  | inl doc =>
      match doc_collection doc with
      | Some node => default [] (cn_images node)
      | None => []
      end
  | inr _ => []
  end.

(** The dimensions of a parsed image against its [d:image] element: they
    are the dimensions of z-plane 0 of the element, sorted wider first
    with the manifest order kept among equal widths; of two dimensions,
    the earlier is at least as wide, and strictly wider when the widths
    differ. *)
Definition sorted_from_manifest (node : image_node) (img : image) : Prop :=
  exists nodes manifest,
    in_dimensions node = Some nodes /\
    in_manifest_order nodes manifest /\
    stably_sorted manifest (dimensions img) /\
    forall i j a b,
      dimensions img !! i = Some a -> dimensions img !! j = Some b ->
      (i < j)%nat ->
      width a >= width b /\ (width a <> width b -> width a > width b).

(** What a parsed image owes to its node and to the collection. *)
Definition image_of_node (across down : Z) (node : image_node) (img : image)
    : Prop :=
  is_macro img =
    ((img_clicks_offset_x img =? 0) && (img_clicks_offset_y img =? 0) &&
     (img_clicks_across img =? across) && (img_clicks_down img =? down)) /\
  exists nodes manifest,
    in_dimensions node = Some nodes /\
    parse_dimensions (img_clicks_across img) nodes = inl manifest /\
    dimensions img = g_ptr_array_sort dimension_compare manifest.

(** ** Vocabulary of the statements about painting *)

Definition pool_event (ev : event) : bool :=
  match ev with
  | TiffcacheGet | TiffcachePut => true
  | _ => false
  end.

(** How the loop over the areas went: the areas in [done] were painted,
    in this order; then either there was no area left, or the next area
    failed and nothing was done after it. *)
Definition stopped_at_first_failure (P : paint_collaborators) (l : level)
    (x y w h : Z) (todo : list area) (events : list event)
    (r : outcome unit) : Prop :=
  exists done rest,
    todo = done ++ rest /\
    Forall (fun a => area_failure P l x y w h a = None) done /\
    match rest with
    | [] =>
        r = Done tt /\
        directories_set events = map (fun a => tiffl_dir (tiffl a)) done /\
        areas_painted events = done
    | a :: _ =>
        exists e,
          area_failure P l x y w h a = Some e /\
          r = Failed e /\
          directories_set events
          = map (fun a => tiffl_dir (tiffl a)) (done ++ [a]) /\
          areas_painted events
          = done ++ (if tiff_set_directory P (tiffl_dir (tiffl a))
                     then [a] else []) /\
          (tiff_set_directory P (tiffl_dir (tiffl a)) = false ->
           e = BadData "Cannot set TIFF directory")
    end.

(** ** Vocabulary of the statements about click densities *)

(** [m] is a least element of [vals]: one of them, and not above any. *)
Definition is_minimum (m : double) (vals : list double) : Prop :=
  In m vals /\ Forall (fun v => Double.leb m v = true) vals.

Definition no_nan (vals : list double) : Prop :=
  Forall (fun v => Double.is_nan v = false) vals.

(** The place of a number in the order of the doubles: its class (the
    infinities outermost, the zeros in the middle), then its exponent
    and its mantissa, both counted downward for a negative number. *)
Definition order_key (x : double) : Z * Z * Z :=
  match x with
  | S754_zero _ => (0, 0, 0)
  | S754_infinity s => (if s then -2 else 2, 0, 0)
  | S754_nan => (0, 0, 0)
  | S754_finite s m e =>
      if s then (-1, - e, - Z.pos m) else (1, e, Z.pos m)
  end.

Definition key_le (a b : Z * Z * Z) : Prop :=
  let '(ra, ea, ma) := a in
  let '(rb, eb, mb) := b in
  ra < rb \/ (ra = rb /\ (ea < eb \/ (ea = eb /\ ma <= mb))).

Definition key_lt (a b : Z * Z * Z) : Prop :=
  let '(ra, ea, ma) := a in
  let '(rb, eb, mb) := b in
  ra < rb \/ (ra = rb /\ (ea < eb \/ (ea = eb /\ ma < mb))).

(** ** Vocabulary of the statements about level synthesis *)

(** The area made of dimension [d] of image [img] once the TIFF decoder
    has read the directory. *)
Definition area_of (T : collaborators) (img : image) (d : dimension) : area :=
  let t := match tiff_level_init T (dir d) with
           | inl t => t
           | inr _ => zero_tiffl
           end in
  mkArea t (Some (_openslide_grid_create_simple t))
         (img_clicks_offset_x img) (img_clicks_offset_y img).

(** The level the first main image makes of one of its dimensions. *)
Definition new_level (T : collaborators) (img : image) (d : dimension)
    : level :=
  mkLevel zero_base (dim_clicks_per_pixel d) [area_of T img d].

(** What a later main image does to the level of one of its
    dimensions. *)
Definition merge_level (T : collaborators) (img : image) (l : level)
    (d : dimension) : level :=
  mkLevel (base l)
          (Double.MIN (clicks_per_pixel l) (dim_clicks_per_pixel d))
          (areas l ++ [area_of T img d]).

Fixpoint merge_levels (T : collaborators) (img : image) (ls : list level)
    (dims : list dimension) : list level :=
  match ls, dims with
  | l :: ls', d :: dims' =>
      merge_level T img l d :: merge_levels T img ls' dims'
  | _, _ => ls
  end.

Definition merge_image (T : collaborators) (ls : list level) (img : image)
    : list level :=
  merge_levels T img ls (dimensions img).

(** The levels the loop over the main images builds from the images it
    keeps, [f] being the first of them. *)
Definition built_levels (T : collaborators) (f : image) (others : list image)
    : list level :=
  fold_left (merge_image T) others (map (new_level T f) (dimensions f)).

(** [img] passes the check of lines 565-573 against the first main image
    [f]. *)
Definition composable (f img : image) : Prop :=
  illumination_source img = illumination_source f /\
  objective img = objective f /\
  length (dimensions img) = length (dimensions f).

(** Every dimension of [img] passes the check of lines 596-607 against
    the dimension of [f] at the same place. *)
Definition consistent_resolutions (f img : image) : Prop :=
  Forall2 (fun d fd =>
             Double.ltb (resolution_similarity d fd) Double.c0_98 = false)
          (dimensions img) (dimensions f).

(** The main images level synthesis keeps, in the order of the
    collection. *)
Definition main_images (c : collection) : list image :=
  List.filter main_brightfield (images c).

Definition macro_images (c : collection) : list image :=
  List.filter macro_brightfield (images c).

(** The click density of dimension [k] of each image of [imgs]. *)
Definition densities_at (k : nat) (imgs : list image) (vals : list double)
    : Prop :=
  Forall2 (fun img v => exists d, dimensions img !! k = Some d /\
                                  v = dim_clicks_per_pixel d)
          imgs vals.

(** The state [create_levels_from_collection] starts from. *)
Definition initial_synth (osr : option (gmap string string)) (c : collection)
    (levels0 : list level) : synth :=
  mkSynth levels0 (-1) (set_prop "leica.barcode" (barcode c) osr) [].

Definition NO_QUICKHASH_DIR : GError :=
  BadData "Couldn't locate TIFF directory for quickhash".
Definition DISSIMILAR_MAIN_IMAGES : GError :=
  BadData "Slides with dissimilar main images are not supported".
Definition INCONSISTENT_RESOLUTIONS : GError :=
  BadData "Inconsistent main image resolutions".

Definition area_offsets (a : area) : Z * Z :=
  (clicks_offset_x a, clicks_offset_y a).

Definition image_offsets (img : image) : Z * Z :=
  (img_clicks_offset_x img, img_clicks_offset_y img).

(** [ceil(clicks / clicks_per_pixel)] as lines 666 and 667 compute it and
    store it in an [int64_t]. *)
Definition level_size (T : collaborators) (clicks : Z) (l : level) : Z :=
  Double.to_int64 (unspecified_int64 T)
    (Double.ceil (Double.div (Double.of_int64 clicks) (clicks_per_pixel l))).

(** ** Vocabulary of the statements about the resolution check *)

(** The errors the TIFF decoder sets are its own: none of them is the
    error of the resolution check. *)
Definition decoder_errors_are_its_own (T : collaborators) : Prop :=
  (forall d e, tiff_level_init T d = inr e ->
               e <> INCONSISTENT_RESOLUTIONS) /\
  (forall d e, tiff_add_associated_image T d = Some e ->
               e <> INCONSISTENT_RESOLUTIONS).

(** The resolution similarity of two click densities in exact
    arithmetic, on rationals: [1 - |cpp - first_cpp| / first_cpp]. *)
Definition exact_similarity (cpp first_cpp : QArith_base.Q)
    : QArith_base.Q :=
  QArith_base.Qminus (QArith_base.inject_Z 1)
    (QArith_base.Qdiv (Qabs.Qabs (QArith_base.Qminus cpp first_cpp))
                      first_cpp).

(** The quotient of two integers, exact. *)
Definition exact_quotient (a b : Z) : QArith_base.Q :=
  QArith_base.Qdiv (QArith_base.inject_Z a) (QArith_base.inject_Z b).

(** The click density of a dimension as the manifest gives it: the width
    of the image in clicks over the width of the dimension in pixels,
    not rounded. *)
Definition manifest_density (img : image) (d : dimension) : QArith_base.Q :=
  exact_quotient (img_clicks_across img) (width d).

(** The number a finite [double] stands for. *)
Definition exact_value (x : double) : option QArith_base.Q :=
  match x with
  | S754_zero _ => Some (QArith_base.inject_Z 0)
  | S754_finite s m e =>
      Some (QArith_base.Qmult
              (QArith_base.inject_Z (if s then Z.neg m else Z.pos m))
              (QArith_base.Qpower (QArith_base.inject_Z 2) e))
  | _ => None
  end.

(** ** Sample slides *)

Module Samples.

(** A TIFF whose directories are all tiled 256 by 256 and JPEG-compressed
    (compression 7), with the JPEG codec configured. *)
Definition sample_tiff : collaborators :=
  mkCollaborators
    (fun d => inl (mkTiffLevel d 1000 800 256 256 4 4))
    (fun _ => Some 7)
    (fun compression => compression =? 7)
    (fun _ => None)
    (fun props _ _ => props)
    (fun _ => - 2 ^ 63)
    32.

(** The same TIFF, but directory 1 cannot be read. *)
Definition broken_tiff : collaborators :=
  mkCollaborators
    (fun d => if d =? 1
              then inr (BadData "Cannot set TIFF directory")
              else inl (mkTiffLevel d 1000 800 256 256 4 4))
    (fun _ => Some 7)
    (fun compression => compression =? 7)
    (fun _ => None)
    (fun props _ _ => props)
    (fun _ => - 2 ^ 63)
    32.

Definition dim_node (ifd sizeX sizeY : Z) : dimension_node :=
  mkDimensionNode None (IntAttr ifd) (IntAttr sizeX) (IntAttr sizeY).

Definition img_node (illumination obj : option string)
    (sizeX sizeY offsetX offsetY : Z) (dims : list dimension_node)
    : image_node :=
  mkImageNode
    (Some (mkViewNode (IntAttr sizeX) (IntAttr sizeY)
                      (IntAttr offsetX) (IntAttr offsetY)))
    None None None illumination obj None (Some dims).

Definition doc_of (sizeX sizeY : Z) (imgs : list image_node) : xmlDoc :=
  mkXmlDoc true
    (Some (mkCollectionNode None (IntAttr sizeX) (IntAttr sizeY) (Some imgs))).

(** The ImageDescription of the sample slides, as far as [leica_open]
    looks at it itself. *)
Definition sample_image_description : string :=
  String.append "<scn xmlns=" LEICA_XMLNS.

Definition parse (doc : xmlDoc) : collection + GError :=
  parse_xml_description (fun _ => inl doc) sample_image_description.

Definition collection_of (doc : xmlDoc) : collection :=
  match parse doc with
  | inl c => c
  | inr _ => mkCollection None 0 0 []
  end.

Definition bf : option string := Some "brightfield".
Definition x20 : option string := Some "20".

(** One brightfield main image, no macro image. *)
Definition single_main_doc : xmlDoc :=
  doc_of 100000 80000
    [img_node bf x20 90000 80000 10000 0
       [dim_node 2 450 400; dim_node 1 900 800]].

(** One brightfield main image and a brightfield macro image. *)
Definition main_and_macro_doc : xmlDoc :=
  doc_of 100000 80000
    [img_node bf x20 100000 80000 0 0 [dim_node 10 200 160];
     img_node bf x20 90000 80000 10000 0
       [dim_node 1 900 800; dim_node 2 450 400]].

(** Two brightfield main images side by side and a macro image. *)
Definition two_mains_doc : xmlDoc :=
  doc_of 200000 100000
    [img_node bf x20 100000 100000 0 0
       [dim_node 1 1000 1000; dim_node 2 500 500];
     img_node bf x20 100000 100000 100000 0
       [dim_node 3 1000 1000; dim_node 4 500 500];
     img_node bf x20 200000 100000 0 0
       [dim_node 10 400 200; dim_node 11 200 100]].

(** Two dimensions of the same width, in this order in the manifest. *)
Definition tied_widths_doc : xmlDoc :=
  doc_of 100000 80000
    [img_node bf x20 90000 80000 10000 0
       [dim_node 1 450 400; dim_node 2 900 800; dim_node 3 450 401]].

(** A brightfield main image and a main image that is not
    brightfield. *)
Definition fluorescence_doc : xmlDoc :=
  doc_of 200000 100000
    [img_node bf x20 100000 100000 0 0 [dim_node 1 1000 1000];
     img_node (Some "fluorescence") x20 100000 100000 100000 0
       [dim_node 3 1000 1000]].

(** Two main images whose objectives differ. *)
Definition dissimilar_doc : xmlDoc :=
  doc_of 200000 100000
    [img_node bf x20 100000 100000 0 0
       [dim_node 1 1000 1000; dim_node 2 500 500];
     img_node bf (Some "40") 100000 100000 100000 0
       [dim_node 3 1000 1000; dim_node 4 500 500]].

(** Two brightfield main images: the first has objective "20" and two
    dimensions, the second has one dimension and no objective in the
    manifest. *)
Definition missing_objective_doc : xmlDoc :=
  doc_of 200000 100000
    [img_node bf x20 100000 100000 0 0
       [dim_node 1 1000 1000; dim_node 2 500 500];
     img_node bf None 100000 100000 100000 0 [dim_node 3 1000 1000]].

(** Two main images whose click densities are 100 and 98. *)
Definition boundary_doc : xmlDoc :=
  doc_of 200000 100000
    [img_node bf x20 100000 100000 0 0 [dim_node 1 1000 1000];
     img_node bf x20 98000 100000 100000 0 [dim_node 3 1000 1020];
     img_node bf x20 200000 100000 0 0 [dim_node 10 400 200]].

(** Two main images whose click densities are 100 and 97. *)
Definition inconsistent_doc : xmlDoc :=
  doc_of 200000 100000
    [img_node bf x20 100000 100000 0 0 [dim_node 1 1000 1000];
     img_node bf x20 97000 100000 100000 0 [dim_node 3 1000 1020];
     img_node bf x20 200000 100000 0 0 [dim_node 10 400 200]].

(** A main image placed beyond the right edge of the collection and
    above its top edge. *)
Definition out_of_canvas_doc : xmlDoc :=
  doc_of 100000 80000
    [img_node bf x20 90000 80000 150000 (-7)
       [dim_node 1 900 800; dim_node 2 450 400]].

(** Three main images; the second has a view of width 0 and a dimension
    of width 0, so that its click density is 0/0. *)
Definition zero_width_doc : xmlDoc :=
  doc_of 300000 100000
    [img_node bf x20 100000 100000 0 0 [dim_node 1 1000 1000];
     img_node bf x20 0 100000 100000 0 [dim_node 2 0 1000];
     img_node bf x20 101000 100000 200000 0 [dim_node 3 1000 1000];
     img_node bf x20 300000 100000 0 0 [dim_node 10 300 100]].

(** A slide whose ImageDescription parses to [doc], in [sample_tiff]. *)
Definition sample_slide (doc : xmlDoc) : open_collaborators :=
  mkOpenCollaborators sample_tiff true (Some sample_image_description)
    (fun _ => inl doc)
    (fun props _ _ => inl props)
    (fun _ => true)
    (fun _ => None)
    (fun _ _ => None)
    (fun _ => EmptyString).

Definition sample_area (d : Z) (offset_x : Z) : area :=
  mkArea (mkTiffLevel d 1000 800 256 256 4 4)
         (Some (mkGrid 4 4 256 256)) offset_x 0.

Definition no_image : image :=
  mkImage None None None None None None false 0 0 0 0 [].

Definition image_at (doc : xmlDoc) (n : nat) : image :=
  nth n (images (collection_of doc)) no_image.

Definition dimension_at (doc : xmlDoc) (n k : nat) : dimension :=
  nth k (dimensions (image_at doc n)) (mkDimension 0 0 0 S754_nan).

(** The state of the synthesis once the first image of [boundary_doc]
    has made its level. *)
Definition after_first_image : synth :=
  mkSynth [mkLevel zero_base (Double.of_int64 100) [sample_area 1 0]]
          (-1) None [].

Definition synthesize (doc : xmlDoc) : synth * outcome unit :=
  create_levels_from_collection sample_tiff None (collection_of doc) [].

(** A level with three areas, and a painter whose grid fails on
    directory 3. *)
Definition sample_level : level :=
  mkLevel (mkBase Double.one 2000 1000) (Double.of_int64 100)
          [sample_area 1 0; sample_area 3 100000; sample_area 5 150000].

Definition sample_painter : paint_collaborators :=
  mkPaintCollaborators None (fun _ => true)
    (fun a _ _ _ _ =>
       if tiffl_dir (tiffl a) =? 3
       then Some (mkGError OPENSLIDE_ERROR_FAILED "Cannot read tile")
       else None)
    (fun _ => - 2 ^ 63).

(** A file of 4096 bytes read up to byte 100. *)
Definition sample_file : _openslide_file :=
  mkFile (mkFILE 4096 100 []) "slide.scn".

End Samples.


(** ** More vocabulary for level synthesis *)

(** The TIFF decoder can set up directory [dir d] and a codec is
    configured for its compression: the three conditions of lines
    616-638. *)
Definition readable (T : collaborators) (d : dimension) : Prop :=
  exists t compression,
    tiff_level_init T (dir d) = inl t /\
    tiff_get_compression T (dir d) = Some compression /\
    tiff_codec_configured T compression = true.

(** The area of image [img] in level [k]: backed by the directory of
    dimension [k] of the image, with a grid of the tile geometry of that
    directory, at the offsets of the image. *)
Definition area_backed_by (T : collaborators) (k : nat) (img : image)
    (a : area) : Prop :=
  exists d t,
    dimensions img !! k = Some d /\
    tiff_level_init T (dir d) = inl t /\
    a = mkArea t (Some (_openslide_grid_create_simple t))
               (img_clicks_offset_x img) (img_clicks_offset_y img).

Definition NO_MAIN_IMAGE : GError := BadData "Can't find main image".

(** ** read_tile *)

(** What a call of [read_tile] does to the world outside it, in the
    order in which it does it.  The byte counts of [SliceAlloc],
    [SliceFree] and [CachePut] are the value of [tw * th * 4] as the
    function computes it, in [int64_t], and passes it.  [CairoPaint] has
    the width, height and stride [cairo_image_surface_create_for_data]
    receives: its three parameters are [int]. *)
Inductive tile_event : Type :=
| CacheGet (a : area) (tile_col tile_row : Z)
| SliceAlloc (size : Z)
| SliceFree (size : Z)
| TiffReadTile (t : _openslide_tiff_level) (tile_col tile_row : Z)
| TiffClipTile (t : _openslide_tiff_level) (tile_col tile_row : Z)
| CachePut (a : area) (tile_col tile_row : Z) (size : Z)
| CairoPaint (tw th stride : Z)    (* the surface made, set, destroyed
                                      and painted *)
| CacheEntryUnref.

(** The collaborators of [read_tile].
    - [cache_get a col row]: whether [_openslide_cache_get] finds the
      tile;
    - [slice_alloc size]: whether [g_slice_alloc] returns (GLib ends the
      program when it cannot allocate);
    - [tiff_read_tile], [tiff_clip_tile]: [_openslide_tiff_read_tile] and
      [_openslide_tiff_clip_tile], [None] when they return [true];
    - [implementation_int]: the value of the conversion to [int] of an
      [int64_t] that is not in the range of [int], which the
      implementation defines. *)
Record tile_collaborators : Type := mkTileCollaborators {
  cache_get : area -> Z -> Z -> bool;
  slice_alloc : Z -> bool;
  tiff_read_tile : _openslide_tiff_level -> Z -> Z -> option GError;
  tiff_clip_tile : _openslide_tiff_level -> Z -> Z -> option GError;
  implementation_int : Z -> Z
}.

Definition in_int (z : Z) : bool := (- 2 ^ 31 <=? z) && (z <? 2 ^ 31).

(** [(int) z] for an [int64_t]: the value when it is in the range of
    [int], what the implementation defines otherwise. *)
Definition to_int (R : tile_collaborators) (z : Z) : Z :=
  if in_int z then z else implementation_int R z.

(** [a * b] in [int64_t]; an overflow is not defined by C. *)
Definition int64_mul (a b : Z) : option Z :=
  if Double.in_int64 (a * b) then Some (a * b) else None.

(** [tw * th * 4] *)
Definition tile_bytes (tw th : Z) : option Z :=
  match int64_mul tw th with
  | Some n => int64_mul n 4
  | None => None
  end.

(** Lines 191-203: the tile is drawn and the cache entry released. *)
Definition draw_tile (R : tile_collaborators) (tw th : Z)
    (events : list tile_event) : list tile_event * outcome unit :=
  match int64_mul tw 4 with
  | None => (events, Undefined)
  | Some stride =>
      (events ++ [CairoPaint (to_int R tw) (to_int R th) (to_int R stride);
                  CacheEntryUnref],
       Done tt)
  end.

(** [read_tile(osr, cr, level, tile_col, tile_row, arg, err)], [a] being
    [args->area]. *)
Definition read_tile (R : tile_collaborators) (a : area)
    (tile_col tile_row : Z) : list tile_event * outcome unit :=
  let t := tiffl a in
  let tw := tile_w t in
  let th := tile_h t in
  if cache_get R a tile_col tile_row then
    draw_tile R tw th [CacheGet a tile_col tile_row]
  else
    match tile_bytes tw th with
    | None => ([CacheGet a tile_col tile_row], Undefined)
    | Some size =>
        if negb (slice_alloc R size) then
          ([CacheGet a tile_col tile_row], Aborted)
        else
          match tiff_read_tile R t tile_col tile_row with
          | Some e =>
              ([CacheGet a tile_col tile_row; SliceAlloc size;
                TiffReadTile t tile_col tile_row; SliceFree size],
               Failed e)
          | None =>
              match tiff_clip_tile R t tile_col tile_row with
              | Some e =>
                  ([CacheGet a tile_col tile_row; SliceAlloc size;
                    TiffReadTile t tile_col tile_row;
                    TiffClipTile t tile_col tile_row; SliceFree size],
                   Failed e)
              | None =>
                  draw_tile R tw th
                    [CacheGet a tile_col tile_row; SliceAlloc size;
                     TiffReadTile t tile_col tile_row;
                     TiffClipTile t tile_col tile_row;
                     CachePut a tile_col tile_row size]
              end
          end
    end.

(** The sizes of the buffers a sequence of events allocates, frees and
    hands to the cache. *)
Definition allocated (events : list tile_event) : list Z :=
  omap (fun ev => match ev with SliceAlloc n => Some n | _ => None end)
       events.

Definition freed (events : list tile_event) : list Z :=
  omap (fun ev => match ev with SliceFree n => Some n | _ => None end)
       events.

Definition cached (events : list tile_event) : list Z :=
  omap (fun ev => match ev with CachePut _ _ _ n => Some n | _ => None end)
       events.

Definition paints (events : list tile_event) : list (Z * Z * Z) :=
  omap (fun ev => match ev with
                  | CairoPaint tw th stride => Some (tw, th, stride)
                  | _ => None
                  end)
       events.

Definition unrefs (events : list tile_event) : nat :=
  length (List.filter (fun ev => match ev with
                                 | CacheEntryUnref => true
                                 | _ => false
                                 end)
                      events).

(** Whether the events touch the TIFF. *)
Definition reads_tiff (events : list tile_event) : bool :=
  existsb (fun ev => match ev with
                     | TiffReadTile _ _ _ | TiffClipTile _ _ _ => true
                     | _ => false
                     end)
          events.

(** What fetching the tile from the TIFF gives after a cache miss:
    [None] when the tile is read and clipped. *)
Definition fetch_failure (R : tile_collaborators) (a : area)
    (tile_col tile_row : Z) : option GError :=
  match tiff_read_tile R (tiffl a) tile_col tile_row with
  | Some e => Some e
  | None => tiff_clip_tile R (tiffl a) tile_col tile_row
  end.

(** ** _openslide_fread and _openslide_fread_exact *)

(** What the C library answers to one call of [fread]: it delivers at
    most [n] bytes, and with [DeliverThenError] it sets the error
    indicator of the stream as well. *)
Inductive read_answer : Type :=
| Deliver (n : Z)
| DeliverThenError (n : Z).

(** A stdio stream as the reading functions see it: the bytes of the
    file from the position of the stream on, the error indicator, and the
    answers of the C library to the calls of [fread] to come.  When the
    answers have run out a call delivers all it is asked for, as far as
    the file goes. *)
Record stream : Type := mkStream {
  unread : list Byte.byte;
  error_indicator : bool;
  answers : list read_answer
}.

(** [fread(ptr, 1, n, fp)]: the bytes stored and the stream left. *)
Definition fread (s : stream) (n : Z) : list Byte.byte * stream :=
  match answers s with
  | [] =>
      (take (Z.to_nat n) (unread s),
       mkStream (drop (Z.to_nat n) (unread s)) (error_indicator s) [])
  | Deliver k :: rest =>
      (take (Z.to_nat (Z.min n k)) (unread s),
       mkStream (drop (Z.to_nat (Z.min n k)) (unread s))
                (error_indicator s) rest)
  | DeliverThenError k :: rest =>
      (take (Z.to_nat (Z.min n k)) (unread s),
       mkStream (drop (Z.to_nat (Z.min n k)) (unread s)) true rest)
  end.

(** The loop of lines 123-129: [buf] holds the [total] bytes stored so
    far.  [None] when the turns run out. *)
Fixpoint fread_loop (turns : nat) (s : stream) (size total : Z)
    (buf : list Byte.byte) : option (Z * list Byte.byte * stream) :=
  if total <? size then
    match turns with
    | O => None
    | S turns' =>
        let '(got, s') := fread s (size - total) in
        let count := Z.of_nat (length got) in
        if count =? 0 then Some (total, buf, s')
        else fread_loop turns' s' size (total + count) (buf ++ got)
    end
  else Some (total, buf, s).

Definition READ_ERROR (path : string) : GError :=
  mkGError G_FILE_ERROR (String.append "I/O error reading file " path).

(** [_openslide_fread(file, buf, size, err)]: the count returned, the
    bytes stored in [buf], the error set, and the stream left.  Every
    turn of the loop but the last stores at least one byte, so [size]
    turns are enough. *)
Definition _openslide_fread (path : string) (s : stream) (size : Z)
    : option (Z * list Byte.byte * option GError * stream) :=
  match fread_loop (Z.to_nat size) s size 0 [] with
  | Some (total, buf, s') =>
      Some (total, buf,
            if (total =? 0) && error_indicator s'
            then Some (READ_ERROR path) else None,
            s')
  | None => None
  end.

Definition SHORT_READ (path : string) (count size : Z) : GError :=
  mkGError OPENSLIDE_ERROR_FAILED
    (String.append "Short read of file "
       (String.append path
          (String.append ": "
             (String.append (pretty count)
                (String.append " < " (pretty size)))))).

(** [_openslide_fread_exact(file, buf, size, err)]. *)
Definition _openslide_fread_exact (path : string) (s : stream) (size : Z)
    : option (bool * list Byte.byte * option GError * stream) :=
  match _openslide_fread path s size with
  | Some (count, buf, Some tmp_err, s') => Some (false, buf, Some tmp_err, s')
  | Some (count, buf, None, s') =>
      if count <? size then
        Some (false, buf, Some (SHORT_READ path count size), s')
      else Some (true, buf, None, s')
  | None => None
  end.

(** The C library delivers at least one byte at every call, short of
    the end of the file, and meets no error. *)
Definition delivering (s : stream) : Prop :=
  Forall (fun a => exists k, a = Deliver k /\ 1 <= k) (answers s).

(** ** _openslide_fopen (where [_WIN32] is not defined) *)

(** What a call of [_openslide_fopen] asks of the C library, in order;
    [Fopen] notes whether a stream was opened, [Fclose] is the cleanup
    [g_autoptr(FILE)] runs when the function is left with the stream
    still in [f]. *)
Inductive open_event : Type :=
| Fopen (path mode : string) (opened : bool)
| Fileno
| FcntlGetfd (fd : Z)
| FcntlSetfd (fd flags : Z)
| Fclose.

Definition FD_CLOEXEC : Z := 1.

(** The build and the C library, for one call.
    - [FOPEN_CLOEXEC_FLAG]: the macro of that name, a mode letter that
      asks for close-on-exec or the empty string;
    - [sys_fopen path mode]: the stream, or the [strerror] text of the
      failure;
    - [sys_fileno]: the descriptor of the stream, [-1] on failure;
    - [sys_getfd fd]: [fcntl(fd, F_GETFD)];
    - [sys_setfd fd flags]: [fcntl(fd, F_SETFD, flags)];
    - [sys_strerror ev]: the [strerror] text of [errno] after the call
      [ev] has failed. *)
Record open_system : Type := mkOpenSystem {
  FOPEN_CLOEXEC_FLAG : string;
  sys_fopen : string -> string -> FILE + string;
  sys_fileno : Z;
  sys_getfd : Z -> Z;
  sys_setfd : Z -> Z -> Z;
  sys_strerror : open_event -> string
}.

(** [_openslide_fopen(path, err)]: the calls made, and the file
    returned or the error set. *)
Definition _openslide_fopen (sys : open_system) (path : string)
    : list open_event * (_openslide_file + GError) :=
  let mode := String.append "rb" (FOPEN_CLOEXEC_FLAG sys) in
  match sys_fopen sys path mode with
  | inr errno_text =>
      ([Fopen path mode false],
       inr (io_error (String.append "Couldn't open " path) errno_text))
  | inl f =>
      match FOPEN_CLOEXEC_FLAG sys with
      | String _ _ => ([Fopen path mode true], inl (mkFile f path))
      | EmptyString =>
          let fd := sys_fileno sys in
          if fd =? -1 then
            ([Fopen path mode true; Fileno; Fclose],
             inr (io_error (String.append "Couldn't fileno() " path)
                           (sys_strerror sys Fileno)))
          else
            let flags := sys_getfd sys fd in
            if flags =? -1 then
              ([Fopen path mode true; Fileno; FcntlGetfd fd; Fclose],
               inr (io_error (String.append "Couldn't F_GETFD " path)
                             (sys_strerror sys (FcntlGetfd fd))))
            else if negb (sys_setfd sys fd (Z.lor flags FD_CLOEXEC) =? 0) then
              ([Fopen path mode true; Fileno; FcntlGetfd fd;
                FcntlSetfd fd (Z.lor flags FD_CLOEXEC); Fclose],
               inr (io_error (String.append "Couldn't F_SETFD " path)
                             (sys_strerror sys
                                (FcntlSetfd fd (Z.lor flags FD_CLOEXEC)))))
            else
              ([Fopen path mode true; Fileno; FcntlGetfd fd;
                FcntlSetfd fd (Z.lor flags FD_CLOEXEC)],
               inl (mkFile f path))
      end
  end.

(** The streams a sequence of events leaves open. *)
Fixpoint streams_open (events : list open_event) : Z :=
  match events with
  | [] => 0
  | Fopen _ _ true :: rest => 1 + streams_open rest
  | Fclose :: rest => streams_open rest - 1
  | _ :: rest => streams_open rest
  end.

(** The descriptor flags the events have set, if they have set any. *)
Definition flags_set (events : list open_event) : list (Z * Z) :=
  omap (fun ev => match ev with
                  | FcntlSetfd fd flags => Some (fd, flags)
                  | _ => None
                  end)
       events.

(** ** More vocabulary for parsing *)

(** What evaluating an XPath expression gives for a list of matching
    nodes: [NULL] when none matches. *)
Definition xpath_result {A : Type} (nodes : list A) : option (list A) :=
  match nodes with
  | [] => None
  | _ => Some nodes
  end.

(** A [d:image] element without its [d:dimension] elements of z-planes
    other than 0, and a document without them. *)
Definition image_node_z0 (node : image_node) : image_node :=
  mkImageNode (in_view node) (in_creationDate node) (in_device_model node)
    (in_device_version node) (in_illuminationSource node)
    (in_objective node) (in_numericalAperture node)
    (match in_dimensions node with
     | Some nodes => xpath_result (List.filter z_plane_0 nodes)
     | None => None
     end).

(** The images of the document have each a [d:dimension] element of
    z-plane 0, if they have any [d:dimension] element. *)
Definition has_z_plane_0 (node : image_node) : Prop :=
  forall nodes,
    in_dimensions node = Some nodes -> List.filter z_plane_0 nodes <> [].

Definition images_have_z_plane_0 (doc : xmlDoc) : Prop :=
  forall node nodes,
    doc_collection doc = Some node -> cn_images node = Some nodes ->
    Forall has_z_plane_0 nodes.

Definition collection_node_z0 (node : collection_node) : collection_node :=
  mkCollectionNode (cn_barcode node) (cn_sizeX node) (cn_sizeY node)
    (map image_node_z0 <$> cn_images node).

Definition doc_z0 (doc : xmlDoc) : xmlDoc :=
  mkXmlDoc (has_default_namespace_leica doc)
           (collection_node_z0 <$> doc_collection doc).

(** [img] holds the texts of the [d:image] element [node] and the four
    attributes of its [d:view], and has one dimension for each
    [d:dimension] of z-plane 0; each dimension has the click density of
    the image at its width. *)
Definition image_mirrors_node (node : image_node) (img : image) : Prop :=
  creation_date img = in_creationDate node /\
  device_model img = in_device_model node /\
  device_version img = in_device_version node /\
  illumination_source img = in_illuminationSource node /\
  objective img = in_objective node /\
  aperture img = in_numericalAperture node /\
  (exists view,
     in_view node = Some view /\
     vn_sizeX view = IntAttr (img_clicks_across img) /\
     vn_sizeY view = IntAttr (img_clicks_down img) /\
     vn_offsetX view = IntAttr (img_clicks_offset_x img) /\
     vn_offsetY view = IntAttr (img_clicks_offset_y img)) /\
  (exists nodes,
     in_dimensions node = Some nodes /\
     length (dimensions img) = length (List.filter z_plane_0 nodes)) /\
  Forall (fun d => dim_clicks_per_pixel d
                   = Double.div (Double.of_int64 (img_clicks_across img))
                                (Double.of_int64 (width d)))
         (dimensions img).

(** [c] holds what the [d:collection] element of the document says, and
    one image for each of its [d:image] elements, in their order. *)
Definition collection_mirrors_doc (doc : xmlDoc) (c : collection) : Prop :=
  has_default_namespace_leica doc = true /\
  exists node nodes,
    doc_collection doc = Some node /\
    barcode c = cn_barcode node /\
    cn_sizeX node = IntAttr (clicks_across c) /\
    cn_sizeY node = IntAttr (clicks_down c) /\
    cn_images node = Some nodes /\
    Forall2 image_mirrors_node nodes (images c).

(** ** Vocabulary: what the synthesis does not look at *)

(** Two states of the synthesis that differ at most in the property
    table. *)
Definition same_but_properties (st st' : synth) : Prop :=
  levels st = levels st' /\
  quickhash_dir st = quickhash_dir st' /\
  associated_images st = associated_images st'.

(** A computation that neither reads the property table nor lets it
    decide anything: from two states that differ at most in the table it
    gives the same result, and states that differ at most in the
    table. *)
Definition oblivious {A : Type} (m : Synth A) : Prop :=
  forall st st',
    same_but_properties st st' ->
    same_but_properties (fst (m st)) (fst (m st')) /\
    snd (m st) = snd (m st').

(** ** Vocabulary of the statements about leica_open *)

(** [leica_open] gets as far as level synthesis, with collection [c]:
    the TIFF is tiled, its ImageDescription has the Leica namespace in it
    and parses to [c]. *)
Definition reaches_synthesis (O : open_collaborators) (c : collection)
    : Prop :=
  tiff_is_tiled O = true /\
  exists image_desc,
    tiff_image_description O = Some image_desc /\
    contains_leica_xmlns image_desc = true /\
    parse_xml_description (xml_parse O) image_desc = inl c.

(** The TIFF is not a Leica slide as far as the checks before level
    synthesis see: it is not tiled, has no ImageDescription, has one
    without the Leica namespace in it, or has one that is not XML or
    whose default namespace is another. *)
Definition not_leica (O : open_collaborators) : Prop :=
  tiff_is_tiled O = false \/
  match tiff_image_description O with
  | None => True
  | Some image_desc =>
      contains_leica_xmlns image_desc = false \/
      match xml_parse O image_desc with
      | inr _ => True
      | inl doc => has_default_namespace_leica doc = false
      end
  end.

(** The area [leica_open] takes the properties from:
    [levels[0]->areas->pdata[0]]. *)
Definition property_area_of (reader : openslide_t) : option area :=
  match osr_levels reader with
  | level0 :: _ => head (areas level0)
  | [] => None
  end.

(** ** Vocabulary of the statements about _openslide_fsize *)

(** The text [_openslide_fsize] puts before the [strerror] text when the
    call of the given rank (from 0) fails: the calls are a tell, a seek,
    a tell and a seek. *)
Definition fsize_failure_message (rank : nat) (p : string) : string :=
  String.append "Couldn't get size: "
    (String.append (if Nat.even rank then "Couldn't get offset of "
                    else "Couldn't seek file ") p).

(** ** More sample slides *)

Module MoreSamples.

(** Two main images 2100 and 2058 clicks wide, each with one dimension
    1000 pixels wide: the click densities of the manifest are 2.1 and
    2.058, whose similarity is 0.98. *)
Definition rounded_below_doc : xmlDoc :=
  Samples.doc_of 5000 2000
    [Samples.img_node Samples.bf Samples.x20 2100 2000 0 0
       [Samples.dim_node 1 1000 1000];
     Samples.img_node Samples.bf Samples.x20 2058 2000 2100 0
       [Samples.dim_node 2 1000 1000]].

(** The same two main images with dimensions 7000 pixels wide, and a
    macro image. *)
Definition rounded_above_doc : xmlDoc :=
  Samples.doc_of 5000 2000
    [Samples.img_node Samples.bf Samples.x20 2100 2000 0 0
       [Samples.dim_node 1 7000 7000];
     Samples.img_node Samples.bf Samples.x20 2058 2000 2100 0
       [Samples.dim_node 2 7000 7000];
     Samples.img_node Samples.bf Samples.x20 5000 2000 0 0
       [Samples.dim_node 10 500 200]].

(** A macro image and a fluorescence image: nothing level synthesis
    keeps as a main image. *)
Definition macro_only_doc : xmlDoc :=
  Samples.doc_of 100000 80000
    [Samples.img_node Samples.bf Samples.x20 100000 80000 0 0
       [Samples.dim_node 10 200 160];
     Samples.img_node (Some "fluorescence") Samples.x20 90000 80000 10000 0
       [Samples.dim_node 1 900 800]].

(** Two main images whose [d:dimension] elements are all of z-plane 1,
    and a macro image. *)
Definition other_plane_node (ifd sizeX sizeY : Z) : dimension_node :=
  mkDimensionNode (Some "1") (IntAttr ifd) (IntAttr sizeX) (IntAttr sizeY).

Definition no_dimension_doc : xmlDoc :=
  Samples.doc_of 200000 100000
    [Samples.img_node Samples.bf Samples.x20 100000 100000 0 0
       [other_plane_node 1 1000 1000];
     Samples.img_node Samples.bf Samples.x20 100000 100000 100000 0
       [other_plane_node 3 1000 1000];
     Samples.img_node Samples.bf Samples.x20 200000 100000 0 0
       [Samples.dim_node 10 400 200]].

(** A main image with a dimension of z-plane 1 whose attributes cannot
    be parsed, and a macro image. *)
Definition malformed_plane_doc : xmlDoc :=
  Samples.doc_of 100000 80000
    [Samples.img_node Samples.bf Samples.x20 100000 80000 0 0
       [Samples.dim_node 10 200 160];
     Samples.img_node Samples.bf Samples.x20 90000 80000 10000 0
       [Samples.dim_node 1 900 800;
        mkDimensionNode (Some "1")
          (IntAttrError (BadData "No integer attribute"))
          (IntAttrError (BadData "No integer attribute"))
          (IntAttrError (BadData "No integer attribute"));
        Samples.dim_node 2 450 400]].

(** One main image and a macro image whose [ifd] attribute is
    2^32 + 10. *)
Definition wide_ifd_doc : xmlDoc :=
  Samples.doc_of 100000 80000
    [Samples.img_node Samples.bf Samples.x20 100000 80000 0 0
       [Samples.dim_node 4294967306 200 160];
     Samples.img_node Samples.bf Samples.x20 90000 80000 10000 0
       [Samples.dim_node 1 900 800; Samples.dim_node 2 450 400]].

(** A TIFF that is not tiled. *)
Definition untiled_slide : open_collaborators :=
  mkOpenCollaborators Samples.sample_tiff false
    (Some Samples.sample_image_description)
    (fun _ => inl Samples.single_main_doc)
    (fun props _ _ => inl props)
    (fun _ => true)
    (fun _ => None)
    (fun _ _ => None)
    (fun _ => EmptyString).

(** A slide whose directories have a resolution of 40000 pixels per
    centimeter, and whose generic TIFF properties include the
    ImageDescription. *)
Definition slide_with_resolution (doc : xmlDoc) : open_collaborators :=
  mkOpenCollaborators Samples.sample_tiff true
    (Some Samples.sample_image_description)
    (fun _ => inl doc)
    (fun props _ _ =>
       inl (<["tiff.ImageDescription" := Samples.sample_image_description]>
              (<["openslide.comment" := Samples.sample_image_description]>
                 props)))
    (fun _ => true)
    (fun _ => Some RESUNIT_CENTIMETER)
    (fun _ _ => Some (Double.of_int64 40000))
    (fun _ => "0.25").

(** A cache that holds the tiles of column 0 only, and a TIFF whose
    tiles of row 7 cannot be read; the conversion to [int] wraps modulo
    2^32. *)
Definition sample_reader : tile_collaborators :=
  mkTileCollaborators
    (fun _ tile_col _ => tile_col =? 0)
    (fun _ => true)
    (fun _ _ tile_row =>
       if tile_row =? 7
       then Some (mkGError OPENSLIDE_ERROR_FAILED "Cannot read tile")
       else None)
    (fun _ _ _ => None)
    (fun z => (z + 2 ^ 31) mod 2 ^ 32 - 2 ^ 31).

(** A stream with ten bytes left, of which the C library delivers three
    at the first call and four at the second. *)
Definition ten_bytes : list Byte.byte :=
  [Byte.x00; Byte.x01; Byte.x02; Byte.x03; Byte.x04;
   Byte.x05; Byte.x06; Byte.x07; Byte.x08; Byte.x09].

Definition sample_stream : stream :=
  mkStream ten_bytes false [Deliver 3; Deliver 4].

(** The same bytes, with a read error after the first three. *)
Definition failing_stream : stream :=
  mkStream ten_bytes false [DeliverThenError 3; Deliver 0].

(** A build without a close-on-exec mode letter, on a system where
    every call succeeds: descriptor 5, with no descriptor flag set. *)
Definition posix_system : open_system :=
  mkOpenSystem EmptyString
    (fun _ _ => inl (mkFILE 4096 0 []))
    5 (fun _ => 0) (fun _ _ => 0) (fun _ => "Bad file descriptor").

(** The same, but setting the descriptor flags fails. *)
Definition failing_system : open_system :=
  mkOpenSystem EmptyString
    (fun _ _ => inl (mkFILE 4096 0 []))
    5 (fun _ => 0) (fun _ _ => -1) (fun _ => "Bad file descriptor").

End MoreSamples.
(** *** Facts about the loop *)

Lemma incr32_small (n : Z) : 0 <= n -> n + 1 < 2 ^ 32 -> incr32 n = n + 1.
Proof. intros H0 H1. unfold incr32. apply Z.mod_small. lia. Qed.

Lemma count_nil (f : image -> bool) : count f [] = 0.
Proof. reflexivity. Qed.

Lemma count_cons (f : image -> bool) (img : image) (imgs : list image) :
  count f (img :: imgs) = (if f img then 1 else 0) + count f imgs.
Proof.
  unfold count. simpl. destruct (f img); simpl length; lia.
Qed.

Lemma count_nonneg (f : image -> bool) (imgs : list image) : 0 <= count f imgs.
Proof. unfold count. lia. Qed.

Lemma count_le_length (f : image -> bool) (imgs : list image) :
  count f imgs <= Z.of_nat (length imgs).
Proof.
  induction imgs as [|img imgs IH]; [reflexivity|].
  rewrite count_cons. simpl length. destruct (f img); lia.
Qed.

Lemma legacy_quickhash_loop_spec (imgs : list image) :
  forall b m : Z,
    0 <= b -> 0 <= m -> b + m + Z.of_nat (length imgs) < 2 ^ 32 ->
    legacy_quickhash_loop imgs b m = true <->
    (b + count main_brightfield imgs = 1 /\
     m + count is_macro imgs <= 1 /\
     mains_all_brightfield imgs).
Proof.
  unfold mains_all_brightfield.
  induction imgs as [|img imgs IH]; intros b m Hb Hm Hlen.
  - simpl. rewrite !count_nil, andb_true_iff, Z.eqb_eq, Z.leb_le.
    split; [intros [H1 H2] | intros (H1 & H2 & _)]; repeat split; auto; lia.
  - simpl length in Hlen. simpl legacy_quickhash_loop.
    rewrite !count_cons, Forall_cons.
    change (main_brightfield img)
      with (negb (is_macro img) && negb (not_brightfield img)).
    destruct (is_macro img) eqn:Hmac; simpl.
    + rewrite incr32_small by lia. rewrite IH by lia.
      split; intros (H1 & H2 & H3); repeat split; auto; try lia;
        solve [discriminate | apply H3].
    + destruct (not_brightfield img) eqn:Hbf; simpl.
      * split; [discriminate|]. intros (_ & _ & H & _).
        specialize (H eq_refl). discriminate.
      * rewrite incr32_small by lia. rewrite IH by lia.
        split; intros (H1 & H2 & H3); repeat split; auto; try lia;
          apply H3.
Qed.

(** C1.  [should_use_legacy_quickhash] is true exactly when the
    collection has one brightfield image that is not a macro image, at
    most one macro image, and no image that is neither macro nor
    brightfield.  One image that is not macro and whose illumination
    source is missing or is not "brightfield" makes it false.  The four
    boundary cases: one brightfield main image alone gives true; one
    brightfield main image with one brightfield macro image gives true;
    two brightfield main images give false; a brightfield main image with
    a main image that is not brightfield gives false. *)
Theorem should_use_legacy_quickhash_iff (c : collection) :
  fits_guint (images c) ->
  (should_use_legacy_quickhash c = true <->
     count main_brightfield (images c) = 1 /\
     count is_macro (images c) <= 1 /\
     mains_all_brightfield (images c)) /\
  ((exists img, In img (images c) /\
                is_macro img = false /\ not_brightfield img = true) ->
   should_use_legacy_quickhash c = false) /\
  (forall m, images c = [m] -> main_brightfield m = true ->
     should_use_legacy_quickhash c = true) /\
  (forall m k, images c = [m; k] \/ images c = [k; m] ->
     main_brightfield m = true -> macro_brightfield k = true ->
     should_use_legacy_quickhash c = true) /\
  (forall m1 m2, images c = [m1; m2] ->
     main_brightfield m1 = true -> main_brightfield m2 = true ->
     should_use_legacy_quickhash c = false) /\
  (forall m n, images c = [m; n] \/ images c = [n; m] ->
     main_brightfield m = true ->
     is_macro n = false -> not_brightfield n = true ->
     should_use_legacy_quickhash c = false).
Proof.
  intros Hfit. unfold fits_guint in Hfit.
  assert (Hiff : should_use_legacy_quickhash c = true <->
     count main_brightfield (images c) = 1 /\
     count is_macro (images c) <= 1 /\
     mains_all_brightfield (images c)).
  { unfold should_use_legacy_quickhash.
    rewrite legacy_quickhash_loop_spec by lia. rewrite !Z.add_0_l. reflexivity. }
  split; [exact Hiff|].
  split.
  { intros (img & Hin & Hmac & Hbf).
    apply not_true_is_false. intros E.
    apply Hiff in E. destruct E as (_ & _ & Hall).
    unfold mains_all_brightfield in Hall. rewrite List.Forall_forall in Hall.
    specialize (Hall img Hin Hmac). congruence. }
  unfold should_use_legacy_quickhash, main_brightfield, macro_brightfield.
  repeat split.
  - intros m -> Hm. apply andb_true_iff in Hm as [Hm1 Hm2].
    apply negb_true_iff in Hm1, Hm2. simpl. rewrite Hm1, Hm2. reflexivity.
  - intros m k Himgs Hm Hk.
    apply andb_true_iff in Hm as [Hm1 Hm2]. apply negb_true_iff in Hm1, Hm2.
    apply andb_true_iff in Hk as [Hk1 Hk2].
    destruct Himgs as [-> | ->]; simpl; rewrite Hm1, Hm2, Hk1; reflexivity.
  - intros m1 m2 -> H1 H2.
    apply andb_true_iff in H1 as [H11 H12]. apply negb_true_iff in H11, H12.
    apply andb_true_iff in H2 as [H21 H22]. apply negb_true_iff in H21, H22.
    simpl. rewrite H11, H12, H21, H22. reflexivity.
  - intros m n Himgs Hm Hn1 Hn2.
    apply andb_true_iff in Hm as [Hm1 Hm2]. apply negb_true_iff in Hm1, Hm2.
    destruct Himgs as [-> | ->]; simpl;
      rewrite ?Hm1, ?Hm2, ?Hn1, ?Hn2; reflexivity.
Qed.

(** ** Doubles *)

(** [0.98] is the double nearest to 98/100: the quotient of two exact
    doubles is rounded to nearest. *)
Lemma c0_98_nearest :
  Double.c0_98 = Double.div (Double.of_int64 98) (Double.of_int64 100).
Proof. reflexivity. Qed.

(** [ceil] on 5/2, -5/2, -1/2, 1/4, 3 and 100000/101. *)
Lemma ceil_samples :
  Double.ceil (Double.div (Double.of_int64 5) (Double.of_int64 2))
  = Double.of_int64 3 /\
  Double.ceil (Double.div (Double.of_int64 (-5)) (Double.of_int64 2))
  = Double.of_int64 (-2) /\
  Double.ceil (Double.div (Double.of_int64 (-1)) (Double.of_int64 2))
  = S754_zero true /\
  Double.ceil (Double.div (Double.of_int64 1) (Double.of_int64 4))
  = Double.of_int64 1 /\
  Double.ceil (Double.of_int64 3) = Double.of_int64 3 /\
  Double.to_int64 (fun _ => 0)
    (Double.ceil (Double.div (Double.of_int64 100000) (Double.of_int64 101)))
  = 991.
Proof. repeat split; reflexivity. Qed.

(** A conversion to [int64_t] that is in range does not depend on what
    an out-of-range conversion gives. *)
Lemma to_int64_in_range (unspecified : double -> Z) (x : double) (z : Z) :
  Double.trunc x = Some z -> Double.in_int64 z = true ->
  Double.to_int64 unspecified x = z.
Proof. unfold Double.to_int64. now intros -> ->. Qed.

(** ** The order of the doubles *)

Lemma SFcompare_antisym (a b : double) :
  SFcompare b a = option_map CompOpp (SFcompare a b).
Proof.
  destruct a as [sa|sa| |sa ma ea], b as [sb|sb| |sb mb eb]; simpl;
    try reflexivity;
    try (destruct sa; reflexivity);
    try (destruct sb; reflexivity);
    try (destruct sa, sb; reflexivity).
  destruct sa, sb; simpl; try reflexivity;
    rewrite (Z.compare_antisym ea eb);
    destruct (ea ?= eb); simpl; try reflexivity;
    rewrite (Pos.compare_cont_antisym ma mb Eq); reflexivity.
Qed.

Lemma leb_true_ltb_false (a b : double) :
  Double.leb a b = true -> Double.ltb b a = false.
Proof.
  unfold Double.leb, Double.ltb, SFleb, SFltb.
  rewrite (SFcompare_antisym a b).
  destruct (SFcompare a b) as [[| |]|]; simpl; congruence.
Qed.

Lemma ltb_true_leb_false (a b : double) :
  Double.ltb a b = true -> Double.leb b a = false.
Proof.
  unfold Double.leb, Double.ltb, SFleb, SFltb.
  rewrite (SFcompare_antisym a b).
  destruct (SFcompare a b) as [[| |]|]; simpl; congruence.
Qed.

Lemma leb_key (a b : double) :
  Double.is_nan a = false -> Double.is_nan b = false ->
  (Double.leb a b = true <-> key_le (order_key a) (order_key b)).
Proof.
  unfold Double.leb, SFleb, key_le.
  destruct a as [sa|sa| |sa ma ea], b as [sb|sb| |sb mb eb]; simpl;
    try discriminate; intros _ _;
    try (destruct sa; simpl; split; intros; try discriminate; lia);
    try (destruct sb; simpl; split; intros; try discriminate; lia);
    try (destruct sa, sb; simpl; split; intros; try discriminate; lia).
  destruct sa, sb; simpl; try (split; intros; try discriminate; lia);
    destruct (Z.compare_spec ea eb); simpl;
    try (split; intros; try discriminate; lia);
    change (Pos.compare_cont Eq ma mb) with (Pos.compare ma mb);
    destruct (Pos.compare_spec ma mb); simpl;
    split; intros; try discriminate; try reflexivity; lia.
Qed.

Lemma ltb_key (a b : double) :
  Double.is_nan a = false -> Double.is_nan b = false ->
  (Double.ltb a b = true <-> key_lt (order_key a) (order_key b)).
Proof.
  unfold Double.ltb, SFltb, key_lt.
  destruct a as [sa|sa| |sa ma ea], b as [sb|sb| |sb mb eb]; simpl;
    try discriminate; intros _ _;
    try (destruct sa; simpl; split; intros; try discriminate; lia);
    try (destruct sb; simpl; split; intros; try discriminate; lia);
    try (destruct sa, sb; simpl; split; intros; try discriminate; lia).
  destruct sa, sb; simpl; try (split; intros; try discriminate; lia);
    destruct (Z.compare_spec ea eb); simpl;
    try (split; intros; try discriminate; lia);
    change (Pos.compare_cont Eq ma mb) with (Pos.compare ma mb);
    destruct (Pos.compare_spec ma mb); simpl;
    split; intros; try discriminate; try reflexivity; lia.
Qed.

Lemma key_le_refl (a : Z * Z * Z) : key_le a a.
Proof. destruct a as [[r e] m]. simpl. lia. Qed.

Lemma key_le_trans (a b c : Z * Z * Z) :
  key_le a b -> key_le b c -> key_le a c.
Proof.
  destruct a as [[ra ea] ma], b as [[rb eb] mb], c as [[rc ec] mc].
  simpl. lia.
Qed.

Lemma key_le_or_lt (a b : Z * Z * Z) : key_lt a b \/ key_le b a.
Proof.
  destruct a as [[ra ea] ma], b as [[rb eb] mb]. simpl. lia.
Qed.

Lemma key_lt_le (a b : Z * Z * Z) : key_lt a b -> key_le a b.
Proof.
  destruct a as [[ra ea] ma], b as [[rb eb] mb]. simpl. lia.
Qed.

Lemma leb_refl (a : double) : Double.is_nan a = false -> Double.leb a a = true.
Proof. intros Ha. apply leb_key; auto. apply key_le_refl. Qed.

Lemma leb_trans (a b c : double) :
  Double.is_nan a = false -> Double.is_nan b = false ->
  Double.is_nan c = false ->
  Double.leb a b = true -> Double.leb b c = true -> Double.leb a c = true.
Proof.
  intros Ha Hb Hc Hab Hbc.
  apply leb_key in Hab, Hbc; auto. apply leb_key; auto.
  eapply key_le_trans; eauto.
Qed.

(** [MIN] of two numbers is one of them and is above neither. *)
Lemma MIN_spec (a b : double) :
  Double.is_nan a = false -> Double.is_nan b = false ->
  (Double.MIN a b = a \/ Double.MIN a b = b) /\
  Double.leb (Double.MIN a b) a = true /\
  Double.leb (Double.MIN a b) b = true.
Proof.
  intros Ha Hb. unfold Double.MIN.
  destruct (Double.ltb a b) eqn:Hlt.
  - split; [now left|]. split; [now apply leb_refl|].
    apply leb_key; auto. apply key_lt_le. now apply ltb_key.
  - split; [now right|]. split; [|now apply leb_refl].
    apply leb_key; auto.
    destruct (key_le_or_lt (order_key a) (order_key b)) as [H|H]; [|exact H].
    apply ltb_key in H; auto. congruence.
Qed.

Lemma MIN_not_nan (a b : double) :
  Double.is_nan a = false -> Double.is_nan b = false ->
  Double.is_nan (Double.MIN a b) = false.
Proof.
  intros Ha Hb. unfold Double.MIN. now destruct (Double.ltb a b).
Qed.

(** Folding [MIN] over numbers gives a least one of them. *)
Lemma fold_MIN_is_minimum (vals : list double) :
  forall init : double,
    no_nan (init :: vals) ->
    is_minimum (fold_left Double.MIN vals init) (init :: vals).
Proof.
  unfold is_minimum, no_nan.
  induction vals as [|v vals IH]; intros init Hnan.
  - simpl. apply Forall_cons_1 in Hnan as [Hi _].
    split; [now left|]. constructor; [now apply leb_refl|constructor].
  - apply Forall_cons_1 in Hnan as [Hi Hnan].
    pose proof Hnan as Hnan'.
    apply Forall_cons_1 in Hnan' as [Hv Hvals].
    destruct (MIN_spec init v Hi Hv) as (Hor & Hle1 & Hle2).
    assert (Hm : Double.is_nan (Double.MIN init v) = false)
      by now apply MIN_not_nan.
    simpl fold_left.
    destruct (IH (Double.MIN init v)) as [Hin Hall].
    { constructor; assumption. }
    assert (Hr : Double.is_nan (fold_left Double.MIN vals (Double.MIN init v))
                 = false).
    { destruct Hin as [<- | Hin]; [exact Hm|].
      rewrite List.Forall_forall in Hvals. now apply Hvals. }
    apply Forall_cons_1 in Hall as [Hhead Hall].
    split.
    + destruct Hin as [Hin | Hin].
      * rewrite <- Hin. destruct Hor as [-> | ->]; simpl; auto.
      * right. right. exact Hin.
    + constructor; [eapply leb_trans; [| | |exact Hhead|exact Hle1]; auto|].
      constructor; [eapply leb_trans; [| | |exact Hhead|exact Hle2]; auto|].
      exact Hall.
Qed.

(** ** The manifest parser *)

Section Sorting.

Context {A : Type} (compare : A -> A -> Z).

Lemma sort_insert_perm (x : A) (l : list A) :
  Permutation (x :: l) (sort_insert compare x l).
Proof.
  induction l as [|y l IH]; simpl; [reflexivity|].
  destruct (compare x y <=? 0); [reflexivity|].
  rewrite <- IH. apply perm_swap.
Qed.

Lemma g_ptr_array_sort_perm (l : list A) :
  Permutation l (g_ptr_array_sort compare l).
Proof.
  induction l as [|x l IH]; simpl; [reflexivity|].
  rewrite <- sort_insert_perm. now constructor.
Qed.

End Sorting.

Lemma dimension_compare_le (a b : dimension) :
  dimension_compare a b <= 0 <-> width a >= width b.
Proof.
  unfold dimension_compare.
  destruct (Z.gtb_spec (width a) (width b)); [lia|].
  destruct (Z.eqb_spec (width a) (width b)); lia.
Qed.

Lemma sort_insert_descending (x : dimension) (l : list dimension) :
  descending_width l ->
  descending_width (sort_insert dimension_compare x l).
Proof.
  unfold descending_width.
  induction l as [|y l IH]; intros Hs; simpl.
  - repeat constructor.
  - destruct (Z.leb_spec (dimension_compare x y) 0) as [Hle|Hgt].
    + apply dimension_compare_le in Hle.
      constructor; [exact Hs|].
      constructor; [exact Hle|].
      apply StronglySorted_inv in Hs as [_ Hy].
      eapply List.Forall_impl; [|exact Hy]. simpl. intros; lia.
    + assert (Hlt : width y >= width x).
      { destruct (Z_ge_dec (width x) (width y)) as [Hge|Hn]; [|lia].
        apply dimension_compare_le in Hge. lia. }
      apply StronglySorted_inv in Hs as [Hl Hy].
      constructor; [auto|].
      eapply Permutation_Forall; [apply sort_insert_perm|].
      constructor; assumption.
Qed.

Lemma g_ptr_array_sort_descending (l : list dimension) :
  descending_width (g_ptr_array_sort dimension_compare l).
Proof.
  induction l as [|x l IH]; simpl.
  - constructor.
  - now apply sort_insert_descending.
Qed.

Lemma sort_insert_filter (wd : Z) (x : dimension) (l : list dimension) :
  List.filter (of_width wd) (sort_insert dimension_compare x l)
  = List.filter (of_width wd) (x :: l).
Proof.
  induction l as [|y l IH]; [reflexivity|].
  simpl sort_insert.
  destruct (Z.leb_spec (dimension_compare x y) 0) as [Hle|Hgt];
    [reflexivity|].
  assert (Hlt : width x < width y).
  { destruct (Z_ge_dec (width x) (width y)) as [Hge|Hn]; [|lia].
    apply dimension_compare_le in Hge. lia. }
  simpl in *. rewrite IH. unfold of_width.
  destruct (Z.eqb_spec (width x) wd), (Z.eqb_spec (width y) wd);
    try reflexivity. lia.
Qed.

Lemma g_ptr_array_sort_stable (wd : Z) (l : list dimension) :
  List.filter (of_width wd) (g_ptr_array_sort dimension_compare l)
  = List.filter (of_width wd) l.
Proof.
  induction l as [|x l IH]; [reflexivity|].
  simpl g_ptr_array_sort. rewrite sort_insert_filter.
  simpl. fold (g_ptr_array_sort dimension_compare l). now rewrite IH.
Qed.

Lemma g_ptr_array_sort_stably_sorted (l : list dimension) :
  stably_sorted l (g_ptr_array_sort dimension_compare l).
Proof.
  split; [apply g_ptr_array_sort_perm|].
  split; [apply g_ptr_array_sort_descending|].
  intros wd. apply g_ptr_array_sort_stable.
Qed.

(** In a sequence sorted wider first, a dimension that comes before one
    of another width is strictly wider than it. *)
Lemma descending_width_strict (dims : list dimension) (i j : nat)
    (a b : dimension) :
  descending_width dims ->
  dims !! i = Some a -> dims !! j = Some b -> (i < j)%nat ->
  width a >= width b /\ (width a <> width b -> width a > width b).
Proof.
  unfold descending_width. intros Hs. revert i j.
  induction Hs as [|x l Hs IH Hx]; intros i j Ha Hb Hij.
  - discriminate.
  - destruct j as [|j]; [lia|]. simpl in Hb.
    destruct i as [|i]; simpl in Ha.
    + inversion Ha; subst x.
      rewrite List.Forall_forall in Hx.
      assert (Hin : In b l).
      { apply list_elem_of_In, list_elem_of_lookup. eauto. }
      specialize (Hx b Hin). lia.
    + apply (IH i j); auto. lia.
Qed.

Lemma parse_dimensions_in_manifest_order (across : Z)
    (nodes : list dimension_node) (manifest : list dimension) :
  parse_dimensions across nodes = inl manifest ->
  in_manifest_order nodes manifest.
Proof.
  unfold in_manifest_order. revert manifest.
  induction nodes as [|node nodes IH]; intros manifest H; simpl in H.
  - inversion H. constructor.
  - simpl. unfold z_plane_0 at 1.
    destruct (dn_z node) as [z|] eqn:Hz; simpl in H.
    + destruct (String.eqb z "0"); simpl in H; [|now apply IH].
      destruct (dn_ifd node) eqn:E1; simpl in H; [|discriminate].
      destruct (dn_sizeX node) eqn:E2; simpl in H; [|discriminate].
      destruct (dn_sizeY node) eqn:E3; simpl in H; [|discriminate].
      destruct (parse_dimensions across nodes) as [dims|] eqn:E;
        [|discriminate].
      inversion H; subst manifest. constructor; [simpl; auto|].
      now apply IH.
    + destruct (dn_ifd node) eqn:E1; simpl in H; [|discriminate].
      destruct (dn_sizeX node) eqn:E2; simpl in H; [|discriminate].
      destruct (dn_sizeY node) eqn:E3; simpl in H; [|discriminate].
      destruct (parse_dimensions across nodes) as [dims|] eqn:E;
        [|discriminate].
      inversion H; subst manifest. constructor; [simpl; auto|].
      now apply IH.
Qed.

Lemma parse_image_spec (across down : Z) (node : image_node) (img : image) :
  parse_image across down node = inl img -> image_of_node across down node img.
Proof.
  unfold parse_image, image_of_node. intros H.
  destruct (in_view node) as [view|]; [|discriminate].
  destruct (vn_sizeX view); simpl in H; [|discriminate].
  destruct (vn_sizeY view); simpl in H; [|discriminate].
  destruct (vn_offsetX view); simpl in H; [|discriminate].
  destruct (vn_offsetY view); simpl in H; [|discriminate].
  destruct (in_dimensions node) as [nodes|]; [|discriminate].
  destruct (parse_dimensions v nodes) as [dims|] eqn:E; [|discriminate].
  inversion H; subst img; simpl. split; [reflexivity|].
  exists nodes, dims. auto.
Qed.

Lemma parse_images_spec (across down : Z) (nodes : list image_node)
    (imgs : list image) :
  parse_images across down nodes = inl imgs ->
  Forall2 (image_of_node across down) nodes imgs.
Proof.
  revert imgs. induction nodes as [|node nodes IH]; intros imgs H; simpl in H.
  - inversion H. constructor.
  - destruct (parse_image across down node) as [img|] eqn:E1; [|discriminate].
    destruct (parse_images across down nodes) as [rest|] eqn:E2;
      [|discriminate].
    inversion H; subst imgs. constructor; [|now apply IH].
    now apply parse_image_spec.
Qed.

Lemma parse_xml_description_spec (xml_parse : string -> xmlDoc + GError)
    (xml : string) (c : collection) :
  parse_xml_description xml_parse xml = inl c ->
  Forall2 (image_of_node (clicks_across c) (clicks_down c))
          (image_nodes xml_parse xml) (images c).
Proof.
  unfold parse_xml_description, image_nodes. intros H.
  destruct (xml_parse xml) as [doc|]; [|discriminate].
  destruct (has_default_namespace_leica doc); simpl in H; [|discriminate].
  destruct (doc_collection doc) as [node|]; [|discriminate].
  destruct (cn_sizeX node); simpl in H; [|discriminate].
  destruct (cn_sizeY node); simpl in H; [|discriminate].
  destruct (cn_images node) as [nodes|]; [|discriminate].
  destruct (parse_images v v0 nodes) as [imgs|] eqn:E; [|discriminate].
  inversion H; subst c; simpl. now apply parse_images_spec.
Qed.

(** The parser leaves the dimensions of every image sorted wider
    first. *)
Lemma parsed_dimensions_descending (xml_parse : string -> xmlDoc + GError)
    (xml : string) (c : collection) (img : image) :
  parse_xml_description xml_parse xml = inl c ->
  In img (images c) ->
  descending_width (dimensions img).
Proof.
  intros H Hin. apply parse_xml_description_spec in H.
  apply list_elem_of_In, list_elem_of_lookup in Hin as [i Hi].
  destruct (Forall2_lookup_r _ _ _ _ _ H Hi)
    as (node & _ & _ & nodes & manifest & _ & _ & ->).
  apply g_ptr_array_sort_descending.
Qed.

(** C7.  After parsing, the dimensions of every image are sorted wider
    first: each dimension is at least as wide as every later one, and
    strictly wider when the two widths differ.  The dimensions of one
    width are in the order the manifest has them: the sorted sequence is
    a rearrangement of the dimensions of z-plane 0 taken in manifest
    order, and selecting the dimensions of any one width from both gives
    the same sequence. *)
Theorem parsed_dimensions_sorted_stably
    (xml_parse : string -> xmlDoc + GError) (xml : string) (c : collection) :
  parse_xml_description xml_parse xml = inl c ->
  Forall2 sorted_from_manifest (image_nodes xml_parse xml) (images c).
Proof.
  intros H. apply parse_xml_description_spec in H.
  eapply Forall2_impl; [exact H|]. unfold sorted_from_manifest.
  intros node img (_ & nodes & manifest & Hn & Hp & Hd).
  exists nodes, manifest.
  split; [exact Hn|].
  split; [eapply parse_dimensions_in_manifest_order; exact Hp|].
  rewrite Hd.
  split; [apply g_ptr_array_sort_stably_sorted|].
  intros i j a b. apply descending_width_strict.
  apply g_ptr_array_sort_descending.
Qed.

(** C8.  For every image of the parsed collection, [is_macro] is true
    exactly when both offsets are zero and the size of the image in
    clicks is the size of the collection; an offset that is not zero or a
    size that differs makes it false. *)
Theorem parsed_is_macro_iff
    (xml_parse : string -> xmlDoc + GError) (xml : string) (c : collection)
    (img : image) :
  parse_xml_description xml_parse xml = inl c ->
  In img (images c) ->
  (is_macro img = true <->
     img_clicks_offset_x img = 0 /\ img_clicks_offset_y img = 0 /\
     img_clicks_across img = clicks_across c /\
     img_clicks_down img = clicks_down c) /\
  (img_clicks_offset_x img <> 0 \/ img_clicks_offset_y img <> 0 \/
   img_clicks_across img <> clicks_across c \/
   img_clicks_down img <> clicks_down c ->
   is_macro img = false).
Proof.
  intros H Hin. apply parse_xml_description_spec in H.
  assert (Hm : is_macro img =
    ((img_clicks_offset_x img =? 0) && (img_clicks_offset_y img =? 0) &&
     (img_clicks_across img =? clicks_across c) &&
     (img_clicks_down img =? clicks_down c))).
  { apply list_elem_of_In, list_elem_of_lookup in Hin as [i Hi].
    destruct (Forall2_lookup_r _ _ _ _ _ H Hi) as (node & _ & Hnode & _).
    exact Hnode. }
  rewrite Hm, !andb_true_iff, !Z.eqb_eq.
  split; [tauto|].
  intros Hne. apply not_true_is_false.
  rewrite !andb_true_iff, !Z.eqb_eq. tauto.
Qed.

(** ** _openslide_fsize *)

Lemma first_four_succeed_dec (file : _openslide_file) :
  first_four_succeed file \/ ~ first_four_succeed file.
Proof.
  unfold first_four_succeed.
  induction (take 4 (faults (fp file))) as [|o l IH].
  - left. constructor.
  - destruct o as [s|].
    + right. intros H. inversion H; discriminate.
    + destruct IH as [IH|IH]; [left; now constructor|].
      right. intros H. inversion H; auto.
Qed.

Ltac fsize_cases :=
  repeat match goal with
  | H : Forall _ (_ :: _) |- _ => inversion H; clear H; subst
  | H : Some _ = None |- _ => discriminate H
  | |- ~ _ => intros ?
  | |- _ /\ _ => split
  | |- _ -> _ => intros ?
  end;
  try reflexivity; try discriminate; try lia; try tauto;
  try (exfalso;
       match goal with
       | H : ~ Forall _ _ |- _ => apply H; repeat constructor
       | H : Forall _ _ -> False |- _ => apply H; repeat constructor
       end; fail).

(** C10.  On an open file, when the operating system answers the four
    calls, [_openslide_fsize] returns the size of the file, sets no
    error and leaves the stream at the position it had at entry; when
    one of the calls fails it returns [-1] with an error set.  So a
    result other than [-1] is the size of the file, and the position is
    then unchanged. *)
Theorem _openslide_fsize_spec (file : _openslide_file) :
  valid_file file ->
  (first_four_succeed file ->
     _openslide_fsize file
     = (file_size (fp file), None,
        mkFile (mkFILE (file_size (fp file)) (file_pos (fp file))
                       (drop 4 (faults (fp file))))
               (path file))) /\
  (~ first_four_succeed file ->
     fst (fst (_openslide_fsize file)) = -1 /\
     snd (fst (_openslide_fsize file)) <> None) /\
  (fst (fst (_openslide_fsize file)) <> -1 ->
     fst (fst (_openslide_fsize file)) = file_size (fp file) /\
     file_pos (fp (snd (_openslide_fsize file))) = file_pos (fp file) /\
     file_size (fp (snd (_openslide_fsize file))) = file_size (fp file)).
Proof.
  intros [Hsize Hpos].
  destruct file as [[size pos fl] p]. simpl in Hsize, Hpos.
  unfold first_four_succeed. simpl fp. simpl faults. simpl path.
  simpl file_size. simpl file_pos.
  destruct size as [|size|size]; [| |lia];
    (destruct pos as [|pos|pos]; [| |lia]);
    (destruct fl as [|[s1|] [|[s2|] [|[s3|] [|[s4|] rest]]]]);
    cbv -[String.append]; fsize_cases.
Qed.

(** ** paint_region *)

Lemma paint_areas_no_pool_event (P : paint_collaborators) (l : level)
    (x y w h : Z) (todo : list area) :
  Forall (fun ev => pool_event ev = false)
         (fst (paint_areas P l x y w h todo)).
Proof.
  induction todo as [|a rest IH]; simpl; [constructor|].
  destruct (tiff_set_directory P (tiffl_dir (tiffl a))).
  - destruct (grid_paint_region P a _ _ w h).
    + repeat constructor.
    + destruct (paint_areas P l x y w h rest) as [events r].
      simpl in *. repeat constructor. exact IH.
  - repeat constructor.
Qed.

Lemma paint_areas_spec (P : paint_collaborators) (l : level)
    (x y w h : Z) (todo : list area) :
  stopped_at_first_failure P l x y w h todo
    (fst (paint_areas P l x y w h todo))
    (snd (paint_areas P l x y w h todo)).
Proof.
  unfold stopped_at_first_failure.
  induction todo as [|a todo IH].
  - exists [], []. simpl. repeat split; constructor.
  - simpl paint_areas.
    destruct (tiff_set_directory P (tiffl_dir (tiffl a))) eqn:Hdir.
    + destruct (grid_paint_region P a _ _ w h) as [e|] eqn:Hpaint.
      * exists [], (a :: todo). simpl.
        split; [reflexivity|]. split; [constructor|].
        exists e. unfold area_failure. rewrite Hdir, Hpaint.
        repeat split; auto. discriminate.
      * destruct IH as (done & rest & Htodo & Hok & Hrest).
        destruct (paint_areas P l x y w h todo) as [events r].
        simpl in Hrest. exists (a :: done), rest. simpl.
        split; [now rewrite Htodo|].
        split.
        { constructor; [|exact Hok].
          unfold area_failure. now rewrite Hdir, Hpaint. }
        destruct rest as [|b rest].
        -- destruct Hrest as (Hr & Hd & Hp). now rewrite Hd, Hp.
        -- destruct Hrest as (e & He & Hr & Hd & Hp & Hbad).
           exists e. now rewrite Hd, Hp.
    + exists [], (a :: todo). simpl.
      split; [reflexivity|]. split; [constructor|].
      exists (BadData "Cannot set TIFF directory").
      unfold area_failure. rewrite Hdir. repeat split; auto.
Qed.

Lemma handles_out_no_pool_event (events : list event) :
  Forall (fun ev => pool_event ev = false) events ->
  forall tail, handles_out (events ++ tail) = handles_out tail.
Proof.
  induction 1 as [|ev events Hev _ IH]; intros tail; [reflexivity|].
  simpl. destruct ev; try discriminate; apply IH.
Qed.

Lemma directories_set_body (events : list event) :
  directories_set (TiffcacheGet :: events ++ [TiffcachePut])
  = directories_set events.
Proof.
  simpl. induction events as [|ev events IH]; [reflexivity|].
  simpl. destruct ev; simpl; congruence.
Qed.

Lemma areas_painted_body (events : list event) :
  areas_painted (TiffcacheGet :: events ++ [TiffcachePut])
  = areas_painted events.
Proof.
  simpl. induction events as [|ev events IH]; [reflexivity|].
  simpl. destruct ev; simpl; congruence.
Qed.

(** C9.  [paint_region] takes the areas of the level in their order and
    stops at the first area that fails, whether its directory cannot be
    set (the error is then BadData) or its grid fails to paint: the areas
    before it were painted, no area after it is touched, and the error of
    that area is the error of the call.  When the pool gave a handle, the
    first event of the call takes it and the last one puts it back,
    whatever the result, and nothing in between touches the pool.  When
    the pool gives no handle the call fails without doing anything. *)
Theorem paint_region_stops_at_first_failure (P : paint_collaborators)
    (x y : Z) (l : level) (w h : Z) :
  match tiffcache_get P with
  | Some e => paint_region P x y l w h = ([], Failed e)
  | None =>
      exists body,
        fst (paint_region P x y l w h)
        = TiffcacheGet :: body ++ [TiffcachePut] /\
        Forall (fun ev => pool_event ev = false) body /\
        handles_out (fst (paint_region P x y l w h)) = 0 /\
        stopped_at_first_failure P l x y w h (areas l)
          (fst (paint_region P x y l w h))
          (snd (paint_region P x y l w h))
  end.
Proof.
  unfold paint_region.
  destruct (tiffcache_get P) as [e|]; [reflexivity|].
  pose proof (paint_areas_spec P l x y w h (areas l)) as Hspec.
  pose proof (paint_areas_no_pool_event P l x y w h (areas l)) as Hpool.
  destruct (paint_areas P l x y w h (areas l)) as [events r].
  simpl in *. exists events.
  split; [reflexivity|]. split; [exact Hpool|].
  split.
  { rewrite handles_out_no_pool_event by exact Hpool. reflexivity. }
  unfold stopped_at_first_failure in *.
  destruct Hspec as (done & rest & Htodo & Hok & Hrest).
  exists done, rest. split; [exact Htodo|]. split; [exact Hok|].
  pose proof (directories_set_body events) as Hd.
  pose proof (areas_painted_body events) as Hp.
  simpl in Hd, Hp.
  destruct rest as [|a rest].
  - destruct Hrest as (Hr & Hd' & Hp').
    simpl. rewrite Hd, Hp. auto.
  - destruct Hrest as (e & He & Hr & Hd' & Hp' & Hbad).
    exists e. simpl. rewrite Hd, Hp. auto.
Qed.

(** ** Level synthesis: the monad *)

Lemma bind_Done {A B : Type} (m : Synth A) (k : A -> Synth B)
    (st st' : synth) (b : B) :
  bind m k st = (st', Done b) ->
  exists a st1, m st = (st1, Done a) /\ k a st1 = (st', Done b).
Proof.
  unfold bind. destruct (m st) as [st1 [a|e| |]]; intros H;
    try discriminate. eauto.
Qed.

Lemma bind_eq_Done {A B : Type} (m : Synth A) (k : A -> Synth B)
    (st st1 : synth) (a : A) :
  m st = (st1, Done a) -> bind m k st = k a st1.
Proof. unfold bind. now intros ->. Qed.

Lemma bind_eq_Failed {A B : Type} (m : Synth A) (k : A -> Synth B)
    (st st1 : synth) (e : GError) :
  m st = (st1, Failed e) -> bind m k st = (st1, Failed e).
Proof. unfold bind. now intros ->. Qed.

Ltac inv_ret :=
  repeat match goal with
  | H : ret _ _ = (_, Done _) |- _ =>
      unfold ret in H; inversion H; clear H; subst
  | H : modify _ _ = (_, Done _) |- _ =>
      unfold modify in H; inversion H; clear H; subst
  | H : fail _ _ = (_, Done _) |- _ => discriminate H
  | H : undefined _ = (_, Done _) |- _ => discriminate H
  end.

(** ** Level synthesis: one image *)

Lemma alter_minimize_add_area (T : collaborators) (img : image)
    (d : dimension) (k : nat) (ls : list level) :
  alter (fun lv => mkLevel (base lv) (clicks_per_pixel lv)
                           (areas lv ++ [area_of T img d])) k
        (alter (minimize_click_density d) k ls)
  = alter (fun l => merge_level T img l d) k ls.
Proof.
  rewrite list_alter_alter_eq. reflexivity.
Qed.

Lemma create_area_Done (T : collaborators) (l : nat) (img : image)
    (d : dimension) (st st' : synth) :
  create_area T l img d st = (st', Done tt) ->
  st' = add_area l (area_of T img d) st.
Proof.
  unfold create_area, area_of.
  destruct (tiff_level_init T (dir d)) as [t|e]; [|discriminate].
  destruct (tiff_get_compression T (dir d)) as [compression|];
    [|discriminate].
  destruct (tiff_codec_configured T compression); [|discriminate].
  intros H. inversion H. reflexivity.
Qed.

Lemma dimensions_loop_first (T : collaborators) (f img : image)
    (dims : list dimension) :
  forall (k : nat) (st st' : synth),
    dimensions_loop T true f img dims k st = (st', Done tt) ->
    levels st' = levels st ++ map (new_level T img) dims /\
    quickhash_dir st' = quickhash_dir st /\
    properties st' = properties st /\
    associated_images st' = associated_images st.
Proof.
  induction dims as [|d dims IH]; intros k st st' H; simpl in H.
  - inv_ret. now rewrite app_nil_r.
  - apply bind_Done in H as (l & st1 & H1 & H).
    apply bind_Done in H as ([] & st2 & H2 & H).
    unfold level_of_dimension in H1. inversion H1; subst l st1; clear H1.
    apply create_area_Done in H2. subst st2.
    apply IH in H as (Hl & Hq & Hp & Ha). clear IH.
    rewrite Hl, Hq, Hp, Ha. simpl.
    repeat split.
    replace (length (levels st)) with (length (levels st) + 0)%nat by lia.
    rewrite alter_app_r. simpl. rewrite <- app_assoc. reflexivity.
Qed.

Lemma dimensions_loop_later (T : collaborators) (f img : image)
    (dims : list dimension) :
  forall (k : nat) (st st' : synth),
    dimensions_loop T false f img dims k st = (st', Done tt) ->
    levels st'
    = take k (levels st) ++ merge_levels T img (drop k (levels st)) dims /\
    quickhash_dir st' = quickhash_dir st /\
    properties st' = properties st /\
    associated_images st' = associated_images st /\
    Forall2 (fun d fd =>
               Double.ltb (resolution_similarity d fd) Double.c0_98 = false)
            dims (take (length dims) (drop k (dimensions f))).
Proof.
  induction dims as [|d dims IH]; intros k st st' H; simpl in H.
  - inv_ret. simpl.
    repeat split; [|constructor].
    destruct (drop k (levels st')) eqn:E; simpl;
      rewrite <- E; now rewrite take_drop.
  - apply bind_Done in H as (l & st1 & H1 & H).
    apply bind_Done in H as ([] & st2 & H2 & H).
    unfold level_of_dimension in H1.
    destruct (levels st !! k) as [lv|] eqn:Hk; [|discriminate].
    destruct (dimensions f !! k) as [fd|] eqn:Hfk; [|discriminate].
    destruct (Double.ltb (resolution_similarity d fd) Double.c0_98) eqn:Hsim;
      [discriminate|].
    inversion H1; subst l st1; clear H1.
    apply create_area_Done in H2. subst st2.
    apply IH in H as (Hl & Hq & Hp & Ha & Hres). clear IH.
    rewrite Hl, Hq, Hp, Ha. simpl.
    rewrite alter_minimize_add_area.
    split; [|repeat split].
    + rewrite (drop_S _ _ _ Hk). simpl.
      rewrite (take_S_r (alter _ k (levels st)) k (merge_level T img lv d)).
      * rewrite take_alter_ge by lia. rewrite drop_alter_lt by lia.
        rewrite <- app_assoc. reflexivity.
      * rewrite list_lookup_alter_eq, Hk. reflexivity.
    + rewrite (drop_S _ _ _ Hfk). simpl. constructor; [exact Hsim|].
      exact Hres.
Qed.

Lemma merge_levels_length (T : collaborators) (img : image)
    (ls : list level) (dims : list dimension) :
  length (merge_levels T img ls dims) = length ls.
Proof.
  revert dims. induction ls as [|l ls IH]; intros [|d dims]; simpl; auto.
Qed.

Lemma merge_levels_lookup (T : collaborators) (img : image)
    (ls : list level) (dims : list dimension) (k : nat) (l : level)
    (d : dimension) :
  ls !! k = Some l -> dims !! k = Some d ->
  merge_levels T img ls dims !! k = Some (merge_level T img l d).
Proof.
  revert dims k. induction ls as [|l0 ls IH]; intros [|d0 dims] [|k];
    simpl; try discriminate.
  - intros H1 H2. inversion H1. inversion H2. reflexivity.
  - apply IH.
Qed.

Lemma check_similar_Done (img f : image) (st st' : synth) :
  check_similar img f st = (st', Done tt) ->
  st' = st /\ composable f img /\ objective f <> None.
Proof.
  unfold check_similar, composable, strcmp.
  destruct (illumination_source img) as [s1|],
           (illumination_source f) as [s2|]; try discriminate.
  destruct (String.eqb_spec s1 s2) as [->|]; simpl; [|discriminate].
  destruct (objective img) as [o1|], (objective f) as [o2|];
    try discriminate.
  destruct (String.eqb_spec o1 o2) as [->|]; simpl; [|discriminate].
  destruct (Nat.eqb_spec (length (dimensions img)) (length (dimensions f)));
    [|discriminate].
  intros H. inv_ret. auto.
Qed.

Lemma main_image_step_skip (T : collaborators) (lq : bool) (n : nat)
    (img : image) (first : option (nat * image)) (st : synth) :
  main_brightfield img = false ->
  main_image_step T lq n img first st = (st, Done first).
Proof.
  unfold main_brightfield, main_image_step.
  destruct (is_macro img); [reflexivity|].
  destruct (not_brightfield img); [reflexivity|discriminate].
Qed.

Lemma main_image_step_later (T : collaborators) (lq : bool) (n i : nat)
    (img f : image) (st st' : synth) (r : option (nat * image)) :
  main_brightfield img = true -> i <> n ->
  main_image_step T lq n img (Some (i, f)) st = (st', Done r) ->
  r = Some (i, f) /\
  levels st' = merge_image T (levels st) img /\
  quickhash_dir st' = quickhash_dir st /\
  associated_images st' = associated_images st /\
  composable f img /\ consistent_resolutions f img.
Proof.
  unfold main_brightfield, main_image_step. intros Hmb Hne H.
  destruct (is_macro img); [discriminate|].
  destruct (not_brightfield img); [discriminate|].
  apply bind_Done in H as ([i' f'] & sta & Ha & H). inv_ret. simpl in H.
  apply bind_Done in H as ([] & stb & H1 & H).
  apply check_similar_Done in H1 as (-> & Hcomp & _).
  apply bind_Done in H as ([] & stc & H2 & H).
  assert (Hn : Nat.eqb n i' = false) by (apply Nat.eqb_neq; congruence).
  rewrite Hn in H2, H. rewrite andb_false_r in H.
  apply bind_Done in H as ([] & std & H3 & H). inv_ret.
  apply dimensions_loop_later in H2 as (Hl & Hq & Hp & Ha & Hres).
  cbn [skipn] in Hl, Hres.
  destruct Hcomp as (Hc1 & Hc2 & Hc3).
  rewrite Hc3, firstn_all in Hres.
  repeat split; auto.
Qed.

Lemma main_image_step_first (T : collaborators) (lq : bool) (n : nat)
    (img : image) (st st' : synth) (r : option (nat * image)) :
  main_brightfield img = true ->
  main_image_step T lq n img None st = (st', Done r) ->
  r = Some (n, img) /\
  levels st' = levels st ++ map (new_level T img) (dimensions img) /\
  (lq = true ->
     exists d, last (dimensions img) = Some d /\ quickhash_dir st' = dir d) /\
  (lq = false -> quickhash_dir st' = quickhash_dir st) /\
  associated_images st' = associated_images st /\
  objective img <> None.
Proof.
  unfold main_brightfield, main_image_step. intros Hmb H.
  destruct (is_macro img); [discriminate|].
  destruct (not_brightfield img); [discriminate|].
  apply bind_Done in H as ([i' f'] & sta & H1 & H).
  apply bind_Done in H1 as ([] & st0 & H0 & H1). inv_ret. simpl in H.
  apply bind_Done in H as ([] & stb & H1 & H).
  apply check_similar_Done in H1 as (-> & _ & Hobj).
  apply bind_Done in H as ([] & stc & H2 & H).
  rewrite Nat.eqb_refl in H2, H. rewrite andb_true_r in H.
  apply bind_Done in H as ([] & std & H3 & H). inv_ret.
  apply dimensions_loop_first in H2 as (Hl & Hq & Hp & Ha).
  simpl in Hl, Hq, Ha.
  destruct lq.
  - unfold last_dimension in H3.
    destruct (last (dimensions _)) as [d|]; [|discriminate]. inv_ret.
    simpl. repeat split; auto; [|discriminate]. intros _. eauto.
  - inv_ret. repeat split; auto. discriminate.
Qed.

(** ** Level synthesis: the loop over the main images *)

Lemma main_images_loop_later (T : collaborators) (lq : bool)
    (imgs : list image) :
  forall (n i : nat) (f : image) (st st' : synth) (r : option (nat * image)),
    (i < n)%nat ->
    main_images_loop T lq imgs n (Some (i, f)) st = (st', Done r) ->
    r = Some (i, f) /\
    levels st'
    = fold_left (merge_image T) (List.filter main_brightfield imgs)
                (levels st) /\
    quickhash_dir st' = quickhash_dir st /\
    associated_images st' = associated_images st /\
    Forall (fun img => composable f img /\ consistent_resolutions f img)
           (List.filter main_brightfield imgs).
Proof.
  induction imgs as [|img imgs IH]; intros n i f st st' r Hlt H; simpl in H.
  - inv_ret. simpl. repeat split; constructor.
  - apply bind_Done in H as (first & st1 & H1 & H). simpl.
    destruct (main_brightfield img) eqn:Hmb.
    + apply main_image_step_later in H1
        as (-> & Hl & Hq & Ha & Hc & Hr); [|exact Hmb|lia].
      apply IH in H as (-> & Hl' & Hq' & Ha' & Hall); [|lia].
      simpl. rewrite Hl', Hq', Ha', Hl.
      repeat split; auto.
    + rewrite main_image_step_skip in H1 by exact Hmb.
      inversion H1; subst first st1.
      apply IH in H; [exact H|lia].
Qed.

Lemma main_images_loop_first (T : collaborators) (lq : bool)
    (imgs : list image) :
  forall (n : nat) (st st' : synth) (r : option (nat * image)),
    main_images_loop T lq imgs n None st = (st', Done r) ->
    match List.filter main_brightfield imgs with
    | [] => r = None /\ st' = st
    | f :: others =>
        (exists i, r = Some (i, f)) /\
        levels st'
        = fold_left (merge_image T) others
                    (levels st ++ map (new_level T f) (dimensions f)) /\
        (lq = true ->
           exists d, last (dimensions f) = Some d /\
                     quickhash_dir st' = dir d) /\
        (lq = false -> quickhash_dir st' = quickhash_dir st) /\
        associated_images st' = associated_images st /\
        objective f <> None /\
        Forall (fun img => composable f img /\ consistent_resolutions f img)
               others
    end.
Proof.
  induction imgs as [|img imgs IH]; intros n st st' r H; simpl in H.
  - inv_ret. simpl. auto.
  - apply bind_Done in H as (first & st1 & H1 & H). simpl.
    destruct (main_brightfield img) eqn:Hmb.
    + apply main_image_step_first in H1
        as (-> & Hl & Hq1 & Hq2 & Ha & Hobj); [|exact Hmb].
      apply main_images_loop_later in H
        as (-> & Hl' & Hq' & Ha' & Hall); [|lia].
      rewrite Hl', Hq', Ha', Hl.
      repeat split; eauto.
    + rewrite main_image_step_skip in H1 by exact Hmb.
      inversion H1; subst first st1.
      apply IH in H. exact H.
Qed.

(** ** Level synthesis: the loop over the macro images *)

Lemma macro_image_step_skip (T : collaborators) (lq : bool) (img : image)
    (have : bool) (st : synth) :
  macro_brightfield img = false ->
  macro_image_step T lq img have st = (st, Done have).
Proof.
  unfold macro_brightfield, macro_image_step.
  destruct (is_macro img); [|reflexivity].
  destruct (not_brightfield img); [reflexivity|discriminate].
Qed.

Lemma macro_image_step_Done (T : collaborators) (lq : bool) (img : image)
    (have : bool) (st st' : synth) (r : bool) :
  macro_brightfield img = true ->
  macro_image_step T lq img have st = (st', Done r) ->
  have = false /\ r = true /\
  levels st' = levels st /\
  (lq = true -> quickhash_dir st' = quickhash_dir st) /\
  (lq = false ->
     exists d, last (dimensions img) = Some d /\ quickhash_dir st' = dir d).
Proof.
  unfold macro_brightfield, macro_image_step. intros Hmb H.
  destruct (is_macro img); [|discriminate].
  destruct (not_brightfield img); [discriminate|]. simpl in H.
  destruct have; [discriminate|].
  destruct (dimensions img !! 0%nat) as [largest|]; [|discriminate].
  destruct (tiff_add_associated_image T (dir largest)); [discriminate|].
  apply bind_Done in H as ([] & sta & H1 & H). inv_ret.
  apply bind_Done in H as ([] & stb & H2 & H). inv_ret.
  destruct lq; simpl in H2.
  - inv_ret. simpl. repeat split; auto. discriminate.
  - unfold last_dimension in H2.
    destruct (last (dimensions img)) as [d|]; [|discriminate]. inv_ret.
    simpl. repeat split; auto; [discriminate|]. eauto.
Qed.

Lemma macro_images_loop_Done (T : collaborators) (lq : bool)
    (imgs : list image) :
  forall (have : bool) (st st' : synth) (r : bool),
    macro_images_loop T lq imgs have st = (st', Done r) ->
    levels st' = levels st /\
    match List.filter macro_brightfield imgs with
    | [] => r = have /\ quickhash_dir st' = quickhash_dir st
    | m :: rest =>
        have = false /\ rest = [] /\ r = true /\
        (lq = true -> quickhash_dir st' = quickhash_dir st) /\
        (lq = false ->
           exists d, last (dimensions m) = Some d /\
                     quickhash_dir st' = dir d)
    end.
Proof.
  induction imgs as [|img imgs IH]; intros have st st' r H; simpl in H.
  - inv_ret. simpl. auto.
  - apply bind_Done in H as (have1 & st1 & H1 & H). simpl.
    destruct (macro_brightfield img) eqn:Hmb.
    + apply macro_image_step_Done in H1
        as (-> & -> & Hl & Hq1 & Hq2); [|exact Hmb].
      apply IH in H as (Hl' & Hrest).
      destruct (List.filter macro_brightfield imgs) as [|m rest].
      * destruct Hrest as (-> & Hq).
        rewrite Hl', Hl, Hq. repeat split; auto.
      * destruct Hrest as (Habs & _). discriminate.
    + rewrite macro_image_step_skip in H1 by exact Hmb.
      inversion H1; subst have1 st1.
      apply IH in H. exact H.
Qed.

Lemma macro_images_loop_none (T : collaborators) (lq : bool)
    (imgs : list image) (have : bool) (st : synth) :
  List.filter macro_brightfield imgs = [] ->
  macro_images_loop T lq imgs have st = (st, Done have).
Proof.
  induction imgs as [|img imgs IH]; intros H; simpl in *; [reflexivity|].
  destruct (macro_brightfield img) eqn:Hmb; [discriminate|].
  erewrite bind_eq_Done; [|now apply macro_image_step_skip]. now apply IH.
Qed.

(** ** Level synthesis: the levels built *)

Lemma fold_merge_image_length (T : collaborators) (others : list image) :
  forall ls : list level,
    length (fold_left (merge_image T) others ls) = length ls.
Proof.
  induction others as [|img others IH]; intros ls; simpl; [reflexivity|].
  rewrite IH. apply merge_levels_length.
Qed.

Lemma fold_merge_image_lookup (T : collaborators) (others : list image) :
  forall (ls : list level) (k : nat) (l : level),
    Forall (fun img => length (dimensions img) = length ls) others ->
    ls !! k = Some l ->
    exists vals l',
      densities_at k others vals /\
      fold_left (merge_image T) others ls !! k = Some l' /\
      base l' = base l /\
      clicks_per_pixel l' = fold_left Double.MIN vals (clicks_per_pixel l) /\
      map area_offsets (areas l')
      = map area_offsets (areas l) ++ map image_offsets others.
Proof.
  unfold densities_at.
  induction others as [|img others IH]; intros ls k l Hlen Hk.
  - exists [], l. simpl. rewrite app_nil_r. repeat split; auto.
  - apply Forall_cons_1 in Hlen as [Himg Hlen].
    assert (Hd : exists d, dimensions img !! k = Some d).
    { apply lookup_lt_is_Some. rewrite Himg.
      apply lookup_lt_is_Some. eauto. }
    destruct Hd as [d Hd].
    destruct (IH (merge_image T ls img) k (merge_level T img l d))
      as (vals & l' & Hvals & Hl' & Hb & Hc & Ha).
    { eapply List.Forall_impl; [|exact Hlen]. simpl. intros a ->.
      unfold merge_image. now rewrite merge_levels_length. }
    { unfold merge_image. now apply merge_levels_lookup. }
    exists (dim_clicks_per_pixel d :: vals), l'. simpl.
    split; [constructor; eauto|].
    split; [exact Hl'|].
    split; [exact Hb|].
    split; [exact Hc|].
    rewrite Ha. simpl. rewrite map_app, <- app_assoc. reflexivity.
Qed.

Lemma built_levels_lookup (T : collaborators) (f : image)
    (others : list image) (k : nat) (l : level) :
  Forall (fun img => composable f img) others ->
  built_levels T f others !! k = Some l ->
  exists vals,
    densities_at k (f :: others) vals /\
    base l = zero_base /\
    clicks_per_pixel l = fold_left Double.MIN (tail vals) (hd S754_nan vals) /\
    map area_offsets (areas l) = map image_offsets (f :: others).
Proof.
  unfold built_levels. intros Hcomp Hk.
  assert (Hlt : (k < length (dimensions f))%nat).
  { apply lookup_lt_Some in Hk.
    now rewrite fold_merge_image_length, length_map in Hk. }
  apply lookup_lt_is_Some in Hlt as [d Hd].
  destruct (fold_merge_image_lookup T others
              (map (new_level T f) (dimensions f)) k (new_level T f d))
    as (vals & l' & Hvals & Hl' & Hb & Hc & Ha).
  { eapply List.Forall_impl; [|exact Hcomp]. simpl.
    intros a (_ & _ & ->). now rewrite length_map. }
  { rewrite list_lookup_fmap, Hd. reflexivity. }
  rewrite Hk in Hl'. inversion Hl'; subst l'.
  exists (dim_clicks_per_pixel d :: vals). simpl.
  split; [constructor; eauto|].
  repeat split; auto.
Qed.

Lemma check_quickhash_dir_Done (st st' : synth) :
  check_quickhash_dir st = (st', Done tt) ->
  st' = st /\ quickhash_dir st <> -1.
Proof.
  unfold check_quickhash_dir.
  destruct (Z.eqb_spec (quickhash_dir st) (-1)); [discriminate|].
  intros H. inversion H; subst. auto.
Qed.

(** What a successful synthesis has done. *)
Lemma create_levels_from_collection_Done (T : collaborators)
    (osr : option (gmap string string)) (c : collection) (st : synth) :
  create_levels_from_collection T osr c [] = (st, Done tt) ->
  exists f others,
    main_images c = f :: others /\
    levels st = map (set_level_size T c) (built_levels T f others) /\
    Forall (fun img => composable f img /\ consistent_resolutions f img)
           others /\
    objective f <> None /\
    quickhash_dir st <> -1 /\
    (should_use_legacy_quickhash c = true ->
       exists d, last (dimensions f) = Some d /\ quickhash_dir st = dir d) /\
    (should_use_legacy_quickhash c = false ->
       exists m d, macro_images c = [m] /\
                   last (dimensions m) = Some d /\
                   quickhash_dir st = dir d).
Proof.
  unfold create_levels_from_collection, main_images, macro_images.
  intros H.
  apply bind_Done in H as (first & st1 & H1 & H).
  apply main_images_loop_first in H1.
  destruct (List.filter main_brightfield (images c)) as [|f others].
  { destruct H1 as [-> _]. discriminate. }
  destruct H1 as ([i ->] & Hl & Hq1 & Hq2 & Ha & Hobj & Hall).
  apply bind_Done in H as ([] & st2 & H2 & H). inv_ret.
  apply bind_Done in H as (have & st3 & H3 & H).
  apply check_quickhash_dir_Done in H as [-> Hq].
  apply macro_images_loop_Done in H3 as (Hl3 & Hmac). simpl in Hl3, Hmac, Hl.
  exists f, others.
  split; [reflexivity|].
  split; [rewrite Hl3, Hl; reflexivity|].
  split; [exact Hall|].
  split; [exact Hobj|].
  split; [exact Hq|].
  destruct (should_use_legacy_quickhash c).
  - split; [|discriminate]. intros _.
    destruct (Hq1 eq_refl) as (d & Hd & Hqd). exists d. split; [exact Hd|].
    destruct (List.filter macro_brightfield (images c)) as [|m rest].
    + destruct Hmac as (_ & ->). exact Hqd.
    + destruct Hmac as (_ & _ & _ & Hsame & _). now rewrite Hsame.
  - split; [discriminate|]. intros _.
    destruct (List.filter macro_brightfield (images c)) as [|m rest].
    + destruct Hmac as (_ & Hsame). rewrite Hsame, Hq2 in Hq by reflexivity.
      simpl in Hq. congruence.
    + destruct Hmac as (_ & -> & _ & _ & Hd).
      destruct (Hd eq_refl) as (d & Hd1 & Hd2). eauto.
Qed.

(** ** Level synthesis: what it guarantees *)

Lemma descending_width_last (dims : list dimension) (d : dimension) :
  descending_width dims -> last dims = Some d ->
  Forall (fun d' => width d <= width d') dims.
Proof.
  unfold descending_width. intros Hs. revert d.
  induction Hs as [|x l Hs IH Hx]; intros d Hlast; [constructor|].
  destruct l as [|y l].
  - simpl in Hlast. inversion Hlast; subst. repeat constructor. lia.
  - rewrite last_cons_cons in Hlast. specialize (IH d Hlast).
    constructor; [|exact IH].
    rewrite List.Forall_forall in Hx.
    assert (Hin : In d (y :: l)).
    { apply list_elem_of_In. apply last_Some_elem_of. exact Hlast. }
    specialize (Hx d Hin). lia.
Qed.

Lemma create_levels_from_collection_unfold (T : collaborators)
    (osr : option (gmap string string)) (c : collection)
    (levels0 : list level) :
  create_levels_from_collection T osr c levels0
  = bind (main_images_loop T (should_use_legacy_quickhash c) (images c) 0
                           None)
         (fun first =>
            match first with
            | None => fail (BadData "Can't find main image")
            | Some _ =>
                bind (modify (with_levels (map (set_level_size T c))))
                  (fun _ =>
                     bind (macro_images_loop T
                             (should_use_legacy_quickhash c) (images c)
                             false)
                          (fun _ => check_quickhash_dir))
            end)
         (initial_synth osr c levels0).
Proof. reflexivity. Qed.

(** C2.  When level synthesis succeeds, [quickhash_dir] is set.  In
    legacy mode it is the directory of the last dimension of the first
    main image kept; otherwise the collection has exactly one brightfield
    macro image and [quickhash_dir] is the directory of its last
    dimension.  In both cases, when the dimensions are sorted wider first
    (as the parser leaves them) no dimension of that image is narrower
    than the one chosen.  When the mode is not legacy and there is no
    brightfield macro image, so that no rule sets [quickhash_dir],
    synthesis never succeeds, and once the main images have been
    processed it fails with BadData, "Couldn't locate TIFF directory for
    quickhash". *)
Theorem quickhash_dir_chosen (T : collaborators)
    (osr : option (gmap string string)) (c : collection) (st : synth)
    (r : outcome unit) :
  create_levels_from_collection T osr c [] = (st, r) ->
  (r = Done tt ->
     quickhash_dir st <> -1 /\
     (should_use_legacy_quickhash c = true ->
        exists f d,
          head (main_images c) = Some f /\
          last (dimensions f) = Some d /\
          quickhash_dir st = dir d /\
          (descending_width (dimensions f) ->
           Forall (fun d' => width d <= width d') (dimensions f))) /\
     (should_use_legacy_quickhash c = false ->
        exists m d,
          macro_images c = [m] /\
          last (dimensions m) = Some d /\
          quickhash_dir st = dir d /\
          (descending_width (dimensions m) ->
           Forall (fun d' => width d <= width d') (dimensions m)))) /\
  (should_use_legacy_quickhash c = false -> macro_images c = [] ->
     r <> Done tt /\
     forall sta first,
       main_images_loop T false (images c) 0 None (initial_synth osr c [])
       = (sta, Done (Some first)) ->
       r = Failed NO_QUICKHASH_DIR).
Proof.
  intros Hrun. split.
  - intros ->. apply create_levels_from_collection_Done in Hrun
      as (f & others & Hmain & _ & _ & _ & Hq & Hleg & Hnew).
    split; [exact Hq|]. split.
    + intros Hl. destruct (Hleg Hl) as (d & Hd & Hqd).
      exists f, d. rewrite Hmain. repeat split; auto.
      intros Hs. now apply descending_width_last.
    + intros Hl. destruct (Hnew Hl) as (m & d & Hm & Hd & Hqd).
      exists m, d. repeat split; auto.
      intros Hs. now apply descending_width_last.
  - intros Hl Hmac. split.
    + intros ->. apply create_levels_from_collection_Done in Hrun
        as (f & others & _ & _ & _ & _ & _ & _ & Hnew).
      destruct (Hnew Hl) as (m & d & Hm & _). congruence.
    + intros sta first Hloop.
      rewrite create_levels_from_collection_unfold, Hl in Hrun.
      rewrite (bind_eq_Done _ _ _ _ _ Hloop) in Hrun.
      unfold bind at 1 in Hrun. unfold modify in Hrun.
      unfold macro_images in Hmac.
      rewrite (bind_eq_Done _ _ _ _ _
                 (macro_images_loop_none T false (images c) false _ Hmac))
        in Hrun.
      apply main_images_loop_first in Hloop.
      destruct (List.filter main_brightfield (images c)) as [|f others];
        [destruct Hloop; discriminate|].
      destruct Hloop as (_ & _ & _ & Hq & _).
      specialize (Hq eq_refl). simpl in Hq.
      unfold check_quickhash_dir in Hrun. simpl in Hrun.
      rewrite Hq in Hrun. simpl in Hrun. inversion Hrun. reflexivity.
Qed.

(** C3, as the code has it.  After [create_levels_from_collection]
    succeeds there is one level for each dimension of the first main
    image kept.  The click density of level [k] is [MIN] folded over the
    click densities of dimension [k] of the main images kept, in their
    order; when none of these densities is NaN it is their minimum.  The
    width and the height of the level are [ceil(clicks_across /
    clicks_per_pixel)] and [ceil(clicks_down / clicks_per_pixel)],
    computed in [double] from this density and converted to
    [int64_t]. *)
Theorem level_click_density_and_size (T : collaborators)
    (osr : option (gmap string string)) (c : collection) (st : synth) :
  create_levels_from_collection T osr c [] = (st, Done tt) ->
  (exists f, head (main_images c) = Some f /\
             length (levels st) = length (dimensions f)) /\
  forall k l,
    levels st !! k = Some l ->
    (exists vals,
       densities_at k (main_images c) vals /\
       clicks_per_pixel l
       = fold_left Double.MIN (tail vals) (hd S754_nan vals) /\
       (no_nan vals -> is_minimum (clicks_per_pixel l) vals)) /\
    w (base l) = level_size T (clicks_across c) l /\
    h (base l) = level_size T (clicks_down c) l.
Proof.
  intros Hrun. apply create_levels_from_collection_Done in Hrun
    as (f & others & Hmain & Hlev & Hall & _).
  rewrite Hmain, Hlev. split.
  - exists f. split; [reflexivity|].
    rewrite length_map. unfold built_levels.
    now rewrite fold_merge_image_length, length_map.
  - intros k l Hk. rewrite list_lookup_fmap in Hk.
    destruct (built_levels T f others !! k) as [l0|] eqn:Hk0;
      [|discriminate].
    inversion Hk; subst l; clear Hk.
    split; [|split; reflexivity].
    destruct (built_levels_lookup T f others k l0) as (vals & Hv & _ & Hc & _).
    { eapply List.Forall_impl; [|exact Hall]. simpl. tauto. }
    { exact Hk0. }
    exists vals. split; [exact Hv|]. simpl. split; [exact Hc|].
    intros Hnan. rewrite Hc.
    destruct vals as [|v vals]; [inversion Hv|]. simpl.
    now apply fold_MIN_is_minimum.
Qed.

(** The areas of a level: one for each main image kept, with the click
    offsets of the image. *)
Lemma area_offsets_are_image_offsets (T : collaborators)
    (osr : option (gmap string string)) (c : collection) (st : synth)
    (l : level) :
  create_levels_from_collection T osr c [] = (st, Done tt) ->
  In l (levels st) ->
  map area_offsets (areas l) = map image_offsets (main_images c).
Proof.
  intros Hrun Hin. apply create_levels_from_collection_Done in Hrun
    as (f & others & Hmain & Hlev & Hall & _).
  rewrite Hmain. rewrite Hlev in Hin.
  apply list_elem_of_In, list_elem_of_lookup in Hin as [k Hk].
  rewrite list_lookup_fmap in Hk.
  destruct (built_levels T f others !! k) as [l0|] eqn:Hk0; [|discriminate].
  inversion Hk; subst l; clear Hk. simpl.
  destruct (built_levels_lookup T f others k l0) as (vals & _ & _ & _ & Ha).
  { eapply List.Forall_impl; [|exact Hall]. simpl. tauto. }
  { exact Hk0. }
  exact Ha.
Qed.

Lemma bind_assoc {A B C : Type} (m : Synth A) (k1 : A -> Synth B)
    (k2 : B -> Synth C) (st : synth) :
  bind (bind m k1) k2 st = bind m (fun a => bind (k1 a) k2) st.
Proof.
  unfold bind. destruct (m st) as [st1 [a|e| |]]; reflexivity.
Qed.

Lemma bind_ext {A B : Type} (m : Synth A) (k k' : A -> Synth B)
    (st : synth) :
  (forall a st1, k a st1 = k' a st1) -> bind m k st = bind m k' st.
Proof.
  intros H. unfold bind. destruct (m st) as [st1 [a|e| |]]; auto.
Qed.

Lemma main_images_loop_app (T : collaborators) (lq : bool)
    (pre rest : list image) :
  forall (n : nat) (first : option (nat * image)) (st : synth),
    main_images_loop T lq (pre ++ rest) n first st
    = bind (main_images_loop T lq pre n first)
           (fun first' =>
              main_images_loop T lq rest (n + length pre) first')
           st.
Proof.
  induction pre as [|img pre IH]; intros n first st; simpl.
  - unfold bind, ret. now rewrite Nat.add_0_r.
  - rewrite bind_assoc. apply bind_ext. intros a st1.
    rewrite IH. rewrite Nat.add_succ_r. reflexivity.
Qed.

Lemma main_image_step_result (T : collaborators) (lq : bool) (n : nat)
    (img : image) (first r : option (nat * image)) (st st' : synth) :
  main_image_step T lq n img first st = (st', Done r) ->
  r = first \/
  (first = None /\ r = Some (n, img) /\
   main_brightfield img = true /\ objective img <> None).
Proof.
  intros H. destruct (main_brightfield img) eqn:Hmb.
  - destruct first as [[i f]|].
    + left. unfold main_brightfield, main_image_step in *.
      destruct (is_macro img); [discriminate|].
      destruct (not_brightfield img); [discriminate|].
      apply bind_Done in H as (a & sta & Ha & H). inv_ret.
      apply bind_Done in H as ([] & stb & _ & H).
      apply bind_Done in H as ([] & stc & _ & H).
      apply bind_Done in H as ([] & std & _ & H). now inv_ret.
    + right. apply main_image_step_first in H as (-> & _ & _ & _ & _ & Ho);
        auto.
  - left. rewrite main_image_step_skip in H by exact Hmb.
    now inversion H.
Qed.

Lemma main_images_loop_index (T : collaborators) (lq : bool)
    (imgs : list image) :
  forall (n : nat) (first : option (nat * image)) (st st' : synth)
         (i : nat) (f : image),
    main_images_loop T lq imgs n first st = (st', Done (Some (i, f))) ->
    first = Some (i, f) \/
    (first = None /\ (n <= i < n + length imgs)%nat /\
     main_brightfield f = true /\ objective f <> None).
Proof.
  induction imgs as [|img imgs IH]; intros n first st st' i f H; simpl in H.
  - inv_ret. now left.
  - apply bind_Done in H as (first1 & st1 & H1 & H).
    apply IH in H. apply main_image_step_result in H1.
    simpl length.
    destruct H as [-> | (-> & Hi & Hf & Ho)].
    + destruct H1 as [<- | (-> & Hr & Hmb & Ho)]; [now left|].
      right. inversion Hr; subst. repeat split; auto; lia.
    + destruct H1 as [<- | (_ & Hr & _)]; [|discriminate].
      right. repeat split; auto; lia.
Qed.

Lemma not_brightfield_false (img : image) :
  not_brightfield img = false ->
  illumination_source img = Some LEICA_VALUE_BRIGHTFIELD.
Proof.
  unfold not_brightfield.
  destruct (illumination_source img) as [s|]; [|discriminate].
  destruct (String.eqb_spec s LEICA_VALUE_BRIGHTFIELD); [|discriminate].
  now subst.
Qed.

Lemma main_brightfield_true (img : image) :
  main_brightfield img = true ->
  is_macro img = false /\ not_brightfield img = false.
Proof.
  unfold main_brightfield. rewrite andb_true_iff, !negb_true_iff. tauto.
Qed.

Lemma main_image_step_dissimilar (T : collaborators) (lq : bool) (n i : nat)
    (img f : image) (st : synth) :
  main_brightfield img = true -> main_brightfield f = true ->
  objective img <> None -> objective f <> None ->
  ~ composable f img ->
  main_image_step T lq n img (Some (i, f)) st
  = (st, Failed DISSIMILAR_MAIN_IMAGES).
Proof.
  intros Himg Hf Ho1 Ho2 Hnc.
  apply main_brightfield_true in Himg as [Hm1 Hb1].
  apply main_brightfield_true in Hf as [Hm2 Hb2].
  unfold main_image_step. rewrite Hm1, Hb1.
  apply not_brightfield_false in Hb1, Hb2.
  unfold composable in Hnc. rewrite Hb1, Hb2 in Hnc.
  unfold bind at 1. unfold ret at 1. simpl fst. simpl snd.
  unfold bind at 1. unfold check_similar.
  rewrite Hb1, Hb2. simpl strcmp.
  destruct (objective img) as [o1|]; [|congruence].
  destruct (objective f) as [o2|]; [|congruence].
  simpl. destruct (String.eqb_spec o1 o2) as [->|Hne]; simpl;
    [|reflexivity].
  destruct (Nat.eqb_spec (length (dimensions img)) (length (dimensions f)));
    [|reflexivity].
  exfalso. apply Hnc. auto.
Qed.

Lemma leb_c0_98_refl : Double.leb Double.c0_98 Double.c0_98 = true.
Proof. reflexivity. Qed.

(** One dimension of a main image that is not the first: the click
    density of level [k] is minimized first, and the resolution
    similarity is compared with [0.98] afterwards. *)
Lemma level_of_dimension_threshold (T : collaborators)
    (fimg img : image) (k : nat) (d fd : dimension) (rest : list dimension)
    (l : level) (st : synth) :
  levels st !! k = Some l ->
  dimensions fimg !! k = Some fd ->
  levels (with_levels (alter (minimize_click_density d) k) st) !! k
  = Some (mkLevel (base l)
            (Double.MIN (clicks_per_pixel l) (dim_clicks_per_pixel d))
            (areas l)) /\
  (Double.leb Double.c0_98 (resolution_similarity d fd) = true ->
     level_of_dimension false fimg k d st
     = (with_levels (alter (minimize_click_density d) k) st, Done k) /\
     dimensions_loop T false fimg img (d :: rest) k st
     = bind (create_area T k img d)
            (fun _ => dimensions_loop T false fimg img rest (S k))
            (with_levels (alter (minimize_click_density d) k) st)) /\
  (resolution_similarity d fd = Double.c0_98 ->
     level_of_dimension false fimg k d st
     = (with_levels (alter (minimize_click_density d) k) st, Done k)) /\
  (Double.ltb (resolution_similarity d fd) Double.c0_98 = true ->
     level_of_dimension false fimg k d st
     = (with_levels (alter (minimize_click_density d) k) st,
        Failed INCONSISTENT_RESOLUTIONS) /\
     dimensions_loop T false fimg img (d :: rest) k st
     = (with_levels (alter (minimize_click_density d) k) st,
        Failed INCONSISTENT_RESOLUTIONS)).
Proof.
  intros Hk Hfk.
  assert (Hacc : Double.leb Double.c0_98 (resolution_similarity d fd) = true ->
     level_of_dimension false fimg k d st
     = (with_levels (alter (minimize_click_density d) k) st, Done k)).
  { intros Hle. apply leb_true_ltb_false in Hle.
    unfold level_of_dimension. now rewrite Hk, Hfk, Hle. }
  assert (Hrej : Double.ltb (resolution_similarity d fd) Double.c0_98 = true ->
     level_of_dimension false fimg k d st
     = (with_levels (alter (minimize_click_density d) k) st,
        Failed INCONSISTENT_RESOLUTIONS)).
  { intros Hlt. unfold level_of_dimension. now rewrite Hk, Hfk, Hlt. }
  split.
  { simpl. rewrite list_lookup_alter_eq, Hk. reflexivity. }
  split.
  { intros Hle. split; [now apply Hacc|].
    simpl dimensions_loop. now rewrite (bind_eq_Done _ _ _ _ _ (Hacc Hle)). }
  split.
  { intros Heq. apply Hacc. rewrite Heq. apply leb_c0_98_refl. }
  intros Hlt. split; [now apply Hrej|].
  simpl dimensions_loop. now rewrite (bind_eq_Failed _ _ _ _ _ (Hrej Hlt)).
Qed.

(** The check of lines 565-573 when the objectives are there.  Among the
    main images kept, an image after the first that differs from the
    first in illumination source, in objective or in number of
    dimensions keeps level synthesis from succeeding; when the loop
    reaches such an image (the images before it having been processed,
    and the image having an objective) synthesis fails there with
    BadData, "Slides with dissimilar main images are not supported".
    When synthesis succeeds, all the main images kept agree with the
    first, and so with each other, on the three attributes. *)
Theorem dissimilar_main_images_rejected (T : collaborators)
    (osr : option (gmap string string)) (c : collection) (st : synth)
    (r : outcome unit) :
  create_levels_from_collection T osr c [] = (st, r) ->
  (forall f others,
     main_images c = f :: others ->
     Exists (fun img => ~ composable f img) others ->
     r <> Done tt) /\
  (forall pre img post sta i f,
     images c = pre ++ img :: post ->
     main_images_loop T (should_use_legacy_quickhash c) pre 0 None
                      (initial_synth osr c [])
     = (sta, Done (Some (i, f))) ->
     main_brightfield img = true ->
     objective img <> None ->
     ~ composable f img ->
     st = sta /\ r = Failed DISSIMILAR_MAIN_IMAGES) /\
  (r = Done tt ->
     exists f others,
       main_images c = f :: others /\
       Forall (composable f) others /\
       forall a b, In a (main_images c) -> In b (main_images c) ->
         illumination_source a = illumination_source b /\
         objective a = objective b /\
         length (dimensions a) = length (dimensions b)).
Proof.
  intros Hrun. split; [|split].
  - intros f others Hmain Hex ->.
    apply create_levels_from_collection_Done in Hrun
      as (f' & others' & Hmain' & _ & Hall & _).
    rewrite Hmain in Hmain'. inversion Hmain'; subst f' others'.
    apply List.Exists_exists in Hex as (img & Hin & Hnc).
    rewrite List.Forall_forall in Hall. apply Hnc. now apply Hall.
  - intros pre img post sta i f Himgs Hpre Hmb Hobj Hnc.
    rewrite create_levels_from_collection_unfold, Himgs in Hrun.
    unfold bind at 1 in Hrun.
    rewrite main_images_loop_app in Hrun.
    rewrite (bind_eq_Done _ _ _ _ _ Hpre) in Hrun.
    apply main_images_loop_index in Hpre
      as [Habs | (_ & Hi & Hf & Hof)]; [discriminate|].
    simpl main_images_loop in Hrun.
    rewrite (bind_eq_Failed _ _ _ _ _
               (main_image_step_dissimilar T _ _ i img f sta
                  Hmb Hf Hobj Hof Hnc)) in Hrun.
    inversion Hrun. auto.
  - intros ->.
    apply create_levels_from_collection_Done in Hrun
      as (f & others & Hmain & _ & Hall & _).
    exists f, others. split; [exact Hmain|].
    assert (Hcomp : Forall (composable f) others).
    { eapply List.Forall_impl; [|exact Hall]. simpl. tauto. }
    split; [exact Hcomp|].
    assert (Hf : forall a, In a (main_images c) -> composable f a).
    { rewrite Hmain. intros a [<- | Hin]; [repeat split|].
      rewrite List.Forall_forall in Hcomp. now apply Hcomp. }
    intros a b Ha Hb.
    destruct (Hf a Ha) as (Ha1 & Ha2 & Ha3).
    destruct (Hf b Hb) as (Hb1 & Hb2 & Hb3).
    repeat split; congruence.
Qed.

(** ** Level synthesis: a resolution check that fails *)

Lemma dimensions_loop_app (T : collaborators) (b : bool) (f img : image)
    (dpre drest : list dimension) :
  forall (k : nat) (st : synth),
    dimensions_loop T b f img (dpre ++ drest) k st
    = bind (dimensions_loop T b f img dpre k)
           (fun _ => dimensions_loop T b f img drest (k + length dpre))
           st.
Proof.
  induction dpre as [|d dpre IH]; intros k st; simpl.
  - unfold bind, ret. now rewrite Nat.add_0_r.
  - rewrite bind_assoc. apply bind_ext. intros l st1.
    rewrite bind_assoc. apply bind_ext. intros [] st2.
    rewrite IH. rewrite Nat.add_succ_r. reflexivity.
Qed.

Lemma check_similar_composable (img f : image) (st : synth) :
  main_brightfield img = true ->
  composable f img -> objective img <> None ->
  check_similar img f st = (st, Done tt).
Proof.
  intros Hmb (H1 & H2 & H3) Ho. unfold check_similar, strcmp.
  rewrite <- H1, <- H2, <- H3.
  apply main_brightfield_true in Hmb as [_ Hbf].
  rewrite (not_brightfield_false img Hbf).
  rewrite String.eqb_refl. simpl.
  destruct (objective img) as [o|]; [|congruence].
  rewrite String.eqb_refl, Nat.eqb_refl. reflexivity.
Qed.

Lemma main_images_loop_first_length (T : collaborators) (lq : bool)
    (imgs : list image) (n : nat) (st st' : synth) (i : nat) (f : image) :
  levels st = [] ->
  main_images_loop T lq imgs n None st = (st', Done (Some (i, f))) ->
  length (levels st') = length (dimensions f).
Proof.
  intros Hnil H. apply main_images_loop_first in H.
  destruct (List.filter main_brightfield imgs) as [|f' others].
  - destruct H as [H _]. discriminate.
  - destruct H as ([i' Hi] & Hl & _). inversion Hi; subst i' f'.
    rewrite Hl, Hnil, fold_merge_image_length. simpl.
    apply length_map.
Qed.

(** When the loop over the images has reached a main image [img] that
    passes the check against the first main image [f], and the loop over
    its dimensions has reached a dimension [d] whose resolution
    similarity with the dimension of [f] at the same place is below
    [0.98], synthesis fails with BadData, "Inconsistent main image
    resolutions"; the level of the dimension has by then its click
    density minimized. *)
Lemma inconsistent_resolutions_fail_synthesis (T : collaborators)
    (osr : option (gmap string string)) (c : collection)
    (pre post : list image) (img f : image) (i : nat) (sta stb : synth)
    (dpre drest : list dimension) (d fd : dimension) :
  images c = pre ++ img :: post ->
  main_images_loop T (should_use_legacy_quickhash c) pre 0 None
                   (initial_synth osr c [])
  = (sta, Done (Some (i, f))) ->
  main_brightfield img = true ->
  composable f img -> objective img <> None ->
  dimensions img = dpre ++ d :: drest ->
  dimensions_loop T false f img dpre 0 sta = (stb, Done tt) ->
  dimensions f !! length dpre = Some fd ->
  Double.ltb (resolution_similarity d fd) Double.c0_98 = true ->
  create_levels_from_collection T osr c []
  = (with_levels (alter (minimize_click_density d) (length dpre)) stb,
     Failed INCONSISTENT_RESOLUTIONS).
Proof.
  intros Himgs Hpre Hmb Hcomp Hobj Hdims Hdpre Hfd Hlt.
  assert (Hlen : length (levels sta) = length (dimensions f)).
  { eapply main_images_loop_first_length; [|exact Hpre]. reflexivity. }
  assert (Hi : (i < length pre)%nat).
  { apply main_images_loop_index in Hpre as [Habs | (_ & Hi & _)];
      [discriminate|lia]. }
  assert (Hk : exists l, levels stb !! length dpre = Some l).
  { apply lookup_lt_is_Some.
    apply dimensions_loop_later in Hdpre as (Hl & _).
    rewrite Hl, length_app, merge_levels_length, drop_0. simpl.
    rewrite Hlen.
    apply lookup_lt_Some in Hfd. exact Hfd. }
  destruct Hk as [l Hk].
  rewrite create_levels_from_collection_unfold, Himgs.
  unfold bind at 1. rewrite main_images_loop_app.
  rewrite (bind_eq_Done _ _ _ _ _ Hpre).
  simpl main_images_loop.
  assert (Hstep : main_image_step T (should_use_legacy_quickhash c)
                    (0 + length pre) img (Some (i, f)) sta
                  = (with_levels
                       (alter (minimize_click_density d) (length dpre)) stb,
                     Failed INCONSISTENT_RESOLUTIONS)).
  { unfold main_image_step.
    apply main_brightfield_true in Hmb as [Hm Hb]. rewrite Hm, Hb.
    unfold bind at 1. unfold ret at 1. cbn [fst snd].
    rewrite (bind_eq_Done _ _ _ _ _
               (check_similar_composable img f sta
                  (proj2 (andb_true_iff _ _)
                     (conj (proj2 (negb_true_iff _) Hm)
                           (proj2 (negb_true_iff _) Hb)))
                  Hcomp Hobj)).
    assert (Hn : Nat.eqb (0 + length pre) i = false)
      by (apply Nat.eqb_neq; lia).
    rewrite Hn, Hdims.
    apply bind_eq_Failed. rewrite dimensions_loop_app.
    rewrite (bind_eq_Done _ _ _ _ _ Hdpre). simpl dimensions_loop.
    apply bind_eq_Failed. unfold level_of_dimension.
    cbn [Nat.add]. rewrite Hk, Hfd, Hlt. reflexivity. }
  rewrite (bind_eq_Failed _ _ _ _ _ Hstep). reflexivity.
Qed.

(** ** Level synthesis: where the error of the resolution check comes
       from *)

Lemma bind_Failed {A B : Type} (m : Synth A) (k : A -> Synth B)
    (st st' : synth) (e : GError) :
  bind m k st = (st', Failed e) ->
  m st = (st', Failed e) \/
  exists a st1, m st = (st1, Done a) /\ k a st1 = (st', Failed e).
Proof.
  unfold bind. destruct (m st) as [st1 [a|e1| |]]; intros H;
    try discriminate; [right; eauto|left; now inversion H].
Qed.

Lemma create_area_not_inconsistent (T : collaborators) (l : nat)
    (img : image) (d : dimension) (st st' : synth) :
  decoder_errors_are_its_own T ->
  create_area T l img d st <> (st', Failed INCONSISTENT_RESOLUTIONS).
Proof.
  intros [Hown _] H. unfold create_area in H.
  destruct (tiff_level_init T (dir d)) as [t|e] eqn:Ht.
  - destruct (tiff_get_compression T (dir d)) as [compression|];
      [|discriminate].
    destruct (tiff_codec_configured T compression); discriminate.
  - inversion H; subst e. now apply (Hown (dir d) INCONSISTENT_RESOLUTIONS).
Qed.

(** The loop over the dimensions fails with the error of the resolution
    check only at a dimension of a later image whose similarity is below
    the threshold, and leaves the level of that dimension minimized. *)
Lemma dimensions_loop_inconsistent (T : collaborators) (b : bool)
    (f img : image) (dims : list dimension) :
  forall (n : nat) (st st' : synth),
    decoder_errors_are_its_own T ->
    dimensions_loop T b f img dims n st
    = (st', Failed INCONSISTENT_RESOLUTIONS) ->
    b = false /\
    exists j d fd l,
      dims !! j = Some d /\
      dimensions f !! (n + j)%nat = Some fd /\
      Double.ltb (resolution_similarity d fd) Double.c0_98 = true /\
      levels st' !! (n + j)%nat = Some (minimize_click_density d l).
Proof.
  induction dims as [|d dims IH]; intros n st st' Hown H; simpl in H.
  - discriminate.
  - apply bind_Failed in H as [H | (l & st1 & _ & H)].
    + unfold level_of_dimension in H.
      destruct b; [discriminate|]. split; [reflexivity|].
      destruct (levels st !! n) as [l|] eqn:Hl; [|discriminate].
      destruct (dimensions f !! n) as [fd|] eqn:Hfd; [|discriminate].
      destruct (Double.ltb (resolution_similarity d fd) Double.c0_98)
        eqn:Hlt; [|discriminate].
      inversion H; subst st'; clear H.
      exists 0%nat, d, fd, l. rewrite Nat.add_0_r.
      repeat split; auto. simpl.
      rewrite list_lookup_alter_eq, Hl. reflexivity.
    + apply bind_Failed in H as [H | ([] & st2 & _ & H)].
      * exfalso. eapply create_area_not_inconsistent; eauto.
      * apply IH in H as (Hb & j & d' & fd & l' & Hd & Hfd & Hlt & Hl);
          [|exact Hown].
        split; [exact Hb|]. exists (S j), d', fd, l'.
        rewrite Nat.add_succ_r. auto.
Qed.

Lemma main_image_step_inconsistent (T : collaborators) (lq : bool)
    (n : nat) (img : image) (first : option (nat * image))
    (st st' : synth) :
  decoder_errors_are_its_own T ->
  main_image_step T lq n img first st
  = (st', Failed INCONSISTENT_RESOLUTIONS) ->
  main_brightfield img = true /\
  exists i f k d fd l,
    first = Some (i, f) /\
    dimensions img !! k = Some d /\
    dimensions f !! k = Some fd /\
    Double.ltb (resolution_similarity d fd) Double.c0_98 = true /\
    levels st' !! k = Some (minimize_click_density d l).
Proof.
  intros Hown H. unfold main_image_step, main_brightfield in *.
  destruct (is_macro img); [discriminate|].
  destruct (not_brightfield img); [discriminate|].
  split; [reflexivity|].
  apply bind_Failed in H as [H | ([i f] & st1 & H1 & H)].
  { destruct first as [[i f]|]; [discriminate|].
    apply bind_Failed in H as [H | ([] & st1 & _ & H)]; discriminate. }
  apply bind_Failed in H as [H | ([] & st2 & _ & H)].
  { exfalso. unfold check_similar in H. cbn [snd] in H.
    destruct (strcmp (illumination_source img) (illumination_source f))
      as [[]|]; try discriminate.
    destruct (strcmp (objective img) (objective f)) as [[]|];
      try discriminate.
    destruct (Nat.eqb _ _); discriminate. }
  apply bind_Failed in H as [H | ([] & st3 & _ & H)].
  - cbn [fst snd] in H.
    apply dimensions_loop_inconsistent in H
      as (Hb & k & d & fd & l & Hd & Hfd & Hlt & Hl); [|exact Hown].
    destruct first as [[i' f']|].
    + unfold ret in H1. inversion H1; subst i' f' st1.
      exists i, f, k, d, fd, l. auto.
    + apply bind_Done in H1 as ([] & st0 & _ & H1).
      unfold ret in H1. inversion H1; subst i f st0.
      cbn [fst] in Hb. rewrite Nat.eqb_refl in Hb. discriminate.
  - exfalso.
    apply bind_Failed in H as [H | ([] & st4 & _ & H)]; [|discriminate].
    destruct (lq && Nat.eqb n (fst (i, f))); [|discriminate].
    destruct (last_dimension (dimensions img)); discriminate.
Qed.

Lemma main_images_loop_inconsistent (T : collaborators) (lq : bool)
    (imgs : list image) :
  forall (n : nat) (first : option (nat * image)) (st st' : synth),
    decoder_errors_are_its_own T ->
    main_images_loop T lq imgs n first st
    = (st', Failed INCONSISTENT_RESOLUTIONS) ->
    exists f img k d fd l,
      match first with
      | Some (_, f0) =>
          f = f0 /\ In img (List.filter main_brightfield imgs)
      | None =>
          exists others,
            List.filter main_brightfield imgs = f :: others /\
            In img others
      end /\
      dimensions img !! k = Some d /\
      dimensions f !! k = Some fd /\
      Double.ltb (resolution_similarity d fd) Double.c0_98 = true /\
      levels st' !! k = Some (minimize_click_density d l).
Proof.
  induction imgs as [|img imgs IH]; intros n first st st' Hown H;
    simpl in H; [discriminate|].
  apply bind_Failed in H as [H | (first1 & st1 & H1 & H)].
  - apply main_image_step_inconsistent in H
      as (Hmb & i & f & k & d & fd & l & -> & Hd & Hfd & Hlt & Hl);
      [|exact Hown].
    exists f, img, k, d, fd, l. simpl. rewrite Hmb.
    repeat split; auto. now left.
  - apply IH in H as (f & img' & k & d & fd & l & Hfirst & Hrest);
      [|exact Hown].
    exists f, img', k, d, fd, l. split; [|exact Hrest].
    simpl. destruct (main_brightfield img) eqn:Hmb.
    + destruct first as [[i0 f0]|].
      * apply main_image_step_result in H1 as [-> | (Habs & _)];
          [|discriminate].
        destruct Hfirst as [-> Hin]. split; [reflexivity|now right].
      * apply main_image_step_first in H1 as (-> & _); [|exact Hmb].
        destruct Hfirst as [-> Hin]. eauto.
    + rewrite main_image_step_skip in H1 by exact Hmb.
      inversion H1; subst first1 st1. exact Hfirst.
Qed.

Lemma macro_images_loop_not_inconsistent (T : collaborators) (lq : bool)
    (imgs : list image) :
  forall (have : bool) (st st' : synth),
    decoder_errors_are_its_own T ->
    macro_images_loop T lq imgs have st
    <> (st', Failed INCONSISTENT_RESOLUTIONS).
Proof.
  induction imgs as [|img imgs IH]; intros have st st' Hown H; simpl in H;
    [discriminate|].
  apply bind_Failed in H as [H | (have1 & st1 & _ & H)];
    [|now apply IH in H].
  unfold macro_image_step in H.
  destruct (negb (is_macro img)); [discriminate|].
  destruct (not_brightfield img); [discriminate|].
  destruct have; [discriminate|].
  destruct (dimensions img !! 0%nat) as [largest|]; [|discriminate].
  destruct (tiff_add_associated_image T (dir largest)) as [e|] eqn:Hadd.
  - inversion H; subst e.
    now apply (proj2 Hown (dir largest) INCONSISTENT_RESOLUTIONS).
  - apply bind_Failed in H as [H | ([] & st2 & _ & H)]; [discriminate|].
    apply bind_Failed in H as [H | ([] & st3 & _ & H)]; [|discriminate].
    destruct (negb lq); [|discriminate].
    destruct (last_dimension (dimensions img)); discriminate.
Qed.

(** Synthesis fails with the error of the resolution check only at a
    dimension of a main image after the first whose similarity is below
    the threshold. *)
Lemma create_levels_from_collection_inconsistent (T : collaborators)
    (osr : option (gmap string string)) (c : collection)
    (levels0 : list level) (st : synth) :
  decoder_errors_are_its_own T ->
  create_levels_from_collection T osr c levels0
  = (st, Failed INCONSISTENT_RESOLUTIONS) ->
  exists f others img k d fd l,
    main_images c = f :: others /\ In img others /\
    dimensions img !! k = Some d /\
    dimensions f !! k = Some fd /\
    Double.ltb (resolution_similarity d fd) Double.c0_98 = true /\
    levels st !! k = Some (minimize_click_density d l).
Proof.
  intros Hown H. rewrite create_levels_from_collection_unfold in H.
  apply bind_Failed in H as [H | (first & st1 & _ & H)].
  - apply main_images_loop_inconsistent in H
      as (f & img & k & d & fd & l & (others & Hmain & Hin) & Hrest);
      [|exact Hown].
    exists f, others, img, k, d, fd, l. auto.
  - exfalso. destruct first as [first|]; [|discriminate].
    apply bind_Failed in H as [H | ([] & st2 & _ & H)]; [discriminate|].
    apply bind_Failed in H as [H | (have & st3 & _ & H)].
    + eapply macro_images_loop_not_inconsistent; eauto.
    + unfold check_quickhash_dir in H.
      destruct (quickhash_dir st3 =? -1); discriminate.
Qed.

(** C4.  The resolution check of lines 592-607, as the code has it.  The
    similarity is computed in binary64, each operation rounded, from the
    click densities stored in the dimensions:
    [1 - fabs(cpp - first_cpp) / first_cpp]; it is compared with the
    double the literal [0.98] denotes, [8827055269646172 * 2^-53], which
    is the nearest to 0.98 and lies below it.

    - When synthesis succeeds, every dimension of every main image after
      the first has a dimension of the first main image at its place, and
      the similarity of the two is not below the threshold (a similarity
      equal to the threshold, or one that is not a number, passes).
    - When synthesis fails with BadData, "Inconsistent main image
      resolutions", and that error is not one the TIFF decoder set, some
      dimension of a main image after the first has a similarity below the
      threshold; so when none has, synthesis does not fail with that
      error.  The level of that dimension has by then its click density
      minimized with the density of the dimension: [MIN] is
      [(a < b) ? a : b].
    - When the loop over the images has reached a main image that passes
      the check against the first main image, and the loop over its
      dimensions has reached a dimension whose similarity is below the
      threshold, synthesis fails there with BadData, "Inconsistent main
      image resolutions", the level of the dimension being minimized
      first. *)
Theorem resolution_similarity_threshold (T : collaborators)
    (osr : option (gmap string string)) (c : collection) (st : synth)
    (r : outcome unit) :
  let similarity := fun d fd : dimension =>
    Double.sub Double.one
      (Double.div
         (Double.fabs (Double.sub (dim_clicks_per_pixel d)
                                  (dim_clicks_per_pixel fd)))
         (dim_clicks_per_pixel fd)) in
  let below := fun d fd : dimension =>
    Double.ltb (similarity d fd)
               (S754_finite false 8827055269646172 (-53)) in
  let minimized := fun (l : level) (d : dimension) =>
    mkLevel (base l)
            (if Double.ltb (clicks_per_pixel l) (dim_clicks_per_pixel d)
             then clicks_per_pixel l else dim_clicks_per_pixel d)
            (areas l) in
  create_levels_from_collection T osr c [] = (st, r) ->
  0 < 98 * 2 ^ 53 - 8827055269646172 * 100 < 50 /\
  (r = Done tt ->
   exists f others,
     main_images c = f :: others /\
     forall img k d,
       In img others -> dimensions img !! k = Some d ->
       exists fd, dimensions f !! k = Some fd /\ below d fd = false) /\
  (decoder_errors_are_its_own T ->
   r = Failed INCONSISTENT_RESOLUTIONS ->
   exists f others img k d fd l,
     main_images c = f :: others /\ In img others /\
     dimensions img !! k = Some d /\
     dimensions f !! k = Some fd /\
     below d fd = true /\
     levels st !! k = Some (minimized l d)) /\
  (forall pre img post sta i f dpre d drest stb fd,
     images c = pre ++ img :: post ->
     main_images_loop T (should_use_legacy_quickhash c) pre 0 None
                      (initial_synth osr c [])
     = (sta, Done (Some (i, f))) ->
     main_brightfield img = true ->
     composable f img -> objective img <> None ->
     dimensions img = dpre ++ d :: drest ->
     dimensions_loop T false f img dpre 0 sta = (stb, Done tt) ->
     dimensions f !! length dpre = Some fd ->
     below d fd = true ->
     r = Failed INCONSISTENT_RESOLUTIONS /\
     exists l,
       levels stb !! length dpre = Some l /\
       levels st !! length dpre = Some (minimized l d)).
Proof.
  intros similarity below minimized Hrun.
  split; [split; reflexivity|].
  split; [|split].
  - intros ->.
    apply create_levels_from_collection_Done in Hrun
      as (f & others & Hmain & _ & Hall & _).
    exists f, others. split; [exact Hmain|].
    intros img k d Hin Hd. rewrite List.Forall_forall in Hall.
    destruct (Hall img Hin) as [_ Hres].
    destruct (Forall2_lookup_l _ _ _ _ _ Hres Hd) as (fd & Hfd & Hsim).
    exists fd. split; [exact Hfd|exact Hsim].
  - intros Hown ->.
    apply create_levels_from_collection_inconsistent in Hrun
      as (f & others & img & k & d & fd & l & Hmain & Hin & Hd & Hfd
          & Hlt & Hl); [|exact Hown].
    exists f, others, img, k, d, fd, l.
    repeat split; auto.
  - intros pre img post sta i f dpre d drest stb fd
           Himgs Hpre Hmb Hcomp Hobj Hdims Hdpre Hfd Hlt.
    assert (Hk : exists l, levels stb !! length dpre = Some l).
    { apply lookup_lt_is_Some.
      assert (Hlen : length (levels sta) = length (dimensions f)).
      { eapply main_images_loop_first_length; [|exact Hpre]. reflexivity. }
      apply dimensions_loop_later in Hdpre as (Hl & _).
      rewrite Hl, length_app, merge_levels_length, drop_0. simpl.
      rewrite Hlen. apply lookup_lt_Some in Hfd. exact Hfd. }
    destruct Hk as [l Hk].
    rewrite (inconsistent_resolutions_fail_synthesis T osr c pre post img f
               i sta stb dpre drest d fd Himgs Hpre Hmb Hcomp Hobj Hdims
               Hdpre Hfd Hlt) in Hrun.
    inversion Hrun; subst st r; clear Hrun.
    split; [reflexivity|]. exists l. split; [exact Hk|].
    simpl. rewrite list_lookup_alter_eq, Hk. reflexivity.
Qed.

(** ** leica_open *)

(** C6, as the code has it.  In a reader that [leica_open] has opened,
    every level has one area for each main image kept, in the order of
    the images, and the click offsets of the area are the click offsets
    of its image as the manifest gives them: they are not compared with
    the size of the collection. *)
Theorem opened_reader_area_offsets (O : open_collaborators)
    (osr : option (gmap string string)) (reader : openslide_t) :
  leica_open O osr = Done (Some reader) ->
  exists c,
    opened_collection O = Some c /\
    forall l, In l (osr_levels reader) ->
      map area_offsets (areas l) = map image_offsets (main_images c).
Proof.
  unfold leica_open, opened_collection. intros H.
  destruct (tiff_is_tiled O); [|discriminate]. simpl in H.
  destruct (tiff_image_description O) as [image_desc|]; [|discriminate].
  destruct (contains_leica_xmlns image_desc); [|discriminate]. simpl in H.
  destruct (parse_xml_description (xml_parse O) image_desc) as [c|e];
    [|discriminate].
  exists c. split; [reflexivity|].
  destruct (create_levels_from_collection (synthesis O) osr c [])
    as [st [[]|e| |]] eqn:Hrun; try discriminate.
  destruct (levels st) as [|level0 ls] eqn:Hlevels; [discriminate|].
  destruct (properties st) as [props|]; [|discriminate].
  destruct (areas level0) as [|property_area others]; [discriminate|].
  destruct (init_properties_and_hash O props (quickhash_dir st)
              (tiffl_dir (tiffl property_area))) as [props'|e];
    [|discriminate].
  destruct (open_set_directory O (tiffl_dir (tiffl property_area)));
    [|discriminate].
  inversion H; subst reader; clear H.
  intros l Hin. cbn [osr_levels] in Hin. rewrite <- Hlevels in Hin.
  eapply area_offsets_are_image_offsets; eauto.
Qed.

(** ** The statements on sample slides *)

Import Samples.

Lemma should_use_legacy_quickhash_iff_witness :
  fits_guint (images (collection_of main_and_macro_doc)) /\
  should_use_legacy_quickhash (collection_of main_and_macro_doc) = true.
Proof.
  assert (Hfit : fits_guint (images (collection_of main_and_macro_doc)))
    by (vm_compute; reflexivity).
  split; [exact Hfit|].
  apply (proj2 (proj1 (should_use_legacy_quickhash_iff
                         (collection_of main_and_macro_doc) Hfit))).
  split; [vm_compute; reflexivity|].
  split; [vm_compute; discriminate|].
  unfold mains_all_brightfield.
  repeat (apply List.Forall_cons; [intros _; vm_compute; reflexivity|]).
  apply List.Forall_nil.
Defined.

Lemma quickhash_dir_chosen_witness :
  synthesize main_and_macro_doc
  = (fst (synthesize main_and_macro_doc), Done tt) /\
  quickhash_dir (fst (synthesize main_and_macro_doc)) <> -1.
Proof.
  assert (Hrun : create_levels_from_collection sample_tiff None
                   (collection_of main_and_macro_doc) []
                 = (fst (synthesize main_and_macro_doc), Done tt))
    by (vm_compute; reflexivity).
  split; [exact Hrun|].
  exact (proj1 (proj1 (quickhash_dir_chosen _ _ _ _ _ Hrun) eq_refl)).
Defined.

Lemma level_click_density_and_size_witness :
  synthesize two_mains_doc = (fst (synthesize two_mains_doc), Done tt) /\
  exists f,
    head (main_images (collection_of two_mains_doc)) = Some f /\
    length (levels (fst (synthesize two_mains_doc)))
    = length (dimensions f).
Proof.
  assert (Hrun : create_levels_from_collection sample_tiff None
                   (collection_of two_mains_doc) []
                 = (fst (synthesize two_mains_doc), Done tt))
    by (vm_compute; reflexivity).
  split; [exact Hrun|].
  exact (proj1 (level_click_density_and_size _ _ _ _ Hrun)).
Defined.

(** C3 as the specification states it fails on [zero_width_doc]: the
    three main images have click densities 100, NaN and 101 at dimension
    0, synthesis succeeds, and the click density of level 0 is 101,
    which is above 100. *)
Lemma zero_width_density_not_minimum :
  exists st l,
    synthesize zero_width_doc = (st, Done tt) /\
    levels st !! 0%nat = Some l /\
    map (fun img => dim_clicks_per_pixel <$> dimensions img !! 0%nat)
        (main_images (collection_of zero_width_doc))
    = [Some (Double.of_int64 100); Some S754_nan;
       Some (Double.of_int64 101)] /\
    clicks_per_pixel l = Double.of_int64 101 /\
    Double.ltb (Double.of_int64 100) (clicks_per_pixel l) = true /\
    ~ is_minimum (clicks_per_pixel l)
        [Double.of_int64 100; S754_nan; Double.of_int64 101].
Proof.
  eexists. eexists.
  split; [vm_compute; reflexivity|].
  split; [vm_compute; reflexivity|].
  split; [vm_compute; reflexivity|].
  split; [vm_compute; reflexivity|].
  split; [vm_compute; reflexivity|].
  intros [_ Hall]. apply Forall_cons_1 in Hall as [Hle _].
  vm_compute in Hle. discriminate.
Qed.



Lemma resolution_similarity_threshold_witness :
  synthesize boundary_doc = (fst (synthesize boundary_doc), Done tt) /\
  resolution_similarity (dimension_at boundary_doc 1 0)
                        (dimension_at boundary_doc 0 0)
  = S754_finite false 8827055269646172 (-53) /\
  exists f others,
    main_images (collection_of boundary_doc) = f :: others /\
    forall img k d,
      In img others -> dimensions img !! k = Some d ->
      exists fd,
        dimensions f !! k = Some fd /\
        Double.ltb
          (Double.sub Double.one
             (Double.div
                (Double.fabs (Double.sub (dim_clicks_per_pixel d)
                                         (dim_clicks_per_pixel fd)))
                (dim_clicks_per_pixel fd)))
          (S754_finite false 8827055269646172 (-53))
        = false.
Proof.
  assert (Hrun : create_levels_from_collection sample_tiff None
                   (collection_of boundary_doc) []
                 = (fst (synthesize boundary_doc), Done tt))
    by (vm_compute; reflexivity).
  split; [exact Hrun|]. split; [vm_compute; reflexivity|].
  exact (proj1 (proj2 (resolution_similarity_threshold _ _ _ _ _ Hrun))
           eq_refl).
Defined.

(** C4 as the specification states it fails both ways, because the code
    compares the rounded result of rounded operations on rounded
    densities.  On [rounded_below_doc] the click densities of the
    manifest are 2100/1000 and 2058/1000, whose similarity is 0.98, and
    synthesis fails with BadData, "Inconsistent main image resolutions":
    the computed similarity is one unit in the last place below the
    threshold.  On [rounded_above_doc] the stored densities (2100/7000
    and 2058/7000, rounded) have a similarity strictly below 0.98, and
    synthesis succeeds: the computed similarity is the threshold
    itself. *)
Lemma exact_similarity_is_not_what_is_compared :
  main_images (collection_of MoreSamples.rounded_below_doc)
  = [image_at MoreSamples.rounded_below_doc 0;
     image_at MoreSamples.rounded_below_doc 1] /\
  dimensions (image_at MoreSamples.rounded_below_doc 0)
  = [dimension_at MoreSamples.rounded_below_doc 0 0] /\
  dimensions (image_at MoreSamples.rounded_below_doc 1)
  = [dimension_at MoreSamples.rounded_below_doc 1 0] /\
  QArith_base.Qeq
    (exact_similarity
       (manifest_density (image_at MoreSamples.rounded_below_doc 1)
                         (dimension_at MoreSamples.rounded_below_doc 1 0))
       (manifest_density (image_at MoreSamples.rounded_below_doc 0)
                         (dimension_at MoreSamples.rounded_below_doc 0 0)))
    (exact_quotient 98 100) /\
  resolution_similarity (dimension_at MoreSamples.rounded_below_doc 1 0)
                        (dimension_at MoreSamples.rounded_below_doc 0 0)
  = S754_finite false 8827055269646171 (-53) /\
  snd (synthesize MoreSamples.rounded_below_doc)
  = Failed INCONSISTENT_RESOLUTIONS /\
  main_images (collection_of MoreSamples.rounded_above_doc)
  = [image_at MoreSamples.rounded_above_doc 0;
     image_at MoreSamples.rounded_above_doc 1] /\
  (exists cpp first_cpp,
     exact_value (dim_clicks_per_pixel
                    (dimension_at MoreSamples.rounded_above_doc 1 0))
     = Some cpp /\
     exact_value (dim_clicks_per_pixel
                    (dimension_at MoreSamples.rounded_above_doc 0 0))
     = Some first_cpp /\
     QArith_base.Qlt (exact_similarity cpp first_cpp)
                     (exact_quotient 98 100)) /\
  resolution_similarity (dimension_at MoreSamples.rounded_above_doc 1 0)
                        (dimension_at MoreSamples.rounded_above_doc 0 0)
  = S754_finite false 8827055269646172 (-53) /\
  snd (synthesize MoreSamples.rounded_above_doc) = Done tt.
Proof.
  split; [vm_compute; reflexivity|].
  split; [vm_compute; reflexivity|].
  split; [vm_compute; reflexivity|].
  split; [vm_compute; reflexivity|].
  split; [vm_compute; reflexivity|].
  split; [vm_compute; reflexivity|].
  split; [vm_compute; reflexivity|].
  split.
  { eexists _, _. split; [vm_compute; reflexivity|].
    split; [vm_compute; reflexivity|]. vm_compute. reflexivity. }
  split; vm_compute; reflexivity.
Qed.

(** C5 on [missing_objective_doc].  The two images are brightfield main
    images and the second differs from the first in its number of
    dimensions, so that synthesis should fail with BadData, "Slides with
    dissimilar main images are not supported".  The manifest gives the
    second image no objective, and line 568 passes its [NULL] objective
    to [strcmp]: the behaviour of the synthesis, and of [leica_open], is
    undefined. *)
Lemma missing_objective_undefined :
  main_images (collection_of missing_objective_doc)
  = [image_at missing_objective_doc 0; image_at missing_objective_doc 1] /\
  objective (image_at missing_objective_doc 0) = Some "20" /\
  objective (image_at missing_objective_doc 1) = None /\
  length (dimensions (image_at missing_objective_doc 1))
  <> length (dimensions (image_at missing_objective_doc 0)) /\
  snd (synthesize missing_objective_doc) = Undefined /\
  leica_open (sample_slide missing_objective_doc) (Some ∅) = Undefined.
Proof.
  split; [vm_compute; reflexivity|].
  split; [vm_compute; reflexivity|].
  split; [vm_compute; reflexivity|].
  split; [vm_compute; discriminate|].
  split; vm_compute; reflexivity.
Qed.

(** Click densities 100 and 98 give a similarity of exactly 0.98 and are
    accepted; 100 and 97 are rejected. *)
Lemma resolution_similarity_samples :
  snd (synthesize boundary_doc) = Done tt /\
  snd (synthesize inconsistent_doc) = Failed INCONSISTENT_RESOLUTIONS.
Proof. split; vm_compute; reflexivity. Qed.

(** The four boundary cases of [should_use_legacy_quickhash] on sample
    slides: one main image; one main image and a macro image; two main
    images; a main image and a main image that is not brightfield. *)
Lemma should_use_legacy_quickhash_samples :
  should_use_legacy_quickhash (collection_of single_main_doc) = true /\
  should_use_legacy_quickhash (collection_of main_and_macro_doc) = true /\
  should_use_legacy_quickhash (collection_of dissimilar_doc) = false /\
  should_use_legacy_quickhash (collection_of fluorescence_doc) = false.
Proof. repeat split; vm_compute; reflexivity. Qed.

(** When directory 1 cannot be read, the first main image fails before
    the second image is compared with it. *)
Lemma earlier_failure_comes_first :
  snd (create_levels_from_collection broken_tiff None
         (collection_of dissimilar_doc) [])
  = Failed (BadData "Cannot set TIFF directory").
Proof. vm_compute; reflexivity. Qed.

(** Two main images whose objectives are "20" and "40". *)
Lemma dissimilar_main_images_rejected_sample :
  synthesize dissimilar_doc
  = (fst (synthesize dissimilar_doc), snd (synthesize dissimilar_doc)) /\
  snd (synthesize dissimilar_doc) = Failed DISSIMILAR_MAIN_IMAGES.
Proof.
  assert (Hrun : create_levels_from_collection sample_tiff None
                   (collection_of dissimilar_doc) []
                 = (fst (synthesize dissimilar_doc),
                    snd (synthesize dissimilar_doc)))
    by (vm_compute; reflexivity).
  split; [exact Hrun|].
  refine (proj2 (proj1 (proj2 (dissimilar_main_images_rejected _ _ _ _ _ Hrun))
            [image_at dissimilar_doc 0] (image_at dissimilar_doc 1) []
            (fst (main_images_loop sample_tiff false
                    [image_at dissimilar_doc 0] 0 None
                    (initial_synth None (collection_of dissimilar_doc) [])))
            0%nat (image_at dissimilar_doc 0) _ _ _ _ _)).
  - vm_compute; reflexivity.
  - vm_compute; reflexivity.
  - vm_compute; reflexivity.
  - vm_compute; discriminate.
  - intros (_ & Hobj & _). vm_compute in Hobj. discriminate.
Qed.

Lemma opened_reader_area_offsets_witness :
  exists reader,
    leica_open (sample_slide two_mains_doc) (Some ∅) = Done (Some reader) /\
    exists c,
      opened_collection (sample_slide two_mains_doc) = Some c /\
      forall l, In l (osr_levels reader) ->
        map area_offsets (areas l) = map image_offsets (main_images c).
Proof.
  eexists. split; [vm_compute; reflexivity|].
  apply (opened_reader_area_offsets (sample_slide two_mains_doc) (Some ∅)).
  vm_compute; reflexivity.
Defined.

(** C6 as the specification states it fails on [out_of_canvas_doc]: the
    reader opens, and the area of its first level has a click offset in
    x beyond the width of the collection and a negative click offset in
    y. *)
Lemma opened_reader_area_outside_collection :
  exists reader c l a,
    leica_open (sample_slide out_of_canvas_doc) (Some ∅)
    = Done (Some reader) /\
    opened_collection (sample_slide out_of_canvas_doc) = Some c /\
    In l (osr_levels reader) /\ In a (areas l) /\
    clicks_offset_x a = 150000 /\ clicks_across c = 100000 /\
    clicks_offset_y a = -7 /\
    ~ (0 <= clicks_offset_x a < clicks_across c /\
       0 <= clicks_offset_y a < clicks_down c).
Proof.
  eexists. eexists. eexists. eexists.
  split; [vm_compute; reflexivity|].
  split; [vm_compute; reflexivity|].
  split; [left; reflexivity|].
  split; [left; reflexivity|].
  split; [reflexivity|]. split; [reflexivity|]. split; [reflexivity|].
  simpl. lia.
Qed.

Lemma parsed_dimensions_sorted_stably_witness :
  parse tied_widths_doc = inl (collection_of tied_widths_doc) /\
  Forall2 sorted_from_manifest
    (image_nodes (fun _ => inl tied_widths_doc) sample_image_description)
    (images (collection_of tied_widths_doc)).
Proof.
  assert (H : parse_xml_description (fun _ => inl tied_widths_doc)
                sample_image_description
              = inl (collection_of tied_widths_doc))
    by (vm_compute; reflexivity).
  split; [exact H|].
  exact (parsed_dimensions_sorted_stably _ _ _ H).
Defined.

(** C7 as the specification states it fails on [tied_widths_doc]: the
    image has dimensions 450, 900 and 450 pixels wide in the manifest;
    after parsing their widths are 900, 450, 450 (directories 2, 1, 3),
    and the second is not strictly wider than the third. *)
Lemma tied_widths_not_strictly_descending :
  exists c img a b,
    parse tied_widths_doc = inl c /\
    images c = [img] /\
    map width (dimensions img) = [900; 450; 450] /\
    map dir (dimensions img) = [2; 1; 3] /\
    dimensions img !! 1%nat = Some a /\
    dimensions img !! 2%nat = Some b /\
    ~ width a > width b.
Proof.
  eexists _, _, _, _.
  split; [vm_compute; reflexivity|].
  split; [reflexivity|].
  split; [reflexivity|].
  split; [reflexivity|].
  split; [reflexivity|].
  split; [reflexivity|].
  simpl. lia.
Qed.

Lemma parsed_is_macro_iff_witness :
  parse main_and_macro_doc = inl (collection_of main_and_macro_doc) /\
  In (image_at main_and_macro_doc 0)
     (images (collection_of main_and_macro_doc)) /\
  is_macro (image_at main_and_macro_doc 0) = true.
Proof.
  assert (H : parse_xml_description (fun _ => inl main_and_macro_doc)
                sample_image_description
              = inl (collection_of main_and_macro_doc))
    by (vm_compute; reflexivity).
  assert (Hin : In (image_at main_and_macro_doc 0)
                   (images (collection_of main_and_macro_doc)))
    by (left; vm_compute; reflexivity).
  split; [exact H|]. split; [exact Hin|].
  apply (proj2 (proj1 (parsed_is_macro_iff _ _ _ _ H Hin))).
  repeat split; vm_compute; reflexivity.
Defined.

Lemma _openslide_fsize_spec_witness :
  valid_file sample_file /\
  _openslide_fsize sample_file = (4096, None, sample_file).
Proof.
  assert (Hv : valid_file sample_file) by (split; simpl; lia).
  split; [exact Hv|].
  apply (proj1 (_openslide_fsize_spec sample_file Hv)).
  constructor.
Defined.

(** [paint_region] on a level of three areas whose second area fails to
    paint: the first two directories are set, the first two areas reach
    the grid, the third is not touched, and the handle is back in the
    pool. *)
Lemma paint_region_sample :
  directories_set (fst (paint_region sample_painter 0 0 sample_level 512 512))
  = [1; 3] /\
  areas_painted (fst (paint_region sample_painter 0 0 sample_level 512 512))
  = [sample_area 1 0; sample_area 3 100000] /\
  handles_out (fst (paint_region sample_painter 0 0 sample_level 512 512))
  = 0 /\
  snd (paint_region sample_painter 0 0 sample_level 512 512)
  = Failed (mkGError OPENSLIDE_ERROR_FAILED "Cannot read tile").
Proof. repeat split; vm_compute; reflexivity. Qed.

(** ** Level synthesis: more of what a run leaves behind *)

Lemma create_area_Done_readable (T : collaborators) (l : nat) (img : image)
    (d : dimension) (st st' : synth) :
  create_area T l img d st = (st', Done tt) -> readable T d.
Proof.
  unfold create_area, readable.
  destruct (tiff_level_init T (dir d)) as [t|e]; [|discriminate].
  destruct (tiff_get_compression T (dir d)) as [compression|];
    [|discriminate].
  destruct (tiff_codec_configured T compression) eqn:Hc; [|discriminate].
  intros _. eauto.
Qed.

Lemma dimensions_loop_readable (T : collaborators) (b : bool)
    (f img : image) (dims : list dimension) :
  forall (k : nat) (st st' : synth),
    dimensions_loop T b f img dims k st = (st', Done tt) ->
    Forall (readable T) dims.
Proof.
  induction dims as [|d dims IH]; intros k st st' H; simpl in H;
    [constructor|].
  apply bind_Done in H as (l & st1 & H1 & H).
  apply bind_Done in H as ([] & st2 & H2 & H).
  constructor; [eapply create_area_Done_readable; eauto|].
  eapply IH; eauto.
Qed.

(** What one turn of the loop over the main images leaves of the
    property table, and that it could read every directory of an image
    it kept. *)
Lemma main_image_step_frame (T : collaborators) (lq : bool) (n : nat)
    (img : image) (first r : option (nat * image)) (st st' : synth) :
  main_image_step T lq n img first st = (st', Done r) ->
  (main_brightfield img = false -> st' = st) /\
  (main_brightfield img = true ->
     Forall (readable T) (dimensions img) /\
     properties st'
     = match first with
       | None => first_main_image_props T img (properties st)
       | Some _ => properties st
       end).
Proof.
  intros H. split; intros Hmb.
  - rewrite main_image_step_skip in H by exact Hmb. now inversion H.
  - unfold main_brightfield, main_image_step in *.
    destruct (is_macro img); [discriminate|].
    destruct (not_brightfield img); [discriminate|].
    apply bind_Done in H as ([i' f'] & sta & Ha & H).
    apply bind_Done in H as ([] & stb & Hb & H).
    apply check_similar_Done in Hb as (-> & _ & _).
    apply bind_Done in H as ([] & stc & Hc & H).
    apply bind_Done in H as ([] & std & Hd & H).
    unfold ret in H. inversion H; subst st' r; clear H.
    pose proof (dimensions_loop_readable _ _ _ _ _ _ _ _ Hc) as Hread.
    assert (Hpc : properties stc = properties sta).
    { destruct (Nat.eqb n (fst (i', f'))).
      - now apply dimensions_loop_first in Hc as (_ & _ & Hp & _).
      - now apply dimensions_loop_later in Hc as (_ & _ & Hp & _). }
    assert (Hpd : properties std = properties stc).
    { destruct (lq && Nat.eqb n (fst (i', f'))).
      - unfold last_dimension in Hd.
        destruct (last (dimensions img)); [|discriminate].
        unfold modify in Hd. now inversion Hd.
      - unfold ret in Hd. now inversion Hd. }
    split; [exact Hread|]. rewrite Hpd, Hpc.
    destruct first as [g|].
    + unfold ret in Ha. now inversion Ha.
    + apply bind_Done in Ha as ([] & st0 & H0 & Ha).
      unfold modify in H0. unfold ret in Ha.
      inversion H0; subst st0. now inversion Ha.
Qed.

Lemma main_images_loop_frame (T : collaborators) (lq : bool)
    (imgs : list image) :
  forall (n : nat) (first r : option (nat * image)) (st st' : synth),
    main_images_loop T lq imgs n first st = (st', Done r) ->
    Forall (fun img => Forall (readable T) (dimensions img))
           (List.filter main_brightfield imgs) /\
    properties st'
    = match first, List.filter main_brightfield imgs with
      | None, f :: _ => first_main_image_props T f (properties st)
      | _, _ => properties st
      end.
Proof.
  induction imgs as [|img imgs IH]; intros n first r st st' H; simpl in H.
  - unfold ret in H. inversion H; subst st' r; clear H. simpl.
    split; [constructor|]. now destruct first.
  - apply bind_Done in H as (first1 & st1 & H1 & H).
    pose proof (main_image_step_result _ _ _ _ _ _ _ _ H1) as Hres.
    pose proof (main_image_step_frame _ _ _ _ _ _ _ _ H1) as [Hskip Hkeep].
    apply IH in H as [Hread Hprops]. simpl.
    destruct (main_brightfield img) eqn:Hmb.
    + destruct (Hkeep eq_refl) as [Hr Hp].
      split; [constructor; assumption|].
      rewrite Hprops, Hp.
      destruct first as [g|].
      * destruct Hres as [-> | (Habs & _)]; [reflexivity|discriminate].
      * apply main_image_step_first in H1 as (-> & _); [|exact Hmb].
        reflexivity.
    + rewrite (Hskip eq_refl) in *.
      destruct Hres as [-> | (_ & _ & Habs & _)]; [|congruence].
      split; [exact Hread|]. exact Hprops.
Qed.

Lemma main_images_loop_none (T : collaborators) (lq : bool)
    (imgs : list image) :
  forall (n : nat) (first : option (nat * image)) (st : synth),
    List.filter main_brightfield imgs = [] ->
    main_images_loop T lq imgs n first st = (st, Done first).
Proof.
  induction imgs as [|img imgs IH]; intros n first st H; simpl in *;
    [reflexivity|].
  destruct (main_brightfield img) eqn:Hmb; [discriminate|].
  erewrite bind_eq_Done; [|now apply main_image_step_skip]. now apply IH.
Qed.

Lemma macro_image_step_frame (T : collaborators) (lq : bool) (img : image)
    (have r : bool) (st st' : synth) :
  macro_brightfield img = true ->
  macro_image_step T lq img have st = (st', Done r) ->
  exists largest,
    dimensions img !! 0%nat = Some largest /\
    tiff_add_associated_image T (dir largest) = None /\
    associated_images st'
    = associated_images st ++ [("macro", to_tdir_t T (dir largest))] /\
    properties st' = properties st.
Proof.
  unfold macro_brightfield, macro_image_step. intros Hmb H.
  destruct (is_macro img); [|discriminate].
  destruct (not_brightfield img); [discriminate|]. simpl in H.
  destruct have; [discriminate|].
  destruct (dimensions img !! 0%nat) as [largest|]; [|discriminate].
  destruct (tiff_add_associated_image T (dir largest)) eqn:Hadd;
    [discriminate|].
  apply bind_Done in H as ([] & sta & Ha & H).
  apply bind_Done in H as ([] & stb & Hb & H).
  unfold ret in H. inversion H; subst st' r; clear H.
  unfold modify in Ha. inversion Ha; subst sta; clear Ha.
  exists largest. split; [reflexivity|]. split; [exact Hadd|].
  destruct lq; simpl in Hb.
  - unfold ret in Hb. inversion Hb; subst stb. auto.
  - unfold last_dimension in Hb.
    destruct (last (dimensions img)); [|discriminate].
    unfold modify in Hb. inversion Hb; subst stb. auto.
Qed.

Lemma macro_images_loop_frame (T : collaborators) (lq : bool)
    (imgs : list image) :
  forall (have r : bool) (st st' : synth),
    macro_images_loop T lq imgs have st = (st', Done r) ->
    properties st' = properties st /\
    (length (List.filter macro_brightfield imgs) <= 1)%nat /\
    match List.filter macro_brightfield imgs with
    | [] => associated_images st' = associated_images st
    | m :: _ =>
        exists largest,
          dimensions m !! 0%nat = Some largest /\
          tiff_add_associated_image T (dir largest) = None /\
          associated_images st'
          = associated_images st ++ [("macro", to_tdir_t T (dir largest))]
    end.
Proof.
  induction imgs as [|img imgs IH]; intros have r st st' H; simpl in H.
  - unfold ret in H. inversion H. simpl. auto.
  - apply bind_Done in H as (have1 & st1 & H1 & H). simpl.
    destruct (macro_brightfield img) eqn:Hmb.
    + pose proof (macro_image_step_Done _ _ _ _ _ _ _ Hmb H1)
        as (_ & -> & _).
      apply macro_image_step_frame in H1
        as (largest & Hl & Hadd & Ha & Hp); [|exact Hmb].
      pose proof (macro_images_loop_Done _ _ _ _ _ _ _ H) as (_ & Hrest).
      apply IH in H as (Hp' & _ & Ha').
      destruct (List.filter macro_brightfield imgs) as [|m rest].
      * simpl. split; [congruence|]. split; [lia|].
        exists largest. rewrite Ha', Ha. auto.
      * destruct Hrest as (Habs & _). discriminate.
    + rewrite macro_image_step_skip in H1 by exact Hmb.
      inversion H1; subst have1 st1. now apply IH in H.
Qed.

(** What a successful synthesis leaves outside the levels. *)
Lemma create_levels_from_collection_frame (T : collaborators)
    (osr : option (gmap string string)) (c : collection)
    (levels0 : list level) (st : synth) :
  create_levels_from_collection T osr c levels0 = (st, Done tt) ->
  exists f others,
    main_images c = f :: others /\
    objective f <> None /\
    Forall (fun img => Forall (readable T) (dimensions img))
           (main_images c) /\
    properties st
    = first_main_image_props T f (set_prop "leica.barcode" (barcode c) osr) /\
    ((macro_images c = [] /\ associated_images st = []) \/
     (exists m largest,
        macro_images c = [m] /\
        dimensions m !! 0%nat = Some largest /\
        tiff_add_associated_image T (dir largest) = None /\
        associated_images st = [("macro", to_tdir_t T (dir largest))])).
Proof.
  rewrite create_levels_from_collection_unfold.
  unfold main_images, macro_images.
  intros H.
  apply bind_Done in H as (first & st1 & H1 & H).
  pose proof (main_images_loop_first _ _ _ _ _ _ _ H1) as Hfirst.
  apply main_images_loop_frame in H1 as [Hread Hprops].
  destruct (List.filter main_brightfield (images c)) as [|f others].
  { destruct Hfirst as [-> _]. discriminate. }
  destruct Hfirst as ([i ->] & _ & _ & _ & Hassoc & Hobj & _).
  apply bind_Done in H as ([] & st2 & H2 & H).
  unfold modify in H2. inversion H2; subst st2; clear H2.
  apply bind_Done in H as (have & st3 & H3 & H).
  apply check_quickhash_dir_Done in H as [-> _].
  pose proof (macro_images_loop_Done _ _ _ _ _ _ _ H3) as (_ & Hone).
  apply macro_images_loop_frame in H3 as (Hp3 & Hlen & Hmac).
  simpl in Hp3, Hmac, Hassoc.
  exists f, others.
  split; [reflexivity|]. split; [exact Hobj|]. split; [exact Hread|].
  split; [rewrite Hp3; exact Hprops|].
  destruct (List.filter macro_brightfield (images c)) as [|m rest].
  - left. split; [reflexivity|]. rewrite Hmac. exact Hassoc.
  - right. destruct Hone as (_ & -> & _).
    destruct Hmac as (largest & Hl & Hadd & Ha).
    exists m, largest. rewrite Ha, Hassoc. auto.
Qed.

Lemma fold_merge_image_areas (T : collaborators) (others : list image) :
  forall (ls : list level) (k : nat) (l : level),
    Forall (fun img => length (dimensions img) = length ls) others ->
    ls !! k = Some l ->
    exists l' new,
      fold_left (merge_image T) others ls !! k = Some l' /\
      areas l' = areas l ++ new /\
      Forall2 (fun img a => exists d, dimensions img !! k = Some d /\
                                      a = area_of T img d)
              others new.
Proof.
  induction others as [|img others IH]; intros ls k l Hlen Hk.
  - exists l, []. simpl. rewrite app_nil_r. repeat split; auto.
  - apply Forall_cons_1 in Hlen as [Himg Hlen].
    assert (Hd : exists d, dimensions img !! k = Some d).
    { apply lookup_lt_is_Some. rewrite Himg.
      apply lookup_lt_is_Some. eauto. }
    destruct Hd as [d Hd].
    destruct (IH (merge_image T ls img) k (merge_level T img l d))
      as (l' & new & Hl' & Ha & Hnew).
    { eapply List.Forall_impl; [|exact Hlen]. simpl. intros a ->.
      unfold merge_image. now rewrite merge_levels_length. }
    { unfold merge_image. now apply merge_levels_lookup. }
    exists l', (area_of T img d :: new). simpl.
    split; [exact Hl'|].
    split; [rewrite Ha; simpl; now rewrite <- app_assoc|].
    constructor; eauto.
Qed.

Lemma area_of_readable (T : collaborators) (k : nat) (img : image)
    (d : dimension) :
  dimensions img !! k = Some d -> readable T d ->
  area_backed_by T k img (area_of T img d).
Proof.
  intros Hd (t & compression & Ht & _). unfold area_backed_by, area_of.
  exists d, t. rewrite Ht. auto.
Qed.

Lemma Forall2_Forall_l {A B : Type} (P R : A -> B -> Prop) (Q : A -> Prop)
    (l : list A) (k : list B) :
  (forall x y, P x y -> Q x -> R x y) ->
  Forall2 P l k -> Forall Q l -> Forall2 R l k.
Proof.
  intros HR H2. induction H2 as [|x y l k Hxy _ IH]; intros HQ.
  - constructor.
  - apply Forall_cons_1 in HQ as [Hx HQ]. constructor; auto.
Qed.

Lemma set_prop_Some (name : string) (value : option string)
    (props : gmap string string) :
  set_prop name value (Some props)
  = Some (match value with
          | Some v => <[name := v]> props
          | None => props
          end).
Proof. now destruct value. Qed.

Lemma lookup_set_field (name key : string) (value : option string)
    (props : gmap string string) :
  match value with
  | Some v => <[name := v]> props
  | None => props
  end !! key
  = if decide (key = name)
    then match value with Some v => Some v | None => props !! key end
    else props !! key.
Proof.
  destruct value as [v|], (decide (key = name)) as [->|Hne]; auto.
  - apply lookup_insert_eq.
  - now apply lookup_insert_ne.
Qed.

(** ** Level synthesis: what a caller can rely on *)

(** X1.  A collection in which no image is both brightfield and not a
    macro image (an empty collection, macro images only, images of
    another or of no illumination source) makes level synthesis fail
    with BadData, "Can't find main image", whatever the TIFF holds.  The
    level array is then as the caller passed it, no associated image has
    been added and [quickhash_dir] is -1; only the barcode property has
    been written. *)
Theorem synthesis_without_main_image (T : collaborators)
    (osr : option (gmap string string)) (c : collection)
    (levels0 : list level) :
  main_images c = [] ->
  create_levels_from_collection T osr c levels0
  = (mkSynth levels0 (-1) (set_prop "leica.barcode" (barcode c) osr) [],
     Failed NO_MAIN_IMAGE).
Proof.
  intros Hnone. rewrite create_levels_from_collection_unfold.
  unfold bind. now rewrite main_images_loop_none.
Qed.

Lemma synthesis_without_main_image_witness :
  main_images (collection_of MoreSamples.macro_only_doc) = [] /\
  snd (synthesize MoreSamples.macro_only_doc) = Failed NO_MAIN_IMAGE.
Proof.
  assert (H : main_images (collection_of MoreSamples.macro_only_doc) = [])
    by (vm_compute; reflexivity).
  split; [exact H|].
  unfold synthesize.
  rewrite (synthesis_without_main_image sample_tiff None _ [] H).
  reflexivity.
Defined.

(** X2.  When level synthesis succeeds, the collection has at most one
    brightfield macro image.  Without one no associated image is added;
    with one, exactly one associated image is added: it is named "macro",
    the call that adds it succeeded, and the directory it is read from is
    the [dir] of the first dimension of the macro image (the widest,
    after the parser's sort) as a [tdir_t]: converted to that unsigned
    type, so an [ifd] attribute outside its range designates the
    directory it wraps to. *)
Theorem synthesis_associated_images (T : collaborators)
    (osr : option (gmap string string)) (c : collection)
    (levels0 : list level) (st : synth) :
  create_levels_from_collection T osr c levels0 = (st, Done tt) ->
  (macro_images c = [] /\ associated_images st = []) \/
  (exists m largest,
     macro_images c = [m] /\
     dimensions m !! 0%nat = Some largest /\
     tiff_add_associated_image T (dir largest) = None /\
     associated_images st = [("macro", dir largest mod 2 ^ tdir_t_bits T)]).
Proof.
  intros H. apply create_levels_from_collection_frame in H
    as (f & others & _ & _ & _ & _ & H). exact H.
Qed.

Lemma synthesis_associated_images_witness :
  synthesize MoreSamples.wide_ifd_doc
  = (fst (synthesize MoreSamples.wide_ifd_doc), Done tt) /\
  map dir (dimensions (image_at MoreSamples.wide_ifd_doc 0))
  = [4294967306] /\
  associated_images (fst (synthesize MoreSamples.wide_ifd_doc))
  = [("macro", 10)].
Proof.
  assert (Hrun : create_levels_from_collection sample_tiff None
                   (collection_of MoreSamples.wide_ifd_doc) []
                 = (fst (synthesize MoreSamples.wide_ifd_doc), Done tt))
    by (vm_compute; reflexivity).
  split; [exact Hrun|]. split; [vm_compute; reflexivity|].
  destruct (synthesis_associated_images _ _ _ _ _ Hrun)
    as [[Hm _] | (m & largest & Hm & Hl & _ & Ha)].
  - vm_compute in Hm. discriminate.
  - vm_compute in Hm. inversion Hm; subst m.
    vm_compute in Hl. inversion Hl; subst largest. exact Ha.
Defined.

(** X3.  When level synthesis succeeds, every dimension of every main
    image kept was readable: the TIFF decoder set up its directory, the
    compression of the directory could be read, and a codec is
    configured for it.  So one unreadable directory among the main
    images keeps the whole slide from opening. *)
Theorem synthesis_directories_readable (T : collaborators)
    (osr : option (gmap string string)) (c : collection)
    (levels0 : list level) (st : synth) (img : image) (d : dimension) :
  create_levels_from_collection T osr c levels0 = (st, Done tt) ->
  In img (main_images c) -> In d (dimensions img) ->
  exists t compression,
    tiff_level_init T (dir d) = inl t /\
    tiff_get_compression T (dir d) = Some compression /\
    tiff_codec_configured T compression = true.
Proof.
  intros H Himg Hd. apply create_levels_from_collection_frame in H
    as (f & others & _ & _ & Hread & _).
  rewrite List.Forall_forall in Hread. specialize (Hread img Himg).
  rewrite List.Forall_forall in Hread. exact (Hread d Hd).
Qed.

Lemma synthesis_directories_readable_witness :
  synthesize two_mains_doc = (fst (synthesize two_mains_doc), Done tt) /\
  In (image_at two_mains_doc 1) (main_images (collection_of two_mains_doc)) /\
  In (dimension_at two_mains_doc 1 1) (dimensions (image_at two_mains_doc 1)) /\
  exists t compression,
    tiff_level_init sample_tiff (dir (dimension_at two_mains_doc 1 1))
    = inl t /\
    tiff_get_compression sample_tiff (dir (dimension_at two_mains_doc 1 1))
    = Some compression /\
    tiff_codec_configured sample_tiff compression = true.
Proof.
  assert (Hrun : create_levels_from_collection sample_tiff None
                   (collection_of two_mains_doc) []
                 = (fst (synthesize two_mains_doc), Done tt))
    by (vm_compute; reflexivity).
  assert (Himg : In (image_at two_mains_doc 1)
                    (main_images (collection_of two_mains_doc)))
    by (right; left; vm_compute; reflexivity).
  assert (Hd : In (dimension_at two_mains_doc 1 1)
                  (dimensions (image_at two_mains_doc 1)))
    by (right; left; vm_compute; reflexivity).
  split; [exact Hrun|]. split; [exact Himg|]. split; [exact Hd|].
  exact (synthesis_directories_readable _ _ _ _ _ _ _ Hrun Himg Hd).
Defined.

Lemma built_levels_areas (T : collaborators) (f : image)
    (others : list image) (k : nat) (l : level) :
  Forall (composable f) others ->
  Forall (fun img => Forall (readable T) (dimensions img)) (f :: others) ->
  built_levels T f others !! k = Some l ->
  Forall2 (area_backed_by T k) (f :: others) (areas l).
Proof.
  intros Hall Hread Hk0. apply Forall_cons_1 in Hread as [Hf Hothers].
  unfold built_levels in Hk0.
  assert (Hlt : (k < length (dimensions f))%nat).
  { apply lookup_lt_Some in Hk0.
    now rewrite fold_merge_image_length, length_map in Hk0. }
  apply lookup_lt_is_Some in Hlt as [d Hd].
  destruct (fold_merge_image_areas T others
              (map (new_level T f) (dimensions f)) k (new_level T f d))
    as (l' & new & Hl' & Ha & Hnew).
  { eapply List.Forall_impl; [|exact Hall]. simpl.
    intros a (_ & _ & ->). now rewrite length_map. }
  { rewrite list_lookup_fmap, Hd. reflexivity. }
  rewrite Hk0 in Hl'. inversion Hl'; subst l'. rewrite Ha. simpl.
  constructor.
  - apply area_of_readable; [exact Hd|].
    rewrite List.Forall_forall in Hf. apply Hf.
    apply list_elem_of_In, list_elem_of_lookup. eauto.
  - eapply Forall2_Forall_l; [|exact Hnew|exact Hothers].
    simpl. intros img a (d' & Hd' & ->) Himg.
    apply area_of_readable; [exact Hd'|].
    rewrite List.Forall_forall in Himg. apply Himg.
    apply list_elem_of_In, list_elem_of_lookup. eauto.
Qed.

(** The levels of a successful run are the built levels, sized, and
    what [built_levels_areas] asks of the main images holds. *)
Lemma create_levels_from_collection_built (T : collaborators)
    (osr : option (gmap string string)) (c : collection) (st : synth) :
  create_levels_from_collection T osr c [] = (st, Done tt) ->
  exists f others,
    main_images c = f :: others /\
    levels st = map (set_level_size T c) (built_levels T f others) /\
    Forall (composable f) others /\
    Forall (fun img => Forall (readable T) (dimensions img)) (f :: others).
Proof.
  intros Hrun.
  pose proof (create_levels_from_collection_frame _ _ _ _ _ Hrun)
    as (f & others & Hmain & _ & Hread & _).
  apply create_levels_from_collection_Done in Hrun
    as (f' & others' & Hmain' & Hlev & Hall & _).
  rewrite Hmain in Hmain'. inversion Hmain'; subst f' others'.
  exists f, others. rewrite Hmain in Hread.
  repeat split; auto.
  eapply List.Forall_impl; [|exact Hall]. simpl. tauto.
Qed.

(** X4.  When level synthesis succeeds (from an empty level array),
    level [k] has exactly one area for each main image kept, in the
    order of the collection; the area of an image holds the TIFF level
    the decoder made of the directory of dimension [k] of that image, a
    grid of the tile geometry of that directory, and the click offsets
    of the image. *)
Theorem synthesis_areas_backed_by_directories (T : collaborators)
    (osr : option (gmap string string)) (c : collection) (st : synth)
    (k : nat) (l : level) :
  create_levels_from_collection T osr c [] = (st, Done tt) ->
  levels st !! k = Some l ->
  Forall2 (area_backed_by T k) (main_images c) (areas l).
Proof.
  intros Hrun Hk.
  apply create_levels_from_collection_built in Hrun
    as (f & others & -> & Hlev & Hall & Hread).
  rewrite Hlev, list_lookup_fmap in Hk.
  destruct (built_levels T f others !! k) as [l0|] eqn:Hk0; [|discriminate].
  inversion Hk; subst l. simpl.
  now apply built_levels_areas.
Qed.


Lemma synthesis_areas_backed_by_directories_witness :
  synthesize two_mains_doc = (fst (synthesize two_mains_doc), Done tt) /\
  exists l,
    levels (fst (synthesize two_mains_doc)) !! 1%nat = Some l /\
    Forall2 (area_backed_by sample_tiff 1)
            (main_images (collection_of two_mains_doc)) (areas l) /\
    map (fun a => tiffl_dir (tiffl a)) (areas l) = [2; 4].
Proof.
  assert (Hrun : create_levels_from_collection sample_tiff None
                   (collection_of two_mains_doc) []
                 = (fst (synthesize two_mains_doc), Done tt))
    by (vm_compute; reflexivity).
  split; [exact Hrun|].
  eexists. split; [vm_compute; reflexivity|].
  split; [|vm_compute; reflexivity].
  apply (synthesis_areas_backed_by_directories _ _ _ _ _ _ Hrun).
  vm_compute; reflexivity.
Defined.

(** X5.  The properties a successful level synthesis leaves in a reader
    come from the collection and from the first main image kept only:
    no later main image and no macro image writes one.  The table handed
    to [_openslide_duplicate_int_prop] has "leica.illumination-source"
    set to "brightfield" and "leica.objective" set to the objective of
    that image, which is there; "leica.aperture", "leica.creation-date",
    "leica.device-model", "leica.device-version" and "leica.barcode" are
    set to the value of the manifest when it has one and left as the
    reader had them when it has none; no other key is touched.  With no
    reader there are no properties. *)
Theorem synthesis_properties (T : collaborators)
    (osr : option (gmap string string)) (c : collection)
    (levels0 : list level) (st : synth) :
  create_levels_from_collection T osr c levels0 = (st, Done tt) ->
  match osr with
  | None => properties st = None
  | Some props =>
      exists f table,
        head (main_images c) = Some f /\
        properties st
        = Some (duplicate_int_prop T table "leica.objective"
                                   "openslide.objective-power") /\
        table !! "leica.illumination-source" = Some "brightfield" /\
        objective f <> None /\
        table !! "leica.objective" = objective f /\
        (forall key field,
           In (key, field)
              [("leica.aperture", aperture f);
               ("leica.creation-date", creation_date f);
               ("leica.device-model", device_model f);
               ("leica.device-version", device_version f);
               ("leica.barcode", barcode c)] ->
           table !! key = match field with
                          | Some v => Some v
                          | None => props !! key
                          end) /\
        (forall key,
           ~ In key ["leica.aperture"; "leica.creation-date";
                     "leica.device-model"; "leica.device-version";
                     "leica.illumination-source"; "leica.objective";
                     "leica.barcode"] ->
           table !! key = props !! key)
  end.
Proof.
  intros Hrun.
  pose proof (create_levels_from_collection_frame _ _ _ _ _ Hrun)
    as (f & others & Hmain & Hobj & _ & Hprops & _).
  destruct osr as [props|].
  2:{ rewrite Hprops. unfold first_main_image_props, set_prop.
      now destruct (barcode c). }
  assert (Hbf : illumination_source f = Some "brightfield").
  { assert (Hin : In f (main_images c)) by (rewrite Hmain; now left).
    apply List.filter_In in Hin as [_ Hf].
    unfold main_brightfield, not_brightfield in Hf.
    destruct (illumination_source f) as [s|];
      [|now rewrite andb_false_r in Hf].
    apply andb_true_iff in Hf as [_ Hf].
    apply negb_true_iff, negb_false_iff, String.eqb_eq in Hf.
    now subst s. }
  unfold first_main_image_props in Hprops.
  rewrite !set_prop_Some in Hprops. rewrite Hbf in Hprops.
  destruct (objective f) as [o|] eqn:Ho; [clear Hobj|now destruct Hobj].
  destruct (aperture f) eqn:E1, (creation_date f) eqn:E2,
    (device_model f) eqn:E3, (device_version f) eqn:E4,
    (barcode c) eqn:E5;
    (eexists f, _; split; [now rewrite Hmain|];
     split; [exact Hprops|];
     split; [now simplify_map_eq|];
     split; [rewrite Ho; discriminate|];
     split; [rewrite Ho; now simplify_map_eq|];
     split;
     [ intros key field Hin; simpl in Hin;
       repeat (destruct Hin as [Hin|Hin];
               [inversion Hin; subst key field;
                rewrite ?E1, ?E2, ?E3, ?E4, ?E5; now simplify_map_eq|]);
       destruct Hin
     | intros key Hkey; simpl in Hkey;
       rewrite ?lookup_insert_ne by (intros <-; tauto); reflexivity ]).
Qed.

Lemma synthesis_properties_witness :
  exists st,
    create_levels_from_collection sample_tiff (Some ∅)
      (collection_of main_and_macro_doc) [] = (st, Done tt) /\
    exists f table,
      head (main_images (collection_of main_and_macro_doc)) = Some f /\
      properties st
      = Some (duplicate_int_prop sample_tiff table "leica.objective"
                                 "openslide.objective-power") /\
      table !! "leica.objective" = objective f.
Proof.
  eexists. split; [vm_compute; reflexivity|].
  destruct (synthesis_properties sample_tiff (Some ∅)
              (collection_of main_and_macro_doc) [] _
              ltac:(vm_compute; reflexivity))
    as (f & table & Hf & Hp & _ & _ & Ho & _).
  exists f, table. auto.
Defined.



(** ** Parsing: more of what the parser guarantees *)

(** X7.  [dimension_compare] is a comparison function a sort can rely
    on: it returns -1, 0 or 1; swapping the arguments negates the
    result; it returns 0 exactly for dimensions of the same width and a
    negative number exactly when the first is wider; and "not after" is
    transitive.  Heights and directories play no part. *)
Theorem dimension_compare_order (a b c : dimension) :
  In (dimension_compare a b) [-1; 0; 1] /\
  dimension_compare b a = - dimension_compare a b /\
  (dimension_compare a b = 0 <-> width a = width b) /\
  (dimension_compare a b < 0 <-> width a > width b) /\
  (dimension_compare a b <= 0 -> dimension_compare b c <= 0 ->
   dimension_compare a c <= 0).
Proof.
  unfold dimension_compare. simpl.
  destruct (Z.gtb_spec (width a) (width b)),
    (Z.eqb_spec (width a) (width b)),
    (Z.gtb_spec (width b) (width a)),
    (Z.eqb_spec (width b) (width a)),
    (Z.gtb_spec (width b) (width c)),
    (Z.eqb_spec (width b) (width c)),
    (Z.gtb_spec (width a) (width c)),
    (Z.eqb_spec (width a) (width c));
    try lia; repeat split; try lia; auto.
Qed.

Lemma dimension_compare_order_witness :
  dimension_compare (mkDimension 1 900 800 S754_nan)
                    (mkDimension 2 450 400 S754_nan) <= 0 /\
  dimension_compare (mkDimension 2 450 400 S754_nan)
                    (mkDimension 3 450 401 S754_nan) <= 0 /\
  dimension_compare (mkDimension 1 900 800 S754_nan)
                    (mkDimension 3 450 401 S754_nan) <= 0.
Proof.
  assert (H1 : dimension_compare (mkDimension 1 900 800 S754_nan)
                 (mkDimension 2 450 400 S754_nan) <= 0)
    by (vm_compute; discriminate).
  assert (H2 : dimension_compare (mkDimension 2 450 400 S754_nan)
                 (mkDimension 3 450 401 S754_nan) <= 0)
    by (vm_compute; discriminate).
  split; [exact H1|]. split; [exact H2|].
  exact (proj2 (proj2 (proj2 (proj2 (dimension_compare_order _ _ _))))
           H1 H2).
Defined.

Lemma parse_dimensions_filter (across : Z) (nodes : list dimension_node) :
  parse_dimensions across (List.filter z_plane_0 nodes)
  = parse_dimensions across nodes.
Proof.
  induction nodes as [|node nodes IH]; [reflexivity|].
  simpl. unfold z_plane_0 at 1.
  destruct (dn_z node) as [z|] eqn:Hz.
  - destruct (String.eqb z "0") eqn:Hz0; simpl; [|exact IH].
    rewrite Hz, Hz0, IH. reflexivity.
  - simpl. rewrite Hz, IH. reflexivity.
Qed.

Lemma parse_image_z0 (across down : Z) (node : image_node) :
  has_z_plane_0 node ->
  parse_image across down (image_node_z0 node) = parse_image across down node.
Proof.
  intros Hz. unfold parse_image, image_node_z0. simpl.
  destruct (in_view node) as [view|]; [|reflexivity].
  destruct (vn_sizeX view); simpl; [|reflexivity].
  destruct (vn_sizeY view); simpl; [|reflexivity].
  destruct (vn_offsetX view); simpl; [|reflexivity].
  destruct (vn_offsetY view); simpl; [|reflexivity].
  destruct (in_dimensions node) as [nodes|] eqn:Hn; simpl; [|reflexivity].
  specialize (Hz nodes Hn). unfold xpath_result.
  destruct (List.filter z_plane_0 nodes) as [|n0 kept] eqn:Hf;
    [now destruct Hz|].
  now rewrite <- Hf, parse_dimensions_filter.
Qed.

Lemma parse_images_z0 (across down : Z) (nodes : list image_node) :
  Forall has_z_plane_0 nodes ->
  parse_images across down (map image_node_z0 nodes)
  = parse_images across down nodes.
Proof.
  induction nodes as [|node nodes IH]; intros Hz; [reflexivity|].
  apply Forall_cons_1 in Hz as [Hnode Hz].
  simpl. now rewrite parse_image_z0, IH.
Qed.

(** X8.  The [d:dimension] elements of z-planes other than 0 play no part
    in parsing, as long as every image keeps a dimension: a document in
    which every image with [d:dimension] elements has one of z-plane 0
    parses to the same collection, or fails with the same error, as the
    document without the elements of the other z-planes, even when their
    attributes are missing or malformed.  An element is of z-plane 0 when
    it has no [z] attribute or when its [z] attribute is the text "0".
    (An image all of whose elements are of other z-planes parses with no
    dimension, whereas without them parsing fails for want of
    dimensions.) *)
Theorem other_z_planes_ignored (xml_parse : string -> xmlDoc + GError)
    (xml : string) :
  (forall doc, xml_parse xml = inl doc -> images_have_z_plane_0 doc) ->
  parse_xml_description
    (fun x => match xml_parse x with
              | inl doc => inl (doc_z0 doc)
              | inr e => inr e
              end) xml
  = parse_xml_description xml_parse xml.
Proof.
  intros Hz. unfold parse_xml_description.
  destruct (xml_parse xml) as [doc|e]; [|reflexivity].
  specialize (Hz doc eq_refl). unfold images_have_z_plane_0 in Hz.
  unfold doc_z0. simpl.
  destruct (has_default_namespace_leica doc); simpl; [|reflexivity].
  destruct (doc_collection doc) as [node|] eqn:Hc; simpl; [|reflexivity].
  destruct (cn_sizeX node); simpl; [|reflexivity].
  destruct (cn_sizeY node); simpl; [|reflexivity].
  destruct (cn_images node) as [nodes|] eqn:Hi; simpl; [|reflexivity].
  rewrite parse_images_z0; [reflexivity|]. exact (Hz node nodes eq_refl Hi).
Qed.

Lemma other_z_planes_ignored_witness :
  images_have_z_plane_0 MoreSamples.malformed_plane_doc /\
  parse MoreSamples.malformed_plane_doc
  = parse (doc_z0 MoreSamples.malformed_plane_doc) /\
  (exists c, parse MoreSamples.malformed_plane_doc = inl c /\
             map (fun img => length (dimensions img)) (images c)
             = [1%nat; 2%nat]) /\
  (exists c, parse MoreSamples.no_dimension_doc = inl c) /\
  parse (doc_z0 MoreSamples.no_dimension_doc)
  = inr (BadData "Can't find any dimensions in image").
Proof.
  assert (Hz : images_have_z_plane_0 MoreSamples.malformed_plane_doc).
  { intros node nodes Hn Hi. inversion Hn; subst node.
    inversion Hi; subst nodes.
    repeat constructor; intros ns Hns; inversion Hns; discriminate. }
  split; [exact Hz|]. split.
  - symmetry.
    apply (other_z_planes_ignored
             (fun _ => inl MoreSamples.malformed_plane_doc)
             sample_image_description).
    intros doc Hdoc. inversion Hdoc; subst doc. exact Hz.
  - split; [eexists; split; vm_compute; reflexivity|].
    split; [eexists; vm_compute; reflexivity|].
    vm_compute. reflexivity.
Defined.

Lemma parse_dimensions_density (across : Z) (nodes : list dimension_node) :
  forall manifest,
    parse_dimensions across nodes = inl manifest ->
    length manifest = length (List.filter z_plane_0 nodes) /\
    Forall (fun d => dim_clicks_per_pixel d
                     = Double.div (Double.of_int64 across)
                                  (Double.of_int64 (width d)))
           manifest.
Proof.
  induction nodes as [|node nodes IH]; intros manifest H; simpl in H.
  - inversion H. split; [reflexivity|constructor].
  - simpl. unfold z_plane_0 at 1 3.
    destruct (dn_z node) as [z|].
    + destruct (String.eqb z "0"); simpl in H; [|now apply IH].
      destruct (dn_ifd node); simpl in H; [|discriminate].
      destruct (dn_sizeX node); simpl in H; [|discriminate].
      destruct (dn_sizeY node); simpl in H; [|discriminate].
      destruct (parse_dimensions across nodes) as [dims|]; [|discriminate].
      inversion H; subst manifest. destruct (IH dims eq_refl) as [Hl Hd].
      split; [simpl; now rewrite Hl|]. constructor; [reflexivity|exact Hd].
    + simpl in H.
      destruct (dn_ifd node); simpl in H; [|discriminate].
      destruct (dn_sizeX node); simpl in H; [|discriminate].
      destruct (dn_sizeY node); simpl in H; [|discriminate].
      destruct (parse_dimensions across nodes) as [dims|]; [|discriminate].
      inversion H; subst manifest. destruct (IH dims eq_refl) as [Hl Hd].
      split; [simpl; now rewrite Hl|]. constructor; [reflexivity|exact Hd].
Qed.

Lemma parse_image_mirrors (across down : Z) (node : image_node)
    (img : image) :
  parse_image across down node = inl img -> image_mirrors_node node img.
Proof.
  unfold parse_image, image_mirrors_node. intros H.
  destruct (in_view node) as [view|]; [|discriminate].
  destruct (vn_sizeX view) eqn:E1; simpl in H; [|discriminate].
  destruct (vn_sizeY view) eqn:E2; simpl in H; [|discriminate].
  destruct (vn_offsetX view) eqn:E3; simpl in H; [|discriminate].
  destruct (vn_offsetY view) eqn:E4; simpl in H; [|discriminate].
  destruct (in_dimensions node) as [nodes|]; [|discriminate].
  destruct (parse_dimensions v nodes) as [dims|] eqn:E; [|discriminate].
  apply parse_dimensions_density in E as [Hlen Hdens].
  inversion H; subst img; simpl.
  repeat (split; [reflexivity|]).
  split; [exists view; auto|].
  split.
  - exists nodes. split; [reflexivity|].
    rewrite <- Hlen. symmetry. apply Permutation_length.
    apply g_ptr_array_sort_perm.
  - eapply Permutation_Forall; [apply g_ptr_array_sort_perm|exact Hdens].
Qed.

Lemma parse_images_mirror (across down : Z) (nodes : list image_node) :
  forall imgs,
    parse_images across down nodes = inl imgs ->
    Forall2 image_mirrors_node nodes imgs.
Proof.
  induction nodes as [|node nodes IH]; intros imgs H; simpl in H.
  - inversion H. constructor.
  - destruct (parse_image across down node) as [img|] eqn:E1; [|discriminate].
    destruct (parse_images across down nodes) as [rest|] eqn:E2;
      [|discriminate].
    inversion H; subst imgs. constructor; [|now apply IH].
    now apply (parse_image_mirrors across down).
Qed.

(** X9.  A collection the parser returns mirrors the document: the
    document is in the Leica namespace and has a [d:collection] element,
    whose barcode and size are those of the collection; the collection
    has one image for each [d:image] element, in the order of the
    document, with the texts of the element, the size and offsets of its
    [d:view], and one dimension for each of its [d:dimension] elements of
    z-plane 0; and the click density of every dimension is the width of
    its image in clicks divided by its own width in pixels (the sort does
    not part a dimension from its density). *)
Theorem parsed_collection_mirrors_document
    (xml_parse : string -> xmlDoc + GError) (xml : string) (c : collection) :
  parse_xml_description xml_parse xml = inl c ->
  exists doc, xml_parse xml = inl doc /\ collection_mirrors_doc doc c.
Proof.
  unfold parse_xml_description, collection_mirrors_doc. intros H.
  destruct (xml_parse xml) as [doc|]; [|discriminate].
  exists doc. split; [reflexivity|].
  destruct (has_default_namespace_leica doc); simpl in H; [|discriminate].
  split; [reflexivity|].
  destruct (doc_collection doc) as [node|]; [|discriminate].
  destruct (cn_sizeX node) eqn:E1; simpl in H; [|discriminate].
  destruct (cn_sizeY node) eqn:E2; simpl in H; [|discriminate].
  destruct (cn_images node) as [nodes|] eqn:E3; [|discriminate].
  destruct (parse_images v v0 nodes) as [imgs|] eqn:E; [|discriminate].
  inversion H; subst c; simpl. exists node, nodes.
  split; [reflexivity|]. split; [reflexivity|].
  split; [exact E1|]. split; [exact E2|]. split; [exact E3|].
  now apply (parse_images_mirror v v0).
Qed.

Lemma parsed_collection_mirrors_document_witness :
  parse two_mains_doc = inl (collection_of two_mains_doc) /\
  collection_mirrors_doc two_mains_doc (collection_of two_mains_doc).
Proof.
  assert (H : parse_xml_description (fun _ => inl two_mains_doc)
                sample_image_description
              = inl (collection_of two_mains_doc))
    by (vm_compute; reflexivity).
  split; [exact H|].
  destruct (parsed_collection_mirrors_document _ _ _ H) as (doc & Hdoc & Hc).
  inversion Hdoc; subst doc. exact Hc.
Defined.

(** ** Level synthesis never reads the property table *)

Lemma oblivious_ret {A : Type} (a : A) : oblivious (ret a).
Proof. intros st st' H. split; [exact H|reflexivity]. Qed.

Lemma oblivious_fail {A : Type} (e : GError) : oblivious (@fail A e).
Proof. intros st st' H. split; [exact H|reflexivity]. Qed.

Lemma oblivious_undefined {A : Type} : oblivious (@undefined A).
Proof. intros st st' H. split; [exact H|reflexivity]. Qed.

Lemma oblivious_bind {A B : Type} (m : Synth A) (k : A -> Synth B) :
  oblivious m -> (forall a, oblivious (k a)) -> oblivious (bind m k).
Proof.
  intros Hm Hk st st' H. unfold bind.
  destruct (Hm st st' H) as [Hst Hr].
  destruct (m st) as [st1 r1], (m st') as [st1' r1']. simpl in Hst, Hr.
  subst r1'. destruct r1; try (split; [exact Hst|reflexivity]).
  now apply Hk.
Qed.

Lemma oblivious_modify (f : synth -> synth) :
  (forall st st', same_but_properties st st' ->
                  same_but_properties (f st) (f st')) ->
  oblivious (modify f).
Proof. intros Hf st st' H. split; [now apply Hf|reflexivity]. Qed.

Lemma same_but_properties_with_levels (f : list level -> list level)
    (st st' : synth) :
  same_but_properties st st' ->
  same_but_properties (with_levels f st) (with_levels f st').
Proof.
  intros (Hl & Hq & Ha). unfold same_but_properties. simpl.
  now rewrite Hl.
Qed.

Lemma oblivious_level_of_dimension (is_first : bool) (f : image) (n : nat)
    (d : dimension) :
  oblivious (level_of_dimension is_first f n d).
Proof.
  intros st st' H. pose proof H as (Hl & _).
  unfold level_of_dimension. rewrite <- Hl.
  destruct is_first.
  { split; [now apply same_but_properties_with_levels|reflexivity]. }
  destruct (levels st !! n); [|split; [exact H|reflexivity]].
  destruct (dimensions f !! n) as [fd|];
    [|split; [now apply same_but_properties_with_levels|reflexivity]].
  destruct (Double.ltb (resolution_similarity d fd) Double.c0_98);
    (split; [now apply same_but_properties_with_levels|reflexivity]).
Qed.

Lemma oblivious_create_area (T : collaborators) (l : nat) (img : image)
    (d : dimension) :
  oblivious (create_area T l img d).
Proof.
  intros st st' H. unfold create_area, add_area.
  destruct (tiff_level_init T (dir d)) as [t|e];
    [|split; [now apply same_but_properties_with_levels|reflexivity]].
  destruct (tiff_get_compression T (dir d)) as [compression|];
    [|split; [now apply same_but_properties_with_levels|reflexivity]].
  destruct (tiff_codec_configured T compression);
    (split; [now apply same_but_properties_with_levels|reflexivity]).
Qed.

Lemma oblivious_dimensions_loop (T : collaborators) (is_first : bool)
    (f img : image) (dims : list dimension) :
  forall n, oblivious (dimensions_loop T is_first f img dims n).
Proof.
  induction dims as [|d dims IH]; intros n; simpl.
  - apply oblivious_ret.
  - apply oblivious_bind; [apply oblivious_level_of_dimension|].
    intros l. apply oblivious_bind; [apply oblivious_create_area|].
    intros _. apply IH.
Qed.

Lemma oblivious_check_similar (img f : image) :
  oblivious (check_similar img f).
Proof.
  unfold check_similar.
  destruct (strcmp (illumination_source img) (illumination_source f))
    as [[]|]; try apply oblivious_fail; try apply oblivious_undefined.
  destruct (strcmp (objective img) (objective f)) as [[]|];
    try apply oblivious_fail; try apply oblivious_undefined.
  destruct (Nat.eqb _ _); [apply oblivious_ret|apply oblivious_fail].
Qed.

Lemma oblivious_set_quickhash_dir (q : Z) :
  oblivious (modify (with_quickhash_dir q)).
Proof.
  apply oblivious_modify. intros st st' (Hl & Hq & Ha).
  unfold same_but_properties. simpl. auto.
Qed.

Lemma oblivious_main_image_step (T : collaborators) (lq : bool) (n : nat)
    (img : image) (first : option (nat * image)) :
  oblivious (main_image_step T lq n img first).
Proof.
  unfold main_image_step.
  destruct (is_macro img); [apply oblivious_ret|].
  destruct (not_brightfield img); [apply oblivious_ret|].
  apply oblivious_bind.
  { destruct first as [f|]; [apply oblivious_ret|].
    apply oblivious_bind; [|intros _; apply oblivious_ret].
    apply oblivious_modify. intros st st' (Hl & Hq & Ha).
    unfold same_but_properties. simpl. auto. }
  intros f. apply oblivious_bind; [apply oblivious_check_similar|].
  intros _. apply oblivious_bind; [apply oblivious_dimensions_loop|].
  intros _. apply oblivious_bind; [|intros _; apply oblivious_ret].
  destruct (lq && Nat.eqb n (fst f)); [|apply oblivious_ret].
  destruct (last_dimension (dimensions img));
    [apply oblivious_set_quickhash_dir|apply oblivious_undefined].
Qed.

Lemma oblivious_main_images_loop (T : collaborators) (lq : bool)
    (imgs : list image) :
  forall n first, oblivious (main_images_loop T lq imgs n first).
Proof.
  induction imgs as [|img imgs IH]; intros n first; simpl.
  - apply oblivious_ret.
  - apply oblivious_bind; [apply oblivious_main_image_step|].
    intros first'. apply IH.
Qed.

Lemma oblivious_macro_image_step (T : collaborators) (lq : bool)
    (img : image) (have : bool) :
  oblivious (macro_image_step T lq img have).
Proof.
  unfold macro_image_step.
  destruct (negb (is_macro img)); [apply oblivious_ret|].
  destruct (not_brightfield img); [apply oblivious_ret|].
  destruct have; [apply oblivious_fail|].
  destruct (dimensions img !! 0%nat) as [largest|];
    [|apply oblivious_undefined].
  destruct (tiff_add_associated_image T (dir largest));
    [apply oblivious_fail|].
  apply oblivious_bind.
  { apply oblivious_modify. intros st st' (Hl & Hq & Ha).
    unfold same_but_properties. simpl. now rewrite Ha. }
  intros _. apply oblivious_bind; [|intros _; apply oblivious_ret].
  destruct (negb lq); [|apply oblivious_ret].
  destruct (last_dimension (dimensions img));
    [apply oblivious_set_quickhash_dir|apply oblivious_undefined].
Qed.

Lemma oblivious_macro_images_loop (T : collaborators) (lq : bool)
    (imgs : list image) :
  forall have, oblivious (macro_images_loop T lq imgs have).
Proof.
  induction imgs as [|img imgs IH]; intros have; simpl.
  - apply oblivious_ret.
  - apply oblivious_bind; [apply oblivious_macro_image_step|].
    intros have'. apply IH.
Qed.

Lemma oblivious_check_quickhash_dir : oblivious check_quickhash_dir.
Proof.
  intros st st' H. pose proof H as (_ & Hq & _).
  unfold check_quickhash_dir. rewrite <- Hq.
  destruct (quickhash_dir st =? -1); (split; [exact H|reflexivity]).
Qed.

Lemma oblivious_synthesis (T : collaborators) (c : collection) :
  oblivious
    (bind (main_images_loop T (should_use_legacy_quickhash c) (images c) 0
                            None)
          (fun first =>
             match first with
             | None => fail (BadData "Can't find main image")
             | Some _ =>
                 bind (modify (with_levels (map (set_level_size T c))))
                   (fun _ =>
                      bind (macro_images_loop T
                              (should_use_legacy_quickhash c) (images c)
                              false)
                           (fun _ => check_quickhash_dir))
             end)).
Proof.
  apply oblivious_bind; [apply oblivious_main_images_loop|].
  intros [first|]; [|apply oblivious_fail].
  apply oblivious_bind.
  { apply oblivious_modify. intros st st'.
    apply same_but_properties_with_levels. }
  intros _. apply oblivious_bind; [apply oblivious_macro_images_loop|].
  intros _. apply oblivious_check_quickhash_dir.
Qed.

(** X10.  Level synthesis never reads the property table of the reader:
    with a reader that has other properties, or with no reader at all,
    it ends the same way (the same success, the same error), and leaves
    the same levels, the same [quickhash_dir] and the same associated
    images, as long as the TIFF decoder answers the same. *)
Theorem synthesis_ignores_properties (T : collaborators)
    (osr osr' : option (gmap string string)) (c : collection)
    (levels0 : list level) :
  snd (create_levels_from_collection T osr c levels0)
  = snd (create_levels_from_collection T osr' c levels0) /\
  same_but_properties (fst (create_levels_from_collection T osr c levels0))
                      (fst (create_levels_from_collection T osr' c levels0)).
Proof.
  rewrite !create_levels_from_collection_unfold.
  destruct (oblivious_synthesis T c (initial_synth osr c levels0)
              (initial_synth osr' c levels0)) as [Hst Hr].
  { unfold same_but_properties. simpl. auto. }
  split; [exact Hr|exact Hst].
Qed.


(** ** leica_open: more of what a caller can rely on *)

Lemma leica_open_reaches (O : open_collaborators) (c : collection)
    (osr : option (gmap string string)) :
  reaches_synthesis O c ->
  leica_open O osr
  = match create_levels_from_collection (synthesis O) osr c [] with
    | (_, Failed e) => Failed e
    | (_, Aborted) => Aborted
    | (_, Undefined) => Undefined
    | (st, Done _) =>
        match levels st with
        | [] => Aborted
        | level0 :: _ =>
            match properties st with
            | None => Done None
            | Some props =>
                match areas level0 with
                | [] => Undefined
                | property_area :: _ =>
                    let property_dir := tiffl_dir (tiffl property_area) in
                    match init_properties_and_hash O props
                            (quickhash_dir st) property_dir with
                    | inr e => Failed e
                    | inl props =>
                        let props :=
                          delete "tiff.ImageDescription"
                            (delete OPENSLIDE_PROPERTY_NAME_COMMENT props) in
                        if open_set_directory O property_dir then
                          Done (Some (mkOpenslide
                            (set_resolution_prop O property_dir
                               OPENSLIDE_PROPERTY_NAME_MPP_Y
                               TIFFTAG_YRESOLUTION
                               (set_resolution_prop O property_dir
                                  OPENSLIDE_PROPERTY_NAME_MPP_X
                                  TIFFTAG_XRESOLUTION props))
                            (levels st)
                            (Z.of_nat (length (levels st)))
                            (associated_images st)))
                        else Failed (BadData "Can't read directory")
                    end
                end
            end
        end
    end.
Proof.
  intros (Htiled & image_desc & Hdesc & Hns & Hparse).
  unfold leica_open. now rewrite Htiled, Hdesc, Hns, Hparse.
Qed.

Lemma leica_open_Done_reaches (O : open_collaborators)
    (osr : option (gmap string string)) (r : option openslide_t) :
  leica_open O osr = Done r -> exists c, reaches_synthesis O c.
Proof.
  unfold leica_open, reaches_synthesis. intros H.
  destruct (tiff_is_tiled O); [|discriminate]. simpl in H.
  destruct (tiff_image_description O) as [image_desc|]; [|discriminate].
  destruct (contains_leica_xmlns image_desc) eqn:Hns; [|discriminate].
  destruct (parse_xml_description (xml_parse O) image_desc) as [c|e] eqn:Hp;
    [|discriminate].
  exists c. split; [reflexivity|]. exists image_desc. auto.
Qed.

Lemma reaches_synthesis_opened (O : open_collaborators) (c : collection) :
  reaches_synthesis O c -> opened_collection O = Some c.
Proof.
  intros (_ & image_desc & Hdesc & _ & Hparse).
  unfold opened_collection. now rewrite Hdesc, Hparse.
Qed.

(** X11.  A TIFF that is not tiled, or has no ImageDescription, or has
    one without the Leica namespace in it, or one that does not parse as
    XML, or one whose default namespace is not Leica's, is turned down
    with an error of code [OPENSLIDE_ERROR_FORMAT_NOT_SUPPORTED], with or
    without a reader, whatever the rest of the TIFF holds: so detection
    can go on to other formats.  No other failure of [leica_open] before
    level synthesis has that code of its own: a Leica document without a
    collection element fails with BadData. *)
Theorem leica_open_format_not_supported (O : open_collaborators)
    (osr : option (gmap string string)) :
  (not_leica O ->
   exists e, leica_open O osr = Failed e /\
             code e = OPENSLIDE_ERROR_FORMAT_NOT_SUPPORTED) /\
  (forall image_desc doc,
     tiff_is_tiled O = true ->
     tiff_image_description O = Some image_desc ->
     contains_leica_xmlns image_desc = true ->
     xml_parse O image_desc = inl doc ->
     has_default_namespace_leica doc = true ->
     doc_collection doc = None ->
     leica_open O osr = Failed (BadData "Can't find collection element")).
Proof.
  split.
  - unfold not_leica, leica_open, parse_xml_description.
    intros [H|H]; [rewrite H; simpl; eauto|].
    destruct (tiff_is_tiled O); simpl; [|eauto].
    destruct (tiff_image_description O) as [image_desc|]; [|eauto].
    destruct (contains_leica_xmlns image_desc); simpl; [|eauto].
    destruct H as [H|H]; [discriminate|].
    destruct (xml_parse O image_desc) as [doc|e]; [|eauto].
    rewrite H. simpl. eauto.
  - intros image_desc doc Ht Hd Hns Hx Hdef Hc.
    unfold leica_open, parse_xml_description.
    now rewrite Ht, Hd, Hns, Hx, Hdef, Hc.
Qed.

Lemma leica_open_format_not_supported_witness :
  not_leica MoreSamples.untiled_slide /\
  exists e, leica_open MoreSamples.untiled_slide None = Failed e /\
            code e = OPENSLIDE_ERROR_FORMAT_NOT_SUPPORTED.
Proof.
  assert (H : not_leica MoreSamples.untiled_slide) by (left; reflexivity).
  split; [exact H|].
  exact (proj1 (leica_open_format_not_supported _ None) H).
Defined.

Lemma leica_open_Some_inv (O : open_collaborators)
    (osr : option (gmap string string)) (reader : openslide_t) :
  leica_open O osr = Done (Some reader) ->
  exists c st level0 ls props property_area others table,
    reaches_synthesis O c /\
    create_levels_from_collection (synthesis O) osr c [] = (st, Done tt) /\
    levels st = level0 :: ls /\
    properties st = Some props /\
    areas level0 = property_area :: others /\
    init_properties_and_hash O props (quickhash_dir st)
      (tiffl_dir (tiffl property_area)) = inl table /\
    open_set_directory O (tiffl_dir (tiffl property_area)) = true /\
    reader
    = mkOpenslide
        (set_resolution_prop O (tiffl_dir (tiffl property_area))
           OPENSLIDE_PROPERTY_NAME_MPP_Y TIFFTAG_YRESOLUTION
           (set_resolution_prop O (tiffl_dir (tiffl property_area))
              OPENSLIDE_PROPERTY_NAME_MPP_X TIFFTAG_XRESOLUTION
              (delete "tiff.ImageDescription"
                 (delete OPENSLIDE_PROPERTY_NAME_COMMENT table))))
        (levels st) (Z.of_nat (length (levels st))) (associated_images st).
Proof.
  intros H. destruct (leica_open_Done_reaches _ _ _ H) as [c Hc].
  rewrite (leica_open_reaches O c osr Hc) in H.
  destruct (create_levels_from_collection (synthesis O) osr c [])
    as [st [[]|e| |]] eqn:Hrun; try discriminate.
  destruct (levels st) as [|level0 ls] eqn:Hlevels; [discriminate|].
  destruct (properties st) as [props|] eqn:Hprops; [|discriminate].
  destruct (areas level0) as [|property_area others] eqn:Hareas;
    [discriminate|].
  cbv zeta in H.
  destruct (init_properties_and_hash O props (quickhash_dir st)
              (tiffl_dir (tiffl property_area))) as [table|e] eqn:Hinit;
    [|discriminate].
  destruct (open_set_directory O (tiffl_dir (tiffl property_area)))
    eqn:Hset; [|discriminate].
  inversion H; subst reader; clear H.
  exists c, st, level0, ls, props, property_area, others, table.
  rewrite Hlevels. repeat split; auto.
  - now destruct Hc.
  - now destruct Hc.
Qed.

(** X12.  A reader [leica_open] has opened has at least one level, and
    [level_count] is the number of its levels, which is the number of
    dimensions of the first main image of the collection.  Its
    associated images are none, or the one named "macro" read from the
    directory the [dir] of the first dimension of the only brightfield
    macro image designates as a [tdir_t] (converted to that unsigned
    type). *)
Theorem opened_reader_levels (O : open_collaborators)
    (osr : option (gmap string string)) (reader : openslide_t) :
  leica_open O osr = Done (Some reader) ->
  exists c f,
    opened_collection O = Some c /\
    head (main_images c) = Some f /\
    osr_level_count reader = Z.of_nat (length (osr_levels reader)) /\
    length (osr_levels reader) = length (dimensions f) /\
    0 < osr_level_count reader /\
    ((macro_images c = [] /\ osr_associated_images reader = []) \/
     (exists m largest,
        macro_images c = [m] /\
        dimensions m !! 0%nat = Some largest /\
        osr_associated_images reader = [("macro", dir largest mod 2 ^ tdir_t_bits (synthesis O))])).
Proof.
  intros H. apply leica_open_Some_inv in H
    as (c & st & level0 & ls & props & pa & others & table
        & Hc & Hrun & Hlevels & _ & _ & _ & _ & ->).
  pose proof (create_levels_from_collection_frame _ _ _ _ _ Hrun)
    as (f & rest & Hmain & _ & _ & _ & Hassoc).
  apply create_levels_from_collection_Done in Hrun
    as (f' & rest' & Hmain' & Hlev & Hall & _).
  rewrite Hmain in Hmain'. inversion Hmain'; subst f' rest'.
  exists c, f. split; [now apply reaches_synthesis_opened|].
  split; [now rewrite Hmain|]. simpl.
  split; [reflexivity|].
  assert (Hlen : length (levels st) = length (dimensions f)).
  { rewrite Hlev, length_map. unfold built_levels.
    rewrite fold_merge_image_length. apply length_map. }
  split; [exact Hlen|].
  split; [rewrite Hlevels; simpl; lia|].
  destruct Hassoc as [Hnone | (m & largest & Hm & Hl & _ & Ha)];
    [left; exact Hnone|right; eauto].
Qed.

Lemma opened_reader_levels_witness :
  exists reader,
    leica_open (sample_slide two_mains_doc) (Some ∅) = Done (Some reader) /\
    osr_level_count reader = 2 /\
    osr_associated_images reader = [("macro", 10)].
Proof.
  assert (H : exists reader,
             leica_open (sample_slide two_mains_doc) (Some ∅)
             = Done (Some reader))
    by (eexists; vm_compute; reflexivity).
  destruct H as [reader H]. exists reader. split; [exact H|].
  destruct (opened_reader_levels _ _ _ H)
    as (c & f & Hc & Hf & Hcount & Hlen & _ & Ha).
  vm_compute in Hc. inversion Hc; subst c; clear Hc.
  vm_compute in Hf. inversion Hf; subst f; clear Hf.
  split; [rewrite Hcount, Hlen; reflexivity|].
  destruct Ha as [[Hm _] | (m & largest & Hm & Hl & Ha)].
  - vm_compute in Hm. discriminate.
  - vm_compute in Hm. inversion Hm; subst m.
    vm_compute in Hl. inversion Hl; subst largest. exact Ha.
Defined.

(** X13.  In a reader [leica_open] has opened, the properties are those
    [_openslide_tiff_init_properties_and_hash] made from the table level
    synthesis left, the quickhash directory and the directory of the
    first area of level 0 — which is the TIFF level made of the first
    dimension of the first main image —, but for four keys:
    "openslide.comment" and "tiff.ImageDescription" are absent, and
    "openslide.mpp-x" and "openslide.mpp-y" are 10000 divided by the X
    and Y resolution of that directory when its resolution unit is the
    centimeter and the resolution is there, and as the generic properties
    had them otherwise. *)
Theorem opened_reader_properties (O : open_collaborators)
    (osr : option (gmap string string)) (reader : openslide_t) :
  leica_open O osr = Done (Some reader) ->
  exists c f d t property_area table,
    opened_collection O = Some c /\
    head (main_images c) = Some f /\
    dimensions f !! 0%nat = Some d /\
    tiff_level_init (synthesis O) (dir d) = inl t /\
    property_area_of reader = Some property_area /\
    tiffl property_area = t /\
    open_set_directory O (tiffl_dir t) = true /\
    (exists props quickhash,
       init_properties_and_hash O props quickhash (tiffl_dir t)
       = inl table) /\
    osr_properties reader !! "openslide.comment" = None /\
    osr_properties reader !! "tiff.ImageDescription" = None /\
    osr_properties reader !! "openslide.mpp-x"
    = match resolution_unit O (tiffl_dir t),
            resolution O (tiffl_dir t) TIFFTAG_XRESOLUTION with
      | Some unit, Some r =>
          if unit =? RESUNIT_CENTIMETER
          then Some (format_double O (Double.div (Double.of_int64 10000) r))
          else table !! "openslide.mpp-x"
      | _, _ => table !! "openslide.mpp-x"
      end /\
    osr_properties reader !! "openslide.mpp-y"
    = match resolution_unit O (tiffl_dir t),
            resolution O (tiffl_dir t) TIFFTAG_YRESOLUTION with
      | Some unit, Some r =>
          if unit =? RESUNIT_CENTIMETER
          then Some (format_double O (Double.div (Double.of_int64 10000) r))
          else table !! "openslide.mpp-y"
      | _, _ => table !! "openslide.mpp-y"
      end /\
    forall key,
      ~ In key ["openslide.comment"; "tiff.ImageDescription";
                "openslide.mpp-x"; "openslide.mpp-y"] ->
      osr_properties reader !! key = table !! key.
Proof.
  intros H. apply leica_open_Some_inv in H
    as (c & st & level0 & ls & props & pa & others & table
        & Hc & Hrun & Hlevels & _ & Hareas & Hinit & Hset & ->).
  pose proof (create_levels_from_collection_frame _ _ _ _ _ Hrun)
    as (f & rest & Hmain & _).
  pose proof (create_levels_from_collection_built _ _ _ _ Hrun)
    as (f' & rest' & Hmain' & Hlev & Hall & Hread).
  rewrite Hmain in Hmain'. inversion Hmain'; subst f' rest'.
  assert (Hback : Forall2 (area_backed_by (synthesis O) 0) (f :: rest)
                          (areas level0)).
  { rewrite Hlevels in Hlev.
    destruct (built_levels (synthesis O) f rest) as [|l0 ls0] eqn:Hb;
      [discriminate|].
    inversion Hlev. simpl.
    apply (built_levels_areas _ f rest 0 l0 Hall Hread).
    now rewrite Hb. }
  rewrite Hareas in Hback.
  apply Forall2_cons_1 in Hback as [(d & t & Hd & Ht & Hpa) _].
  assert (Htl : tiffl pa = t) by now rewrite Hpa.
  rewrite Htl in *.
  exists c, f, d, t, pa, table.
  split; [now apply reaches_synthesis_opened|].
  split; [now rewrite Hmain|].
  split; [exact Hd|]. split; [exact Ht|].
  split; [unfold property_area_of; simpl; now rewrite Hlevels, Hareas|].
  split; [exact Htl|]. split; [exact Hset|].
  split; [eauto|].
  unfold set_resolution_prop, RESUNIT_CENTIMETER,
    OPENSLIDE_PROPERTY_NAME_MPP_X, OPENSLIDE_PROPERTY_NAME_MPP_Y,
    OPENSLIDE_PROPERTY_NAME_COMMENT.
  cbn [osr_properties].
  destruct (resolution_unit O (tiffl_dir t)) as [unit|];
    [destruct (unit =? 3)|];
    destruct (resolution O (tiffl_dir t) TIFFTAG_XRESOLUTION);
    destruct (resolution O (tiffl_dir t) TIFFTAG_YRESOLUTION);
    (repeat split;
     [ now simplify_map_eq | now simplify_map_eq
     | now simplify_map_eq | now simplify_map_eq
     | intros key Hkey; simpl in Hkey;
       rewrite ?lookup_insert_ne by (intros <-; tauto);
       rewrite !lookup_delete_ne by (intros <-; tauto);
       reflexivity ]).
Qed.

Lemma opened_reader_properties_witness :
  exists reader,
    leica_open (MoreSamples.slide_with_resolution main_and_macro_doc)
               (Some ∅) = Done (Some reader) /\
    osr_properties reader !! "openslide.comment" = None /\
    osr_properties reader !! "tiff.ImageDescription" = None /\
    osr_properties reader !! "openslide.mpp-x" = Some "0.25".
Proof.
  assert (H : exists reader,
             leica_open (MoreSamples.slide_with_resolution
                           main_and_macro_doc) (Some ∅)
             = Done (Some reader))
    by (eexists; vm_compute; reflexivity).
  destruct H as [reader H]. exists reader. split; [exact H|].
  destruct (opened_reader_properties _ _ _ H)
    as (c & f & d & t & pa & table & _ & _ & _ & _ & _ & _ & _ & _
        & Hcomment & Hdesc & Hx & _).
  split; [exact Hcomment|]. split; [exact Hdesc|].
  rewrite Hx. reflexivity.
Defined.

(** X14.  [leica_open] returns a reader exactly when it is given one:
    with no reader a success returns none, with a reader a success
    returns it.  Detection and opening agree: when [leica_open] succeeds
    with a reader it succeeds without one, and when it fails without a
    reader (with an error, on the assertion, or on behaviour C does not
    define) it ends the same way with any reader. *)
Theorem leica_open_detection_agrees (O : open_collaborators)
    (props : gmap string string) :
  (forall r, leica_open O None = Done r -> r = None) /\
  (forall r, leica_open O (Some props) = Done r ->
             r <> None /\ leica_open O None = Done None) /\
  (forall e, leica_open O None = Failed e ->
             leica_open O (Some props) = Failed e) /\
  (leica_open O None = Aborted -> leica_open O (Some props) = Aborted) /\
  (leica_open O None = Undefined -> leica_open O (Some props) = Undefined).
Proof.
  unfold leica_open.
  destruct (tiff_is_tiled O); simpl;
    [|repeat split; intros; try discriminate; auto].
  destruct (tiff_image_description O) as [image_desc|];
    [|repeat split; intros; try discriminate; auto].
  destruct (contains_leica_xmlns image_desc); simpl;
    [|repeat split; intros; try discriminate; auto].
  destruct (parse_xml_description (xml_parse O) image_desc) as [c|e];
    [|repeat split; intros; try discriminate; auto].
  pose proof (oblivious_synthesis (synthesis O) c (initial_synth None c [])
                (initial_synth (Some props) c [])
                ltac:(unfold same_but_properties; simpl; auto))
    as [(Hl & Hq & Ha) Hr].
  rewrite <- !create_levels_from_collection_unfold in Hl, Hq, Ha, Hr.
  destruct (create_levels_from_collection (synthesis O) None c [])
    as [st r] eqn:Hnone.
  destruct (create_levels_from_collection (synthesis O) (Some props) c [])
    as [st' r'] eqn:Hsome.
  simpl in Hr, Hl, Hq, Ha. subst r'.
  destruct r as [[]|e| |];
    try (repeat split; intros; try discriminate; auto; fail).
  pose proof (create_levels_from_collection_frame _ _ _ _ _ Hnone)
    as (f & others & Hmain & _ & _ & Hp & _).
  pose proof (create_levels_from_collection_frame _ _ _ _ _ Hsome)
    as (f' & others' & Hmain' & Hobj & _ & Hp' & _).
  rewrite Hmain in Hmain'. inversion Hmain'; subst f' others'.
  assert (Hnp : properties st = None).
  { rewrite Hp. unfold first_main_image_props, set_prop.
    now destruct (barcode c). }
  assert (Hsp : exists table, properties st' = Some table).
  { rewrite Hp'. unfold first_main_image_props.
    rewrite !set_prop_Some. eauto. }
  destruct Hsp as [table Hsp]. rewrite Hnp, Hsp, <- Hl.
  destruct (levels st) as [|level0 ls] eqn:Hlevels;
    [repeat split; intros; try discriminate; auto|].
  repeat split; intros; try discriminate; auto.
  - now inversion H.
  - destruct (areas level0); [discriminate|]. cbv zeta in H.
    destruct (init_properties_and_hash O table (quickhash_dir st')
                (tiffl_dir (tiffl a))); [|discriminate].
    destruct (open_set_directory O (tiffl_dir (tiffl a)));
      [|discriminate].
    inversion H. discriminate.
Qed.

Lemma leica_open_detection_agrees_witness :
  exists reader,
    leica_open (sample_slide two_mains_doc) (Some ∅) = Done (Some reader) /\
    leica_open (sample_slide two_mains_doc) None = Done None.
Proof.
  assert (H : exists reader,
             leica_open (sample_slide two_mains_doc) (Some ∅)
             = Done (Some reader))
    by (eexists; vm_compute; reflexivity).
  destruct H as [reader H]. exists reader. split; [exact H|].
  exact (proj2 (proj1 (proj2 (leica_open_detection_agrees _ ∅)) _ H)).
Defined.

(** X15.  When level synthesis succeeds although the first main image
    has no dimension (all its [d:dimension] elements are of other
    z-planes), which can only be when the quickhash is not the legacy
    one, there is no level, and [leica_open] ends the program on its
    assertion [level_count > 0], with or without a reader. *)
Theorem leica_open_without_levels (O : open_collaborators)
    (osr : option (gmap string string)) (c : collection) (st : synth)
    (f : image) :
  reaches_synthesis O c ->
  create_levels_from_collection (synthesis O) osr c [] = (st, Done tt) ->
  head (main_images c) = Some f ->
  dimensions f = [] ->
  should_use_legacy_quickhash c = false /\
  leica_open O osr = Aborted.
Proof.
  intros Hc Hrun Hf Hdims.
  rewrite (leica_open_reaches O c osr Hc), Hrun.
  apply create_levels_from_collection_Done in Hrun
    as (f' & others & Hmain & Hlev & _ & _ & _ & Hlegacy & _).
  rewrite Hmain in Hf. inversion Hf; subst f'.
  split.
  { destruct (should_use_legacy_quickhash c); [|reflexivity].
    destruct (Hlegacy eq_refl) as (d & Hd & _).
    rewrite Hdims in Hd. discriminate. }
  assert (Hlen : length (levels st) = 0%nat).
  { rewrite Hlev, length_map. unfold built_levels.
    rewrite fold_merge_image_length, length_map, Hdims. reflexivity. }
  destruct (levels st); [reflexivity|discriminate].
Qed.

Lemma leica_open_without_levels_witness :
  reaches_synthesis (sample_slide MoreSamples.no_dimension_doc)
                    (collection_of MoreSamples.no_dimension_doc) /\
  snd (synthesize MoreSamples.no_dimension_doc) = Done tt /\
  leica_open (sample_slide MoreSamples.no_dimension_doc) None = Aborted.
Proof.
  assert (Hc : reaches_synthesis (sample_slide MoreSamples.no_dimension_doc)
                 (collection_of MoreSamples.no_dimension_doc)).
  { split; [reflexivity|]. exists sample_image_description.
    split; [reflexivity|]. split; vm_compute; reflexivity. }
  assert (Hrun : create_levels_from_collection
                   (synthesis (sample_slide MoreSamples.no_dimension_doc))
                   None (collection_of MoreSamples.no_dimension_doc) []
                 = (fst (synthesize MoreSamples.no_dimension_doc), Done tt))
    by (vm_compute; reflexivity).
  split; [exact Hc|]. split; [vm_compute; reflexivity|].
  apply (proj2 (leica_open_without_levels _ None _ _
                  (image_at MoreSamples.no_dimension_doc 0) Hc Hrun
                  ltac:(vm_compute; reflexivity)
                  ltac:(vm_compute; reflexivity))).
Defined.

(** ** read_tile *)

(** X16.  What [read_tile] does with buffers and with the cache entry,
    however the call ends.  Every buffer it allocates it either frees or
    hands to the cache, passing the byte count it allocated it with, and
    it allocates at most one.  It touches the TIFF only after a cache
    miss.  When it succeeds it has painted once, has released the cache
    entry once and has freed no buffer; the surface it paints is given
    the tile width, the tile height and four times the tile width as
    stride, each converted to [int]: as they are when the tile is less
    than 2^29 wide and 2^31 high, and as the implementation defines
    otherwise.  When it fails, the error is that of reading or clipping
    the tile after a cache miss; nothing was put in the cache, nothing
    was painted and no cache entry was released.  When it ends on the
    allocator or on an overflow, nothing was painted either. *)
Theorem read_tile_buffers (R : tile_collaborators) (a : area)
    (tile_col tile_row : Z) :
  let events := fst (read_tile R a tile_col tile_row) in
  let tw := tile_w (tiffl a) in
  let th := tile_h (tiffl a) in
  allocated events = freed events ++ cached events /\
  (length (allocated events) <= 1)%nat /\
  (if cache_get R a tile_col tile_row
   then reads_tiff events = false /\ allocated events = []
   else True) /\
  match snd (read_tile R a tile_col tile_row) with
  | Done _ =>
      paints events = [(to_int R tw, to_int R th, to_int R (tw * 4))] /\
      (0 <= tw < 2 ^ 29 -> 0 <= th < 2 ^ 31 ->
       paints events = [(tw, th, tw * 4)]) /\
      unrefs events = 1%nat /\ freed events = []
  | Failed e =>
      cache_get R a tile_col tile_row = false /\
      fetch_failure R a tile_col tile_row = Some e /\
      cached events = [] /\ paints events = [] /\ unrefs events = 0%nat
  | Aborted | Undefined =>
      cached events = allocated events /\ freed events = [] /\
      paints events = [] /\ unrefs events = 0%nat
  end.
Proof.
  assert (Hint : forall z, - 2 ^ 31 <= z < 2 ^ 31 -> to_int R z = z).
  { intros z Hz. unfold to_int, in_int.
    destruct (Z.leb_spec (- 2 ^ 31) z); [|lia].
    destruct (Z.ltb_spec z (2 ^ 31)); [reflexivity|lia]. }
  unfold read_tile, draw_tile, fetch_failure, tile_bytes, int64_mul.
  cbv zeta.
  destruct (cache_get R a tile_col tile_row).
  - destruct (Double.in_int64 (tile_w (tiffl a) * 4));
      cbn -[to_int Z.mul Z.pow]; auto 10.
    repeat split; auto. intros Hw Hh. rewrite !Hint by lia. reflexivity.
  - destruct (Double.in_int64 (tile_w (tiffl a) * tile_h (tiffl a)));
      [|cbn; auto 10].
    destruct (Double.in_int64 (tile_w (tiffl a) * tile_h (tiffl a) * 4));
      [|cbn; auto 10].
    destruct (slice_alloc R _); [|cbn; auto 10]. cbn [negb].
    destruct (tiff_read_tile R (tiffl a) tile_col tile_row);
      [cbn; auto 10|].
    destruct (tiff_clip_tile R (tiffl a) tile_col tile_row);
      [cbn; auto 10|].
    destruct (Double.in_int64 (tile_w (tiffl a) * 4));
      cbn -[to_int Z.mul Z.pow]; auto 10.
    repeat split; auto. intros Hw Hh. rewrite !Hint by lia. reflexivity.
Qed.

Lemma read_tile_buffers_witness :
  0 <= tile_w (tiffl (sample_area 1 0)) < 2 ^ 29 /\
  0 <= tile_h (tiffl (sample_area 1 0)) < 2 ^ 31 /\
  snd (read_tile MoreSamples.sample_reader (sample_area 1 0) 0 7)
  = Done tt /\
  paints (fst (read_tile MoreSamples.sample_reader (sample_area 1 0) 0 7))
  = [(256, 256, 1024)].
Proof.
  assert (Hw : 0 <= tile_w (tiffl (sample_area 1 0)) < 2 ^ 29)
    by (simpl; lia).
  assert (Hh : 0 <= tile_h (tiffl (sample_area 1 0)) < 2 ^ 31)
    by (simpl; lia).
  assert (Hr : snd (read_tile MoreSamples.sample_reader (sample_area 1 0)
                      0 7) = Done tt) by (vm_compute; reflexivity).
  split; [exact Hw|]. split; [exact Hh|]. split; [exact Hr|].
  pose proof (read_tile_buffers MoreSamples.sample_reader (sample_area 1 0)
                0 7) as H.
  cbv zeta in H. rewrite Hr in H.
  destruct H as (_ & _ & _ & _ & H & _). exact (H Hw Hh).
Defined.

(** X17.  With a tile whose sides are not negative and below 2^30,
    nothing [read_tile] computes overflows: the call is defined.  A tile
    found in the cache is always painted; after a cache miss the call
    succeeds exactly when the buffer of [tw * th * 4] bytes is allocated
    and the tile is read and clipped, and fails with the error of the
    first of the two that fails. *)
Theorem read_tile_outcome (R : tile_collaborators) (a : area)
    (tile_col tile_row : Z) :
  0 <= tile_w (tiffl a) < 2 ^ 30 ->
  0 <= tile_h (tiffl a) < 2 ^ 30 ->
  snd (read_tile R a tile_col tile_row)
  = if cache_get R a tile_col tile_row then Done tt
    else if slice_alloc R (tile_w (tiffl a) * tile_h (tiffl a) * 4)
    then match fetch_failure R a tile_col tile_row with
         | Some e => Failed e
         | None => Done tt
         end
    else Aborted.
Proof.
  intros Hw Hh.
  assert (H1 : Double.in_int64 (tile_w (tiffl a) * 4) = true).
  { unfold Double.in_int64. apply andb_true_iff.
    split; [apply Z.leb_le|apply Z.ltb_lt]; lia. }
  assert (H2 : Double.in_int64 (tile_w (tiffl a) * tile_h (tiffl a)) = true).
  { unfold Double.in_int64. apply andb_true_iff.
    split; [apply Z.leb_le|apply Z.ltb_lt]; nia. }
  assert (H3 : Double.in_int64 (tile_w (tiffl a) * tile_h (tiffl a) * 4)
               = true).
  { unfold Double.in_int64. apply andb_true_iff.
    split; [apply Z.leb_le|apply Z.ltb_lt]; nia. }
  unfold read_tile, draw_tile, fetch_failure, tile_bytes, int64_mul.
  rewrite H1, H2, H3.
  destruct (cache_get R a tile_col tile_row); [reflexivity|].
  destruct (slice_alloc R _); [|reflexivity]. cbn [negb].
  destruct (tiff_read_tile R (tiffl a) tile_col tile_row); [reflexivity|].
  destruct (tiff_clip_tile R (tiffl a) tile_col tile_row); reflexivity.
Qed.

Lemma read_tile_outcome_witness :
  0 <= tile_w (tiffl (sample_area 1 0)) < 2 ^ 30 /\
  0 <= tile_h (tiffl (sample_area 1 0)) < 2 ^ 30 /\
  read_tile MoreSamples.sample_reader (sample_area 1 0) 2 7
  = ([CacheGet (sample_area 1 0) 2 7; SliceAlloc 262144;
      TiffReadTile (tiffl (sample_area 1 0)) 2 7; SliceFree 262144],
     Failed (mkGError OPENSLIDE_ERROR_FAILED "Cannot read tile")).
Proof.
  assert (Hw : 0 <= tile_w (tiffl (sample_area 1 0)) < 2 ^ 30)
    by (simpl; lia).
  assert (Hh : 0 <= tile_h (tiffl (sample_area 1 0)) < 2 ^ 30)
    by (simpl; lia).
  split; [exact Hw|]. split; [exact Hh|].
  pose proof (read_tile_outcome MoreSamples.sample_reader (sample_area 1 0)
                2 7 Hw Hh) as H.
  destruct (read_tile MoreSamples.sample_reader (sample_area 1 0) 2 7)
    as [events r] eqn:Hrun.
  simpl in H. subst r. vm_compute in Hrun. inversion Hrun. reflexivity.
Defined.

(** ** _openslide_fread and _openslide_fread_exact *)

Lemma take_length_take {A : Type} (m : nat) (l : list A) :
  take (length (take m l)) l = take m l.
Proof.
  rewrite length_take. destruct (Nat.le_gt_cases m (length l)).
  - now rewrite Nat.min_l.
  - rewrite Nat.min_r by lia. rewrite !take_ge by lia. reflexivity.
Qed.

Lemma drop_length_take {A : Type} (m : nat) (l : list A) :
  drop (length (take m l)) l = drop m l.
Proof.
  rewrite length_take. destruct (Nat.le_gt_cases m (length l)).
  - now rewrite Nat.min_l.
  - rewrite Nat.min_r by lia. rewrite !drop_ge by lia. reflexivity.
Qed.

(** One call of [fread]: it stores the next bytes of the file, no more
    than it is asked for, and never clears the error indicator. *)
Lemma fread_spec (s : stream) (n : Z) :
  0 <= n ->
  let got := fst (fread s n) in
  let s' := snd (fread s n) in
  got = take (length got) (unread s) /\
  unread s' = drop (length got) (unread s) /\
  Z.of_nat (length got) <= n /\
  (error_indicator s = true -> error_indicator s' = true).
Proof.
  intros Hn. unfold fread.
  destruct (answers s) as [|[k|k] rest]; cbn [fst snd unread error_indicator];
    rewrite take_length_take, drop_length_take;
    (split; [reflexivity|]); (split; [reflexivity|]);
    (split; [rewrite length_take; lia|auto]).
Qed.

Lemma fread_delivering (s : stream) (n : Z) :
  delivering s -> 1 <= n ->
  let got := fst (fread s n) in
  let s' := snd (fread s n) in
  delivering s' /\
  error_indicator s' = error_indicator s /\
  (1 <= Z.of_nat (length got) \/ unread s = []) /\
  (unread s = [] -> got = []).
Proof.
  unfold delivering, fread. intros Hd Hn.
  destruct (answers s) as [|a rest];
    cbn [fst snd unread error_indicator answers].
  - split; [constructor|]. split; [reflexivity|].
    split; [|intros ->; now rewrite take_nil].
    destruct (unread s) as [|b l]; [now right|left].
    rewrite length_take. simpl length. lia.
  - apply Forall_cons_1 in Hd as [(k & -> & Hk) Hd].
    cbn [fst snd unread error_indicator answers].
    split; [exact Hd|]. split; [reflexivity|].
    split; [|intros ->; now rewrite take_nil].
    destruct (unread s) as [|b l]; [now right|left].
    rewrite length_take. simpl length. lia.
Qed.

(** The loop: with as many turns as bytes are still wanted it ends, and
    what it adds to the buffer is the next bytes of the file. *)
Lemma fread_loop_spec (size : Z) (turns : nat) :
  forall (s : stream) (total : Z) (buf : list Byte.byte),
    0 <= total <= size -> size - total <= Z.of_nat turns ->
    exists total' more s',
      fread_loop turns s size total buf = Some (total', buf ++ more, s') /\
      total' = total + Z.of_nat (length more) /\
      total' <= size /\
      more = take (length more) (unread s) /\
      unread s' = drop (length more) (unread s) /\
      (error_indicator s = true -> error_indicator s' = true) /\
      (delivering s ->
       error_indicator s' = error_indicator s /\
       (total' = size \/ unread s' = [])).
Proof.
  induction turns as [|turns IH]; intros s total buf Ht Hfuel.
  - assert (total = size) by lia. subst total. simpl.
    rewrite Z.ltb_irrefl. exists size, [], s.
    rewrite app_nil_r, drop_0. simpl. repeat split; auto; lia.
  - simpl. destruct (Z.ltb_spec total size) as [Hlt|Hge].
    2:{ exists total, [], s. rewrite app_nil_r, drop_0. simpl.
        repeat split; auto; try lia. }
    pose proof (fread_spec s (size - total) ltac:(lia))
      as (Hgot & Hun & Hlen & Herr).
    pose proof (fread_delivering s (size - total)) as Hdel.
    destruct (fread s (size - total)) as [got s1]. simpl in Hgot, Hun, Hlen,
      Herr, Hdel.
    destruct (Z.eqb_spec (Z.of_nat (length got)) 0) as [Hz|Hnz].
    + assert (Hnil : got = []) by (destruct got; [reflexivity|discriminate]).
      subst got. exists total, [], s1. rewrite app_nil_r. simpl.
      repeat split; auto; try lia.
      * now apply Hdel; [|lia].
      * destruct (Hdel H ltac:(lia)) as (_ & _ & [Hone|Hend] & _);
          [simpl in Hone; lia|].
        right. simpl in Hun. rewrite drop_0 in Hun. congruence.
    + destruct (IH s1 (total + Z.of_nat (length got)) (buf ++ got))
        as (total' & more & s' & Hrun & Htot & Hle & Hmore & Hun' & Herr'
            & Hdel'); [lia|lia|].
      exists total', (got ++ more), s'.
      rewrite app_assoc. split; [exact Hrun|].
      rewrite length_app.
      split; [lia|]. split; [exact Hle|].
      split.
      { rewrite <- take_take_drop, <- Hun, <- Hmore, <- Hgot.
        reflexivity. }
      split; [rewrite Hun', Hun, drop_drop; reflexivity|].
      split; [auto|].
      intros Hd. destruct (Hdel Hd ltac:(lia)) as (Hd1 & He1 & _).
      destruct (Hdel' Hd1) as (He' & Hend). split; [congruence|exact Hend].
Qed.

Lemma _openslide_fread_run (path : string) (s : stream) (size : Z) :
  0 <= size ->
  exists buf s',
    _openslide_fread path s size
    = Some (Z.of_nat (length buf), buf,
            if (Z.of_nat (length buf) =? 0) && error_indicator s'
            then Some (READ_ERROR path) else None,
            s') /\
    Z.of_nat (length buf) <= size /\
    buf = take (length buf) (unread s) /\
    unread s' = drop (length buf) (unread s) /\
    (error_indicator s = true -> error_indicator s' = true) /\
    (delivering s ->
     error_indicator s' = error_indicator s /\
     (Z.of_nat (length buf) = size \/ unread s' = [])).
Proof.
  intros Hsize. unfold _openslide_fread.
  destruct (fread_loop_spec size (Z.to_nat size) s 0 [])
    as (total & more & s' & Hrun & Htot & Hle & Hmore & Hun & Herr & Hdel);
    [lia|lia|].
  rewrite Hrun. simpl in *. subst total. exists more, s'.
  repeat split; auto; now apply Hdel.
Qed.

(** X18.  [_openslide_fread] returns, whatever the C library answers.
    The count it returns is the number of bytes it has stored, which is
    at most [size]; the bytes are the next bytes of the file, and the
    stream has moved past them.  It sets an error only when it has
    stored nothing and the error indicator of the stream is set: a read
    error after some bytes have been stored is not reported by this
    call, and a call for zero bytes reports an error the stream already
    had. *)
Theorem _openslide_fread_spec (path : string) (s : stream) (size : Z) :
  0 <= size ->
  (exists buf err s',
     _openslide_fread path s size
     = Some (Z.of_nat (length buf), buf, err, s') /\
     Z.of_nat (length buf) <= size /\
     buf = take (length buf) (unread s) /\
     unread s' = drop (length buf) (unread s) /\
     (err = None \/ err = Some (READ_ERROR path)) /\
     (err <> None <-> buf = [] /\ error_indicator s' = true) /\
     (error_indicator s = true -> error_indicator s' = true)) /\
  _openslide_fread path s 0
  = Some (0, [], if error_indicator s then Some (READ_ERROR path) else None,
          s).
Proof.
  intros Hsize. split; [|reflexivity].
  destruct (_openslide_fread_run path s size Hsize)
    as (buf & s' & Hrun & Hle & Hbuf & Hun & Herr & _).
  eexists buf, _, s'. split; [exact Hrun|].
  repeat (split; [assumption|]).
  destruct buf as [|b buf]; simpl;
    [destruct (error_indicator s')|]; repeat split; auto;
    try discriminate; try tauto; intros []; discriminate.
Qed.

Lemma delivered_all (size : Z) (buf l rest : list Byte.byte) :
  0 <= size ->
  Z.of_nat (length buf) <= size ->
  buf = take (length buf) l ->
  rest = drop (length buf) l ->
  Z.of_nat (length buf) = size \/ rest = [] ->
  Z.of_nat (length buf) = Z.min size (Z.of_nat (length l)) /\
  buf = take (Z.to_nat size) l /\
  rest = drop (Z.to_nat size) l.
Proof.
  intros Hsize Hle Hbuf Hrest Hend.
  assert (Hbl : (length buf <= length l)%nat).
  { rewrite Hbuf, length_take. lia. }
  destruct Hend as [Heq|Hnil].
  - assert (Hn : Z.to_nat size = length buf) by lia.
    rewrite Hn. split; [lia|]. split; assumption.
  - assert (Hlb : (length l <= length buf)%nat).
    { subst rest. apply (f_equal length) in Hnil.
      rewrite length_drop in Hnil. simpl in Hnil. lia. }
    split; [lia|].
    rewrite Hbuf at 1. rewrite Hrest.
    rewrite !take_ge, !drop_ge by lia. auto.
Qed.

(** X19.  When the C library delivers at least one byte at every call,
    short of the end of the file, and meets no error,
    [_openslide_fread] puts the short reads together: it returns [size]
    bytes, or all the bytes left in the file when those are fewer, and
    leaves the stream after them.  A count below [size] then means the
    end of the file. *)
Theorem _openslide_fread_reassembles (path : string) (s : stream)
    (size : Z) :
  delivering s -> 0 <= size ->
  exists err s',
    _openslide_fread path s size
    = Some (Z.min size (Z.of_nat (length (unread s))),
            take (Z.to_nat size) (unread s), err, s') /\
    unread s' = drop (Z.to_nat size) (unread s) /\
    error_indicator s' = error_indicator s /\
    (error_indicator s = false -> err = None).
Proof.
  intros Hd Hsize.
  destruct (_openslide_fread_run path s size Hsize)
    as (buf & s' & Hrun & Hle & Hbuf & Hun & _ & Hdel).
  destruct (Hdel Hd) as [Herr Hend].
  destruct (delivered_all size buf (unread s) (unread s') Hsize Hle Hbuf Hun
              Hend) as (Hlen & Htake & Hdrop).
  rewrite Hlen, Htake in Hrun. rewrite Hrun.
  eexists _, s'. split; [reflexivity|].
  split; [exact Hdrop|]. split; [exact Herr|].
  intros Hno. rewrite Herr, Hno, andb_false_r. reflexivity.
Qed.

(** X20.  [_openslide_fread_exact] returns, and returns [true] exactly
    when it sets no error.  When it returns [true] it has stored exactly
    [size] bytes, the next bytes of the file, and the stream is after
    them.  When it returns [false] either nothing was stored and the
    error indicator of the stream is set, and the error is the I/O error
    of [_openslide_fread]; or fewer than [size] bytes were stored and the
    error is [OPENSLIDE_ERROR_FAILED], "Short read of file", with the two
    counts.  When the C library delivers and the stream has no error, the
    call succeeds exactly when the file has [size] bytes left. *)
Theorem _openslide_fread_exact_spec (path : string) (s : stream) (size : Z) :
  0 <= size ->
  exists ok buf err s',
    _openslide_fread_exact path s size = Some (ok, buf, err, s') /\
    (ok = true <-> err = None) /\
    buf = take (length buf) (unread s) /\
    unread s' = drop (length buf) (unread s) /\
    (ok = true -> Z.of_nat (length buf) = size) /\
    (ok = false ->
     (err = Some (READ_ERROR path) /\ buf = [] /\
      error_indicator s' = true) \/
     (err = Some (SHORT_READ path (Z.of_nat (length buf)) size) /\
      Z.of_nat (length buf) < size)) /\
    (delivering s -> error_indicator s = false ->
     (ok = true <-> size <= Z.of_nat (length (unread s)))).
Proof.
  intros Hsize.
  destruct (_openslide_fread_run path s size Hsize)
    as (buf & s' & Hrun & Hle & Hbuf & Hun & _ & Hdel).
  unfold _openslide_fread_exact. rewrite Hrun.
  destruct ((Z.of_nat (length buf) =? 0) && error_indicator s') eqn:Herr.
  - apply andb_true_iff in Herr as [Hz He]. apply Z.eqb_eq in Hz.
    assert (Hnil : buf = []) by (destruct buf; [reflexivity|discriminate]).
    eexists false, buf, _, s'. split; [reflexivity|].
    split; [split; discriminate|].
    split; [exact Hbuf|]. split; [exact Hun|].
    split; [discriminate|]. split; [auto|].
    intros Hd Hno. destruct (Hdel Hd) as [Hsame _]. congruence.
  - destruct (Z.ltb_spec (Z.of_nat (length buf)) size) as [Hlt|Hge].
    + eexists false, buf, _, s'. split; [reflexivity|].
      split; [split; discriminate|].
      split; [exact Hbuf|]. split; [exact Hun|].
      split; [discriminate|]. split; [auto|].
      intros Hd Hno. destruct (Hdel Hd) as [_ Hend].
      destruct (delivered_all size buf (unread s) (unread s') Hsize Hle
                  Hbuf Hun Hend) as (Hlen & _).
      split; [discriminate|lia].
    + eexists true, buf, _, s'. split; [reflexivity|].
      split; [split; reflexivity|].
      split; [exact Hbuf|]. split; [exact Hun|].
      split; [lia|]. split; [discriminate|].
      intros Hd Hno. split; [|reflexivity]. intros _.
      assert (Hbl : (length buf <= length (unread s))%nat).
      { rewrite Hbuf, length_take. lia. }
      lia.
Qed.

Lemma _openslide_fread_spec_witness :
  0 <= 8 /\
  _openslide_fread "slide.scn" MoreSamples.failing_stream 8
  = Some (3, take 3 MoreSamples.ten_bytes, None,
          mkStream (drop 3 MoreSamples.ten_bytes) true []).
Proof.
  split; [lia|].
  destruct (proj1 (_openslide_fread_spec "slide.scn"
                     MoreSamples.failing_stream 8 ltac:(lia)))
    as (buf & err & s' & Hrun & _).
  rewrite Hrun. vm_compute in Hrun. inversion Hrun. reflexivity.
Defined.

Lemma _openslide_fread_reassembles_witness :
  delivering MoreSamples.sample_stream /\
  exists err s',
    _openslide_fread "slide.scn" MoreSamples.sample_stream 8
    = Some (8, take 8 MoreSamples.ten_bytes, err, s') /\
    unread s' = drop 8 MoreSamples.ten_bytes.
Proof.
  assert (Hd : delivering MoreSamples.sample_stream).
  { repeat constructor; eexists; (split; [reflexivity|lia]). }
  split; [exact Hd|].
  destruct (_openslide_fread_reassembles "slide.scn"
              MoreSamples.sample_stream 8 Hd ltac:(lia))
    as (err & s' & Hrun & Hun & _).
  exists err, s'. split; [exact Hrun|exact Hun].
Defined.

Lemma _openslide_fread_exact_spec_witness :
  0 <= 12 /\
  exists buf s',
    _openslide_fread_exact "slide.scn" MoreSamples.sample_stream 12
    = Some (false, buf,
            Some (SHORT_READ "slide.scn" (Z.of_nat (length buf)) 12), s') /\
    Z.of_nat (length buf) < 12.
Proof.
  split; [lia|].
  destruct (_openslide_fread_exact_spec "slide.scn"
              MoreSamples.sample_stream 12 ltac:(lia))
    as (ok & buf & err & s' & Hrun & _ & _ & _ & _ & Hfalse & _).
  assert (Hok : ok = false).
  { vm_compute in Hrun. inversion Hrun. reflexivity. }
  destruct (Hfalse Hok) as [(_ & _ & He) | (He & Hlt)].
  - exfalso. vm_compute in Hrun. inversion Hrun; subst s'. discriminate.
  - exists buf, s'. subst ok err. split; [exact Hrun|exact Hlt].
Defined.

(** ** _openslide_fopen *)

(** X21.  [_openslide_fopen] leaks no stream and returns none that an
    [exec] would inherit.  When it fails, whichever call failed, no
    stream is left open: the stream [fopen] gave, if any, has been closed
    on the way out, and the error is a [G_FILE_ERROR].  When it succeeds
    the events leave one stream open, which is the one in the file
    returned, together with the path; and either the mode given to
    [fopen] carries the close-on-exec letter of the build, or the
    descriptor flags were set once, on the descriptor of the stream, to
    the flags it had with [FD_CLOEXEC] added. *)
Theorem _openslide_fopen_spec (sys : open_system) (p : string) :
  let events := fst (_openslide_fopen sys p) in
  let mode := String.append "rb" (FOPEN_CLOEXEC_FLAG sys) in
  match snd (_openslide_fopen sys p) with
  | inr e =>
      streams_open events = 0 /\ code e = G_FILE_ERROR /\
      match sys_fopen sys p mode with
      | inl _ => last events = Some Fclose
      | inr errno_text =>
          events = [Fopen p mode false] /\
          e = io_error (String.append "Couldn't open " p) errno_text
      end
  | inl file =>
      streams_open events = 1 /\
      path file = p /\
      sys_fopen sys p mode = inl (fp file) /\
      head events = Some (Fopen p mode true) /\
      match FOPEN_CLOEXEC_FLAG sys with
      | String _ _ => events = [Fopen p mode true]
      | EmptyString =>
          exists flags,
            flags_set events = [(sys_fileno sys, flags)] /\
            Z.testbit flags 0 = true /\
            forall i, Z.testbit flags i
                      = Z.testbit (sys_getfd sys (sys_fileno sys)) i
                        || Z.testbit FD_CLOEXEC i
      end
  end.
Proof.
  unfold _openslide_fopen.
  destruct (sys_fopen sys p (String.append "rb" (FOPEN_CLOEXEC_FLAG sys)))
    as [f|errno_text] eqn:Hopen;
    [|cbn; repeat split; auto; discriminate].
  destruct (FOPEN_CLOEXEC_FLAG sys) as [|c flag];
    [|cbn; repeat split; auto].
  destruct (sys_fileno sys =? -1); [cbn; auto|].
  destruct (sys_getfd sys (sys_fileno sys) =? -1); [cbn; auto|].
  destruct (sys_setfd sys (sys_fileno sys) _ =? 0);
    cbn -[Z.testbit Z.lor]; [|auto].
  repeat split; auto.
  exists (Z.lor (sys_getfd sys (sys_fileno sys)) FD_CLOEXEC).
  split; [reflexivity|]. split.
  - rewrite Z.lor_spec. apply orb_true_r.
  - intros i. apply Z.lor_spec.
Qed.

Lemma _openslide_fopen_spec_witness :
  snd (_openslide_fopen MoreSamples.failing_system "slide.scn")
  = inr (io_error "Couldn't F_SETFD slide.scn" "Bad file descriptor") /\
  streams_open (fst (_openslide_fopen MoreSamples.failing_system "slide.scn"))
  = 0.
Proof.
  pose proof (_openslide_fopen_spec MoreSamples.failing_system "slide.scn")
    as H.
  split; [vm_compute; reflexivity|].
  destruct (snd (_openslide_fopen MoreSamples.failing_system "slide.scn"))
    as [file|e] eqn:Hr; [vm_compute in Hr; discriminate|].
  exact (proj1 H).
Defined.

(** ** _openslide_fseek, _openslide_ftell and _openslide_fsize: more *)

Lemma _openslide_ftell_answered (file : _openslide_file) :
  0 <= file_pos (fp file) ->
  head (faults (fp file)) = None \/ head (faults (fp file)) = Some None ->
  fst (_openslide_ftell file) = (file_pos (fp file), None).
Proof.
  destruct file as [[size pos fl] p]. cbn [fp faults file_pos].
  intros Hpos Hh. unfold _openslide_ftell, ftello, next_fault.
  cbn [fp faults file_size file_pos path].
  destruct fl as [|[s|] fl]; cbn in Hh;
    [|destruct Hh; discriminate|];
    (destruct pos as [|q|q]; [reflexivity|reflexivity|lia]).
Qed.

(** X22.  [_openslide_fseek] followed by [_openslide_ftell], for a seek
    whose offset is an [int64_t] and whose target is a position an
    [off_t] can hold (a seek beyond it is for the C library to refuse).
    When the seek returns [true] it has set no error, the stream is at
    the position asked for (from the start of the file, or from its
    end), which is not negative, and a tell the operating system answers
    returns that position with no error.  When the seek returns [false]
    it has set a [G_FILE_ERROR] and the stream has not moved. *)
Theorem _openslide_fseek_then_ftell (file : _openslide_file) (offset : Z)
    (wh : whence) :
  let r := _openslide_fseek file offset wh in
  let file' := snd r in
  let target := match wh with
                | SEEK_SET => offset
                | SEEK_END => file_size (fp file) + offset
                end in
  - 2 ^ 63 <= offset < 2 ^ 63 ->
  target < 2 ^ 63 ->
  path file' = path file /\
  file_size (fp file') = file_size (fp file) /\
  if fst (fst r) then
    snd (fst r) = None /\ 0 <= target /\ file_pos (fp file') = target /\
    (head (faults (fp file')) = None \/
     head (faults (fp file')) = Some None ->
     fst (_openslide_ftell file') = (target, None))
  else
    (exists e, snd (fst r) = Some e /\ code e = G_FILE_ERROR) /\
    file_pos (fp file') = file_pos (fp file).
Proof.
  intros r file' target _ _. subst r file' target.
  destruct file as [[size pos fl] p]. unfold _openslide_fseek, fseeko,
    next_fault. cbn [fp faults file_size file_pos path].
  destruct fl as [|[s|] fl]; cbn [fst snd].
  - destruct wh;
      match goal with
      | |- context [?t <? 0] => destruct (Z.ltb_spec t 0)
      end;
      cbn [fst snd fp path file_size file_pos faults with_fp];
      repeat split; eauto; try lia;
      intros Hh; apply _openslide_ftell_answered; assumption.
  - cbn [fst snd fp path file_size file_pos faults with_fp].
    repeat split; eauto.
  - destruct wh;
      match goal with
      | |- context [?t <? 0] => destruct (Z.ltb_spec t 0)
      end;
      cbn [fst snd fp path file_size file_pos faults with_fp];
      repeat split; eauto; try lia;
      intros Hh; apply _openslide_ftell_answered; assumption.
Qed.

Lemma _openslide_fseek_then_ftell_witness :
  fst (fst (_openslide_fseek sample_file (-96) SEEK_END)) = true /\
  fst (_openslide_ftell (snd (_openslide_fseek sample_file (-96) SEEK_END)))
  = (4000, None).
Proof.
  pose proof (_openslide_fseek_then_ftell sample_file (-96) SEEK_END
                ltac:(lia) ltac:(simpl; lia)) as H.
  cbv zeta in H. destruct H as (_ & _ & H).
  assert (Hok : fst (fst (_openslide_fseek sample_file (-96) SEEK_END))
                = true) by (vm_compute; reflexivity).
  split; [exact Hok|]. rewrite Hok in H.
  destruct H as (_ & _ & _ & H). apply H. left. vm_compute. reflexivity.
Defined.

(** X23.  How [_openslide_fsize] fails.  When the operating system
    fails one of the four calls (a tell, a seek to the end, a tell, a
    seek back), with [strerror] text [s], the function returns [-1] and
    sets a [G_FILE_ERROR] whose message is "Couldn't get size: ", then
    "Couldn't get offset of " or "Couldn't seek file " and the path, then
    ": " and [s], and makes no further call.  It does not put the stream
    back: when the failure comes after the seek to the end, the stream is
    left at the end of the file, not where it was. *)
Theorem _openslide_fsize_failure (file : _openslide_file) (s : string)
    (before after : list (option string)) :
  valid_file file ->
  faults (fp file) = before ++ Some s :: after ->
  Forall (fun o => o = None) before ->
  (length before < 4)%nat ->
  _openslide_fsize file
  = (-1,
     Some (mkGError G_FILE_ERROR
             (String.append
                (fsize_failure_message (length before) (path file))
                (String.append ": " s))),
     mkFile (mkFILE (file_size (fp file))
                    (if (length before <? 2)%nat
                     then file_pos (fp file)
                     else file_size (fp file))
                    after)
            (path file)).
Proof.
  intros [Hsize Hpos] Hf Hnone Hlen.
  destruct file as [[size pos fl] p]. simpl in Hsize, Hpos, Hf. subst fl.
  cbn [fp path file_size file_pos].
  destruct before as [|o1 [|o2 [|o3 [|o4 [|o5 before]]]]];
    try (simpl in Hlen; lia);
    repeat match goal with
           | H : Forall _ (_ :: _) |- _ =>
               apply Forall_cons_1 in H as [-> H]
           end;
    (destruct size as [|size|size]; [| |lia]);
    (destruct pos as [|pos|pos]; [| |lia]);
    cbv -[String.append]; reflexivity.
Qed.

Lemma _openslide_fsize_failure_witness :
  valid_file (mkFile (mkFILE 4096 100 [None; None; None; Some "I/O error"])
                     "slide.scn") /\
  _openslide_fsize (mkFile (mkFILE 4096 100
                              [None; None; None; Some "I/O error"])
                           "slide.scn")
  = (-1,
     Some (mkGError G_FILE_ERROR
             "Couldn't get size: Couldn't seek file slide.scn: I/O error"),
     mkFile (mkFILE 4096 4096 []) "slide.scn").
Proof.
  assert (Hv : valid_file (mkFile (mkFILE 4096 100
                                     [None; None; None; Some "I/O error"])
                                  "slide.scn"))
    by (split; simpl; lia).
  split; [exact Hv|].
  apply (_openslide_fsize_failure _ "I/O error" [None; None; None] [] Hv).
  - reflexivity.
  - repeat constructor.
  - simpl. lia.
Defined.
